(** * Saga orchestrator: a shallow embedding of the transaction engine

    The development follows the TypeScript sources:
    - [types.ts]: the enumerations and the steps definition;
    - [transaction-step.ts]: the class [TransactionStep];
    - [distributed-transaction.ts]: [DistributedTransaction] and the payload;
    - [transaction-orchestrator.ts]: the class [TransactionOrchestrator].

    Mutable objects are modelled by explicit state passing in a small
    state-and-exception monad; a JavaScript [throw] keeps the mutations made
    before it, so a thrown outcome still carries the state. *)

From Stdlib Require Import String Ascii List Bool Arith ZArith Lia Permutation Sorted.
From Stdlib Require Import QArith Qround.
Import ListNotations.
Open Scope string_scope.
Open Scope list_scope.
Open Scope nat_scope.

Set Warnings "-register-all".

Set Implicit Arguments.

(** ** Enumerations ([types.ts]) *)

Inductive TransactionStepStatus :=
| IDLE | OK | WAITING | TEMPORARY_FAILURE | PERMANENT_FAILURE.

Inductive TransactionState :=
| NOT_STARTED | INVOKING | WAITING_TO_COMPENSATE | COMPENSATING
| DONE | REVERTED | FAILED | DORMANT | SKIPPED.

Inductive TransactionHandlerType := INVOKE | COMPENSATE.

Definition status_eqb (a b : TransactionStepStatus) : bool :=
  match a, b with
  | IDLE, IDLE | OK, OK | WAITING, WAITING
  | TEMPORARY_FAILURE, TEMPORARY_FAILURE
  | PERMANENT_FAILURE, PERMANENT_FAILURE => true
  | _, _ => false
  end.

Definition state_eqb (a b : TransactionState) : bool :=
  match a, b with
  | NOT_STARTED, NOT_STARTED | INVOKING, INVOKING
  | WAITING_TO_COMPENSATE, WAITING_TO_COMPENSATE
  | COMPENSATING, COMPENSATING | DONE, DONE | REVERTED, REVERTED
  | FAILED, FAILED | DORMANT, DORMANT | SKIPPED, SKIPPED => true
  | _, _ => false
  end.

Definition handlerType_eqb (a b : TransactionHandlerType) : bool :=
  match a, b with
  | INVOKE, INVOKE | COMPENSATE, COMPENSATE => true
  | _, _ => false
  end.

(** [states.includes(x)] *)
Definition includes (l : list TransactionState) (x : TransactionState) : bool :=
  existsb (state_eqb x) l.

(** The string value of the enum [TransactionHandlerType]. *)
Definition handlerType_str (t : TransactionHandlerType) : string :=
  match t with INVOKE => "invoke" | COMPENSATE => "compensate" end.

(** Opaque JavaScript values (inputs, responses, error objects) are
    represented by their text. *)
Definition Value := string.

(** ** Errors and the state-and-exception monad *)

Inductive Error :=
| InvalidState (from to : TransactionState)
| InvalidStatus (from to : TransactionStepStatus)
| TypeError
| DuplicateAction (name : option string)
| WrongModel (transactionModel orchestratorModel : string)
| IllegalState (found : TransactionStepStatus)
| StepNotFound (key : string).

Inductive Outcome (A : Type) :=
| Returned (a : A)
| Thrown (e : Error)
| OutOfFuel.

Arguments Thrown {A} e.
Arguments OutOfFuel {A}.

Definition M (S A : Type) : Type := S -> Outcome A * S.

Definition ret {S A} (a : A) : M S A := fun s => (Returned a, s).

Definition throw {S A} (e : Error) : M S A := fun s => (Thrown e, s).

Definition bind {S A B} (m : M S A) (k : A -> M S B) : M S B :=
  fun s =>
    match m s with
    | (Returned a, s') => k a s'
    | (Thrown e, s') => (Thrown e, s')
    | (OutOfFuel, s') => (OutOfFuel, s')
    end.

Definition get {S} : M S S := fun s => (Returned s, s).

Definition modify {S} (f : S -> S) : M S unit := fun s => (Returned tt, f s).

(** A read that fails with a [TypeError], as a property access on
    [undefined] does. *)
Definition orTypeError {S A} (o : option A) : M S A :=
  match o with Some a => ret a | None => throw TypeError end.

Declare Scope monad_scope.
Delimit Scope monad_scope with monad.
Notation "x <- c ;; k" := (bind c (fun x => k))
  (at level 61, c at next level, right associativity) : monad_scope.
Notation "c ;;; k" := (bind c (fun _ => k))
  (at level 61, right associativity) : monad_scope.
Open Scope monad_scope.

(** ** The steps definition ([types.ts]) *)

(** A JavaScript [number]: a finite value, which is a rational, [NaN],
    [Infinity] or [-Infinity]. *)
Inductive JsNumber :=
| Finite (q : Q)
| NaN
| PosInfinity
| NegInfinity.

(** The number that a counter holds. *)
Definition numberOf (n : nat) : JsNumber := Finite (inject_Z (Z.of_nat n)).

(** [n > m], for a counter [n]: every comparison with [NaN] is false. *)
Definition gtNumber (n : nat) (m : JsNumber) : bool :=
  match m with
  | Finite q => negb (Qle_bool (inject_Z (Z.of_nat n)) q)
  | NaN => false
  | PosInfinity => false
  | NegInfinity => true
  end.

(** [m + 1] *)
Definition plusOne (m : JsNumber) : JsNumber :=
  match m with
  | Finite q => Finite (q + 1)
  | other => other
  end.

(** The policy of one step: [TransactionStepsDefinition] without [next],
    which is what [buildSteps] stores in a step ([definitionCopy]). An
    optional property that is unset is [None]; [maxRetries?: number] is any
    number, nothing in the engine checks it. *)
Record StepPolicy := mkPolicy {
  action : option string;
  maxRetries : option JsNumber;
  continueOnPermanentFailure : bool;
  noWait : bool;
  noCompensation : bool;
  def_forwardResponse : option bool
}.

(** [next?: TransactionStepsDefinition | TransactionStepsDefinition[]] *)
Inductive TransactionStepsDefinition :=
| Last (p : StepPolicy)
| Single (p : StepPolicy) (next : TransactionStepsDefinition)
| Many (p : StepPolicy) (next : list TransactionStepsDefinition).

(** ** [TransactionStep] ([transaction-step.ts]) *)

Record StatePair := mkPair {
  status : TransactionStepStatus;
  state : TransactionState
}.

Record TransactionStep := mkStep {
  stepFailed : bool;
  id : string;
  definition : StepPolicy;
  invoke : StatePair;
  compensate : StatePair;
  next : list string;
  depth : nat;
  lastAttempt : option nat;
  attempts : nat;
  failures : nat;
  forwardResponse : bool;
  response : option Value
}.

Definition set_stepFailed (v : bool) (s : TransactionStep) : TransactionStep :=
  mkStep v (id s) (definition s) (invoke s) (compensate s) (next s) (depth s)
         (lastAttempt s) (attempts s) (failures s) (forwardResponse s) (response s).

Definition set_invoke (v : StatePair) (s : TransactionStep) : TransactionStep :=
  mkStep (stepFailed s) (id s) (definition s) v (compensate s) (next s) (depth s)
         (lastAttempt s) (attempts s) (failures s) (forwardResponse s) (response s).

Definition set_compensate (v : StatePair) (s : TransactionStep) : TransactionStep :=
  mkStep (stepFailed s) (id s) (definition s) (invoke s) v (next s) (depth s)
         (lastAttempt s) (attempts s) (failures s) (forwardResponse s) (response s).

Definition set_next (v : list string) (s : TransactionStep) : TransactionStep :=
  mkStep (stepFailed s) (id s) (definition s) (invoke s) (compensate s) v (depth s)
         (lastAttempt s) (attempts s) (failures s) (forwardResponse s) (response s).

Definition set_lastAttempt (v : option nat) (s : TransactionStep) : TransactionStep :=
  mkStep (stepFailed s) (id s) (definition s) (invoke s) (compensate s) (next s) (depth s)
         v (attempts s) (failures s) (forwardResponse s) (response s).

Definition set_attempts (v : nat) (s : TransactionStep) : TransactionStep :=
  mkStep (stepFailed s) (id s) (definition s) (invoke s) (compensate s) (next s) (depth s)
         (lastAttempt s) v (failures s) (forwardResponse s) (response s).

Definition set_failures (v : nat) (s : TransactionStep) : TransactionStep :=
  mkStep (stepFailed s) (id s) (definition s) (invoke s) (compensate s) (next s) (depth s)
         (lastAttempt s) (attempts s) v (forwardResponse s) (response s).

Definition set_response (v : option Value) (s : TransactionStep) : TransactionStep :=
  mkStep (stepFailed s) (id s) (definition s) (invoke s) (compensate s) (next s) (depth s)
         (lastAttempt s) (attempts s) (failures s) (forwardResponse s) v.

Definition isCompensating (s : TransactionStep) : bool := stepFailed s.

Definition beginCompensation (s : TransactionStep) : TransactionStep :=
  if isCompensating s then s
  else set_lastAttempt None (set_failures 0 (set_attempts 0 (set_stepFailed true s))).

Definition getStates (s : TransactionStep) : StatePair :=
  if isCompensating s then compensate s else invoke s.

(** Assignment through the reference returned by [getStates()]. *)
Definition setStates (p : StatePair) (s : TransactionStep) : TransactionStep :=
  if isCompensating s then set_compensate p s else set_invoke p s.

(** The table [allowed] of [changeState]. *)
Definition allowedState (from : TransactionState) : list TransactionState :=
  match from with
  | DORMANT => [NOT_STARTED]
  | NOT_STARTED => [INVOKING; COMPENSATING; FAILED; SKIPPED]
  | INVOKING => [FAILED; DONE]
  | COMPENSATING => [REVERTED; FAILED]
  | DONE => [COMPENSATING]
  | _ => []
  end.

Definition changeState (toState : TransactionState) : M TransactionStep unit :=
  fun s =>
    let curState := getStates s in
    if state_eqb (state curState) toState
       || includes (allowedState (state curState)) toState
    then (Returned tt, setStates (mkPair (status curState) toState) s)
    else (Thrown (InvalidState (state curState) toState), s).

(** The table [allowed] of [changeStatus]. *)
Definition allowedStatus (from : TransactionStepStatus) : list TransactionStepStatus :=
  match from with
  | WAITING => [OK; TEMPORARY_FAILURE; PERMANENT_FAILURE]
  | TEMPORARY_FAILURE => [IDLE; PERMANENT_FAILURE]
  | PERMANENT_FAILURE => [IDLE]
  | _ => []
  end.

Definition changeStatus (toStatus : TransactionStepStatus) : M TransactionStep unit :=
  fun s =>
    let curState := getStates s in
    if status_eqb (status curState) toStatus
       || status_eqb toStatus WAITING
       || existsb (status_eqb toStatus) (allowedStatus (status curState))
    then (Returned tt, setStates (mkPair toStatus (state curState)) s)
    else (Thrown (InvalidStatus (status curState) toStatus), s).

Definition getResponse (s : TransactionStep) : option Value := response s.

Definition saveResponse (r : option Value) (s : TransactionStep) : TransactionStep :=
  set_response r s.

Definition canInvoke (flowState : TransactionState) (s : TransactionStep) : bool :=
  (negb (isCompensating s)
   && state_eqb (state (getStates s)) NOT_STARTED
   && state_eqb flowState INVOKING)
  || status_eqb (status (getStates s)) TEMPORARY_FAILURE.

Definition canCompensate (flowState : TransactionState) (s : TransactionStep) : bool :=
  isCompensating s
  && state_eqb (state (getStates s)) NOT_STARTED
  && state_eqb flowState COMPENSATING.

(** ** JavaScript objects used as ordered dictionaries

    [Object.keys] and [for ... in] enumerate string keys in insertion order,
    so a dictionary is an association list with unique keys: an assignment to
    an existing key keeps its position, a new key goes last. *)

Definition Obj (V : Type) : Type := list (string * V).

(** [o[k]] *)
Fixpoint prop {V} (o : Obj V) (k : string) : option V :=
  match o with
  | [] => None
  | (k', v) :: o' => if String.eqb k' k then Some v else prop o' k
  end.

(** [o[k] = v] *)
Fixpoint assign {V} (k : string) (v : V) (o : Obj V) : Obj V :=
  match o with
  | [] => [(k, v)]
  | (k', v') :: o' =>
      if String.eqb k' k then (k', v) :: o' else (k', v') :: assign k v o'
  end.

(** [Object.keys(o)] *)
Definition keys {V} (o : Obj V) : list string := map fst o.

(** [s.split(sep)] for a one-character separator. *)
Fixpoint split (sep : ascii) (s : string) : list string :=
  match s with
  | EmptyString => [EmptyString]
  | String c r =>
      if Ascii.eqb c sep then EmptyString :: split sep r
      else match split sep r with
           | [] => [String c EmptyString]
           | h :: t => String c h :: t
           end
  end.

(** [l.join(sep)] *)
Definition join (sep : string) (l : list string) : string := String.concat sep l.

(** ** The flow and the transaction ([distributed-transaction.ts]) *)

(** An entry of [flow.steps]: a [TransactionStep], or the bare object
    [{ id, next }] that [buildSteps] creates for the root (every other
    property of it is [undefined]). *)
Inductive StepEntry :=
| Bare (bid : string) (bnext : list string)
| Full (s : TransactionStep).

Definition entry_id (e : StepEntry) : string :=
  match e with Bare i _ => i | Full s => id s end.

Definition entry_next (e : StepEntry) : list string :=
  match e with Bare _ n => n | Full s => next s end.

Definition entry_depth (e : StepEntry) : option nat :=
  match e with Bare _ _ => None | Full s => Some (depth s) end.

(** Truthiness of [e.forwardResponse]. *)
Definition entry_forwardResponse (e : StepEntry) : bool :=
  match e with Bare _ _ => false | Full s => forwardResponse s end.

Definition asStep (e : option StepEntry) : option TransactionStep :=
  match e with Some (Full s) => Some s | _ => None end.

Record TransactionFlow := mkFlow {
  transactionModelId : string;
  flow_transactionId : string;
  flow_state : TransactionState;
  steps : Obj StepEntry;
  hasFailedSteps : bool;
  hasSkippedSteps : bool
}.

Definition set_flow_state (v : TransactionState) (f : TransactionFlow) : TransactionFlow :=
  mkFlow (transactionModelId f) (flow_transactionId f) v (steps f)
         (hasFailedSteps f) (hasSkippedSteps f).

Definition set_steps (v : Obj StepEntry) (f : TransactionFlow) : TransactionFlow :=
  mkFlow (transactionModelId f) (flow_transactionId f) (flow_state f) v
         (hasFailedSteps f) (hasSkippedSteps f).

Definition set_hasFailedSteps (v : bool) (f : TransactionFlow) : TransactionFlow :=
  mkFlow (transactionModelId f) (flow_transactionId f) (flow_state f) (steps f)
         v (hasSkippedSteps f).

Definition set_hasSkippedSteps (v : bool) (f : TransactionFlow) : TransactionFlow :=
  mkFlow (transactionModelId f) (flow_transactionId f) (flow_state f) (steps f)
         (hasFailedSteps f) v.

Record TransactionMetadata := mkMetadata {
  producer : string;
  reply_to_topic : string;
  idempotency_key : string;
  md_action : string;
  action_type : TransactionHandlerType;
  attempt : nat;
  timestamp : nat
}.

(** [transaction.payload]: the caller's properties and [_response]. *)
Record PayloadData := mkData {
  fields : list (string * Value);
  _response : option Value
}.

Record TransactionPayload := mkPayload {
  metadata : TransactionMetadata;
  data : option PayloadData
}.

Record TransactionError := mkError {
  err_action : option string;
  err_handlerType : TransactionHandlerType;
  err_error : Value
}.

Record DistributedTransaction := mkTransaction {
  transactionId : string;
  modelId : string;
  errors : list TransactionError;
  flow : TransactionFlow;
  payload : option PayloadData
}.

Definition set_errors (v : list TransactionError) (t : DistributedTransaction) :=
  mkTransaction (transactionId t) (modelId t) v (flow t) (payload t).

Definition set_flow (v : TransactionFlow) (t : DistributedTransaction) :=
  mkTransaction (transactionId t) (modelId t) (errors t) v (payload t).

Definition set_payload (v : option PayloadData) (t : DistributedTransaction) :=
  mkTransaction (transactionId t) (modelId t) (errors t) (flow t) v.

(** [new DistributedTransaction(flow, handler, payload)]; the handler is kept
    apart, see [Handler] below. *)
Definition newTransaction (f : TransactionFlow) (p : option PayloadData)
  : DistributedTransaction :=
  mkTransaction (flow_transactionId f) (transactionModelId f) [] f p.

Definition getState (t : DistributedTransaction) : TransactionState :=
  flow_state (flow t).

Definition isPartiallyCompleted (t : DistributedTransaction) : bool :=
  hasFailedSteps (flow t) || hasSkippedSteps (flow t).

Definition hasFinished (t : DistributedTransaction) : bool :=
  includes [DONE; REVERTED; FAILED] (getState t).

Definition addError (a : option string) (h : TransactionHandlerType) (e : Value)
           (t : DistributedTransaction) : DistributedTransaction :=
  set_errors (errors t ++ [mkError a h e]) t.

(** ** [TransactionOrchestrator]: topology ([buildSteps]) *)

Definition ROOT_STEP : string := "_root".
Definition DEFAULT_RETRIES : nat := 3.
Definition SEPARATOR : string := ":".

Definition policy_of (d : TransactionStepsDefinition) : StepPolicy :=
  match d with Last p | Single p _ | Many p _ => p end.

(** What sits in the [queue] of [buildSteps]: [obj] is a definition, or the
    array held by a [next] property. *)
Inductive QueueObj :=
| QDef (d : TransactionStepsDefinition)
| QArr (ds : list TransactionStepsDefinition).

Definition QueueItem : Type := QueueObj * list string.

Record BuildState := mkBuild {
  states : Obj StepEntry;
  actionNames : list string;
  existingSteps : Obj TransactionStep
}.

(** The object literal given to [Object.assign] when the step is new. *)
Definition freshStep (i : string) (level : list string) (p : StepPolicy) : TransactionStep :=
  mkStep false i p (mkPair IDLE NOT_STARTED) (mkPair IDLE DORMANT) []
         (length level - 1) None 0 0
         (match def_forwardResponse p with Some b => b | None => true end)
         None.

(** [states[parent].next?.push(id)]. A step copied from [existingSteps] by
    [Object.assign] shares its [next] array with the existing step, so the
    push is seen through [existingSteps[parent]] too; entries of [states] are
    made from [existingSteps] under the same key. *)
Definition pushNext (parent i : string) : M BuildState unit :=
  fun b =>
    match prop (states b) parent with
    | None => (Thrown TypeError, b)
    | Some (Bare r n) =>
        (Returned tt,
         mkBuild (assign parent (Bare r (n ++ [i])) (states b))
                 (actionNames b) (existingSteps b))
    | Some (Full s) =>
        let s' := set_next (next s ++ [i]) s in
        (Returned tt,
         mkBuild (assign parent (Full s') (states b)) (actionNames b)
                 (match prop (existingSteps b) parent with
                  | Some old =>
                      assign parent (set_next (next old ++ [i]) old) (existingSteps b)
                  | None => existingSteps b
                  end))
    end.

(** The branch [key === 'action'] of the loop body. *)
Definition registerAction (a : string) (p : StepPolicy) (level : list string)
  : M BuildState unit :=
  b <- get ;;
  if existsb (String.eqb a) (actionNames b)
  then throw (DuplicateAction (Some a))
  else
    modify (fun b => mkBuild (states b) (actionNames b ++ [a]) (existingSteps b)) ;;;
    let level' := level ++ [a] in
    let i := join "." level' in
    let parent := join "." level in
    pushNext parent i ;;;
    modify (fun b =>
      let st := match prop (existingSteps b) i with
                | Some old => old
                | None => freshStep i level' p
                end in
      mkBuild (assign i (Full st) (states b)) (actionNames b) (existingSteps b)).

(** One turn of [while (queue.length > 0)]: the item taken by
    [queue.shift()] is processed and the items it pushes are returned. The
    keys of a definition are visited in the order [action], [next]; the other
    properties are scalars and are skipped by the loop. [visitAction] is the
    turn of the inner loop for the key [action]; it returns the [level] array
    as the turn leaves it. *)
Definition visitAction (p : StepPolicy) (level : list string) : M BuildState (list string) :=
  match action p with
  | Some a => registerAction a p level ;;; ret (level ++ [a])
  | None => ret level
  end.

Definition visit (it : QueueItem) : M BuildState (list QueueItem) :=
  let '(obj, level) := it in
  match obj with
  | QArr ds => ret (map (fun d => (QDef d, level)) ds)
  | QDef d =>
      level' <- visitAction (policy_of d) level ;;
      match d with
      | Last _ => ret []
      | Single _ n => ret [(QDef n, level')]
      | Many _ ns => ret [(QArr ns, level')]
      end
  end.

Fixpoint buildLoop (fuel : nat) (queue : list QueueItem) : M BuildState unit :=
  match queue with
  | [] => ret tt
  | it :: rest =>
      match fuel with
      | 0 => fun b => (OutOfFuel, b)
      | S fuel' => pushed <- visit it ;; buildLoop fuel' (rest ++ pushed)
      end
  end.

(** The number of turns the loop takes on a queue. *)
Fixpoint weight (d : TransactionStepsDefinition) : nat :=
  match d with
  | Last _ => 1
  | Single _ n => 1 + weight n
  | Many _ ns => 2 + fold_right (fun d acc => weight d + acc) 0 ns
  end.

Definition itemWeight (it : QueueItem) : nat :=
  match fst it with
  | QDef d => weight d
  | QArr ds => 1 + fold_right (fun d acc => weight d + acc) 0 ds
  end.

Definition queueWeight (q : list QueueItem) : nat :=
  fold_right (fun it acc => itemWeight it + acc) 0 q.

Definition initialBuild (existing : option (Obj TransactionStep)) : BuildState :=
  mkBuild [(ROOT_STEP, Bare ROOT_STEP [])] []
          (match existing with Some e => e | None => [] end).

Definition buildSteps (flow : TransactionStepsDefinition)
           (existing : option (Obj TransactionStep)) : Outcome (Obj StepEntry) :=
  let queue := [(QDef flow, [ROOT_STEP])] in
  match buildLoop (queueWeight queue) queue (initialBuild existing) with
  | (Returned _, b) => Returned (states b)
  | (Thrown e, _) => Thrown e
  | (OutOfFuel, _) => OutOfFuel
  end.

(** ** [TransactionOrchestrator]: eligibility *)

(** [getPreviousStep]: the parent is found through the path held in [id]. *)
Definition parentId (i : string) : string :=
  join "." (removelast (split "."%char i)).

Definition getPreviousStep (f : TransactionFlow) (step : StepEntry) : option StepEntry :=
  prop (steps f) (parentId (entry_id step)).

(** [ids.map(sib => flow.steps[sib]).every(sib => allowed.includes(sel(sib).state))]:
    [every] stops at the first sibling that fails the test, and reading the
    state of a missing or bare entry throws. [None] is the [TypeError]. *)
Fixpoint everyState (f : TransactionFlow) (sel : TransactionStep -> StatePair)
         (allowed : list TransactionState) (ids : list string) : option bool :=
  match ids with
  | [] => Some true
  | k :: rest =>
      match asStep (prop (steps f) k) with
      | None => None
      | Some sib =>
          if includes allowed (state (sel sib))
          then everyState f sel allowed rest
          else Some false
      end
  end.

Definition canMoveBackward (f : TransactionFlow) (step : StepEntry) : option bool :=
  let allowed := [DONE; REVERTED; FAILED; DORMANT] in
  match entry_next step with
  | [] => Some true
  | siblings => everyState f compensate allowed siblings
  end.

Definition canMoveForward (f : TransactionFlow) (previousStep : StepEntry) : option bool :=
  let allowed := [DONE; FAILED; SKIPPED] in
  match getPreviousStep f previousStep with
  | None => None
  | Some parent =>
      match previousStep with
      | Bare _ _ => None
      | Full p =>
          if noWait (definition p) then Some true
          else everyState f invoke allowed (entry_next parent)
      end
  end.

Definition canContinue (f : TransactionFlow) (step : StepEntry) : option bool :=
  if state_eqb (flow_state f) COMPENSATING then canMoveBackward f step
  else
    match getPreviousStep f step with
    | None => None
    | Some previous =>
        if String.eqb (entry_id previous) ROOT_STEP then Some true
        else canMoveForward f previous
    end.

(** ** [TransactionOrchestrator]: the orderings *)

(** [Array.prototype.sort] is stable; a comparator result of [NaN] counts
    as [0]. *)
Fixpoint insertBy (cmp : string -> string -> Z) (x : string) (l : list string) : list string :=
  match l with
  | [] => [x]
  | y :: l' => if (cmp x y <=? 0)%Z then x :: y :: l' else y :: insertBy cmp x l'
  end.

Definition sortBy (cmp : string -> string -> Z) (l : list string) : list string :=
  fold_right (insertBy cmp) [] l.

(** [flow.steps[a].depth - flow.steps[b].depth]; the root has no depth and
    the difference is then [NaN]. *)
Definition invokeOrder (f : TransactionFlow) (a b : string) : Z :=
  match prop (steps f) a, prop (steps f) b with
  | Some (Full x), Some (Full y) => (Z.of_nat (depth x) - Z.of_nat (depth y))%Z
  | _, _ => 0%Z
  end.

(** [(flow.steps[b].depth || 0) - (flow.steps[a].depth || 0)] *)
Definition compensationOrder (f : TransactionFlow) (a b : string) : Z :=
  let d k := match prop (steps f) k with
             | Some (Full x) => Z.of_nat (depth x)
             | _ => 0%Z
             end in
  (d b - d a)%Z.

(** ** The running system *)

Record Orchestrator := mkOrchestrator {
  orch_id : string;
  orch_definition : TransactionStepsDefinition;
  invokeSteps : list string;
  compensateSteps : list string
}.

(** [new TransactionOrchestrator(id, definition)] *)
Definition newOrchestrator (i : string) (d : TransactionStepsDefinition) : Orchestrator :=
  mkOrchestrator i d [] [].

Record Call := mkCall {
  call_action : string;
  call_type : TransactionHandlerType;
  call_payload : TransactionPayload
}.

(** How the promise returned by the handler settles. *)
Inductive HandlerResult :=
| Resolved (r : option Value)
| Rejected (e : Value).

(** [transaction.handler]: its answer may depend on the calls it has
    received before. The handler returns a promise, and the promise settles:
    a handler that throws before it returns, or whose promise stays pending,
    is not modelled. *)
Definition Handler : Type :=
  list Call -> string -> TransactionHandlerType -> TransactionPayload -> HandlerResult.

(** The orchestrator ([this]), the transaction it drives, the calls the
    handler has received and the number of readings of the clock. *)
Record World := mkWorld {
  orchestrator : Orchestrator;
  transaction : DistributedTransaction;
  calls : list Call;
  clockReads : nat
}.

Definition set_orchestrator (v : Orchestrator) (w : World) : World :=
  mkWorld v (transaction w) (calls w) (clockReads w).

Definition set_transaction (v : DistributedTransaction) (w : World) : World :=
  mkWorld (orchestrator w) v (calls w) (clockReads w).

Definition getFlow (w : World) : TransactionFlow := flow (transaction w).

(** An assignment to [transaction.payload]. *)
Definition withPayload (p : option PayloadData) (w : World) : World :=
  set_transaction (set_payload p (transaction w)) w.

(** One more reading of the clock. *)
Definition tick (w : World) : World :=
  mkWorld (orchestrator w) (transaction w) (calls w) (S (clockReads w)).

(** One more call received by the handler. *)
Definition logCall (c : Call) (w : World) : World :=
  mkWorld (orchestrator w) (transaction w) (calls w ++ [c]) (clockReads w).

Definition modifyFlow (g : TransactionFlow -> TransactionFlow) : M World unit :=
  modify (fun w => set_transaction (set_flow (g (getFlow w)) (transaction w)) w).

Definition putStep (k : string) (s : TransactionStep) (w : World) : World :=
  set_transaction
    (set_flow (set_steps (assign k (Full s) (steps (getFlow w))) (getFlow w))
              (transaction w)) w.

(** Reading the step object held under key [k]. *)
Definition stepAt (k : string) : M World TransactionStep :=
  fun w =>
    match asStep (prop (steps (getFlow w)) k) with
    | Some s => (Returned s, w)
    | None => (Thrown TypeError, w)
    end.

(** Running a method of the step object held under key [k]. *)
Definition onStep {A} (k : string) (m : M TransactionStep A) : M World A :=
  fun w =>
    match asStep (prop (steps (getFlow w)) k) with
    | Some s => let '(r, s') := m s in (r, putStep k s' w)
    | None => (Thrown TypeError, w)
    end.

Fixpoint forEach {S A} (body : A -> M S unit) (l : list A) : M S unit :=
  match l with
  | [] => ret tt
  | x :: l' => body x ;;; forEach body l'
  end.

Definition getCompensationSteps : M World (list string) :=
  w <- get ;;
  match compensateSteps (orchestrator w) with
  | (_ :: _) as cached => ret cached
  | [] =>
      let sorted := sortBy (compensationOrder (getFlow w)) (keys (steps (getFlow w))) in
      modify (fun w => set_orchestrator
                (mkOrchestrator (orch_id (orchestrator w)) (orch_definition (orchestrator w))
                                (invokeSteps (orchestrator w)) sorted) w) ;;;
      ret sorted
  end.

Definition getInvokeSteps : M World (list string) :=
  w <- get ;;
  match invokeSteps (orchestrator w) with
  | (_ :: _) as cached => ret cached
  | [] =>
      let sorted := sortBy (invokeOrder (getFlow w)) (keys (steps (getFlow w))) in
      modify (fun w => set_orchestrator
                (mkOrchestrator (orch_id (orchestrator w)) (orch_definition (orchestrator w))
                                sorted (compensateSteps (orchestrator w))) w) ;;;
      ret sorted
  end.

(** The body of the loop of [flagStepsToRevert]. *)
Definition flagStep (k : string) : M World unit :=
  if String.eqb k ROOT_STEP then ret tt
  else
    onStep k (fun stepDef =>
      let curState := getStates stepDef in
      if (state_eqb (state curState) DONE
          || status_eqb (status curState) PERMANENT_FAILURE)
         && negb (noCompensation (definition stepDef))
      then changeState NOT_STARTED (beginCompensation stepDef)
      else (Returned tt, stepDef)).

Definition flagStepsToRevert : M World unit :=
  w <- get ;;
  forEach flagStep (keys (steps (getFlow w))).

(** ** The scheduling pass ([checkAllSteps]) *)

(** The local variables of the pass. *)
Record Scan := mkScan {
  hasSkipped : bool;
  hasIgnoredFailure : bool;
  hasFailed : bool;
  hasWaiting : bool;
  hasReverted : bool;
  completedSteps : nat;
  nextSteps : list string
}.

Definition emptyScan : Scan := mkScan false false false false false 0 [].

(** The classification made in the [else] branch of the loop. *)
Definition classify (stepDef : TransactionStep) (sc : Scan) : Scan :=
  let st := state (getStates stepDef) in
  let sc' := mkScan (hasSkipped sc) (hasIgnoredFailure sc) (hasFailed sc) (hasWaiting sc)
                    (hasReverted sc) (S (completedSteps sc)) (nextSteps sc) in
  if state_eqb st SKIPPED then
    mkScan true (hasIgnoredFailure sc') (hasFailed sc') (hasWaiting sc')
           (hasReverted sc') (completedSteps sc') (nextSteps sc')
  else if state_eqb st REVERTED then
    mkScan (hasSkipped sc') (hasIgnoredFailure sc') (hasFailed sc') (hasWaiting sc')
           true (completedSteps sc') (nextSteps sc')
  else if state_eqb st FAILED then
    if continueOnPermanentFailure (definition stepDef) then
      mkScan (hasSkipped sc') true (hasFailed sc') (hasWaiting sc')
             (hasReverted sc') (completedSteps sc') (nextSteps sc')
    else
      mkScan (hasSkipped sc') (hasIgnoredFailure sc') true (hasWaiting sc')
             (hasReverted sc') (completedSteps sc') (nextSteps sc')
  else sc'.

(** One turn of the loop over [allSteps]; [None] is a [TypeError]. *)
Definition scanStep (f : TransactionFlow) (sc : Scan) (step : string) : option Scan :=
  if String.eqb step ROOT_STEP then Some sc
  else
    match prop (steps f) step with
    | None => None
    | Some e =>
        match canContinue f e with
        | None => None
        | Some false => Some sc
        | Some true =>
            match e with
            | Bare _ _ => None
            | Full stepDef =>
                let curState := getStates stepDef in
                if status_eqb (status curState) WAITING then
                  Some (mkScan (hasSkipped sc) (hasIgnoredFailure sc) (hasFailed sc) true
                               (hasReverted sc) (completedSteps sc) (nextSteps sc))
                else if canInvoke (flow_state f) stepDef || canCompensate (flow_state f) stepDef
                then
                  Some (mkScan (hasSkipped sc) (hasIgnoredFailure sc) (hasFailed sc)
                               (hasWaiting sc) (hasReverted sc) (completedSteps sc)
                               (nextSteps sc ++ [step]))
                else Some (classify stepDef sc)
            end
        end
    end.

Fixpoint scan (f : TransactionFlow) (allSteps : list string) (sc : Scan) : option Scan :=
  match allSteps with
  | [] => Some sc
  | step :: rest =>
      match scanStep f sc step with
      | None => None
      | Some sc' => scan f rest sc'
      end
  end.

Record CheckResult := mkCheck {
  res_next : list string;
  total : Z;
  remaining : Z;
  completed : Z
}.

(** The [else if (completedSteps === totalSteps)] branch. *)
Definition finalize (sc : Scan) (f : TransactionFlow) : TransactionFlow :=
  let f1 := if hasSkipped sc then set_hasSkippedSteps true f else f in
  let f2 := if hasIgnoredFailure sc then set_hasFailedSteps true f1 else f1 in
  if hasFailed sc then set_flow_state FAILED f2
  else set_flow_state (if hasReverted sc then REVERTED else DONE) f2.

(** The test that sends the pass into compensation. *)
Definition mustCompensate (f : TransactionFlow) (sc : Scan) : bool :=
  state_eqb (flow_state f) WAITING_TO_COMPENSATE
  && Nat.eqb (length (nextSteps sc)) 0
  && negb (hasWaiting sc).

Definition totalSteps (allSteps : list string) : Z :=
  (Z.of_nat (length allSteps) - 1)%Z.

Fixpoint checkAllSteps (fuel : nat) : M World CheckResult :=
  match fuel with
  | 0 => fun w => (OutOfFuel, w)
  | S fuel' =>
      w0 <- get ;;
      allSteps <- (if state_eqb (flow_state (getFlow w0)) COMPENSATING
                   then getCompensationSteps else getInvokeSteps) ;;
      sc <- orTypeError (scan (getFlow w0) allSteps emptyScan) ;;
      if mustCompensate (getFlow w0) sc then
        modifyFlow (set_flow_state COMPENSATING) ;;;
        flagStepsToRevert ;;;
        checkAllSteps fuel'
      else
        (if (Z.of_nat (completedSteps sc) =? totalSteps allSteps)%Z
         then modifyFlow (finalize sc) else ret tt) ;;;
        ret (mkCheck (nextSteps sc) (totalSteps allSteps)
                     (totalSteps allSteps - Z.of_nat (completedSteps sc))%Z
                     (Z.of_nat (completedSteps sc)))
  end.

(** ** Step outcomes ([setStepSuccess], [setStepFailure]) *)

Definition setStepSuccess (step : string) (response : option Value) : M World unit :=
  s <- stepAt step ;;
  (if forwardResponse s
   then onStep step (modify (saveResponse response)) else ret tt) ;;;
  onStep step (changeStatus OK) ;;;
  s <- stepAt step ;;
  if isCompensating s
  then onStep step (changeState REVERTED)
  else onStep step (changeState DONE).

Definition handlerTypeOf (s : TransactionStep) : TransactionHandlerType :=
  if isCompensating s then COMPENSATE else INVOKE.

(** The parameter [maxRetries: number = this.DEFAULT_RETRIES]: the default
    stands for an argument that is [undefined]. *)
Definition retriesOf (maxRetries : option JsNumber) : JsNumber :=
  match maxRetries with Some m => m | None => numberOf DEFAULT_RETRIES end.

Definition setStepFailure (step : string) (error : Value) (maxRetries : option JsNumber)
  : M World unit :=
  onStep step (modify (fun s => set_failures (S (failures s)) s)) ;;;
  onStep step (changeStatus TEMPORARY_FAILURE) ;;;
  s <- stepAt step ;;
  if gtNumber (failures s) (retriesOf maxRetries) then
    onStep step (changeState FAILED) ;;;
    onStep step (changeStatus PERMANENT_FAILURE) ;;;
    s <- stepAt step ;;
    modify (fun w => set_transaction
              (addError (action (definition s)) (handlerTypeOf s) error (transaction w)) w) ;;;
    if negb (isCompensating s) then
      if continueOnPermanentFailure (definition s) then
        forEach (fun childStep => onStep childStep (changeState SKIPPED)) (next s)
      else modifyFlow (set_flow_state WAITING_TO_COMPENSATE)
    else ret tt
  else ret tt.

(** ** The execution driver ([executeNext], [resume]) *)

(** [TransactionOrchestrator.getKeyName(...params)] *)
Definition getKeyName (params : list string) : string := join SEPARATOR params.

(** The message of a thrown error, when it reaches [setStepFailure] as the
    [error] of a step. *)
Definition errorText (e : Error) : Value :=
  match e with
  | InvalidState _ _ => "Updating State is not allowed."
  | InvalidStatus _ _ => "Updating Status is not allowed."
  | TypeError => "TypeError"
  | DuplicateAction _ => "Action is already defined."
  | WrongModel _ _ => "TransactionModel cannot be orchestrated."
  | IllegalState _ => "IllegalState"
  | StepNotFound _ => "StepNotFound"
  end.

Section Driver.

(** [transaction.handler]; its promise is assumed to settle. *)
Variable handler : Handler.

(** [Date.now()]: the value of the n-th reading of the clock. *)
Variable dateNow : nat -> nat.

Definition now : M World nat :=
  fun w => (Returned (dateNow (clockReads w)), tick w).

Definition callHandler (a : string) (t : TransactionHandlerType) (p : TransactionPayload)
  : M World HandlerResult :=
  fun w => (Returned (handler (calls w) a t p), logCall (mkCall a t p) w).

(** The [payloadData] of a dispatch. It is the object [transaction.payload]
    itself when there is one, so the assignment to [_response] stays in the
    transaction. *)
Definition payloadDataFor (parent : StepEntry) : M World (option PayloadData) :=
  w <- get ;;
  match parent with
  | Full p =>
      if forwardResponse p then
        match payload (transaction w) with
        | Some d =>
            let d' := mkData (fields d) (getResponse p) in
            modify (fun w => set_transaction (set_payload (Some d') (transaction w)) w) ;;;
            ret (Some d')
        | None => ret (Some (mkData [] (getResponse p)))
        end
      else ret (payload (transaction w))
  | Bare _ _ => ret (payload (transaction w))
  end.

(** [step.definition.action + ''] *)
Definition actionText (s : TransactionStep) : string :=
  match action (definition s) with Some a => a | None => "undefined" end.

(** [step.definition.action!] as an element of a joined array. *)
Definition actionKey (s : TransactionStep) : string :=
  match action (definition s) with Some a => a | None => "" end.

(** The first part of the body of the loop over [nextSteps.next]: the
    attempt is recorded in the step, which starts its phase if it has not
    and waits for the answer. [s0] is the step as the loop finds it. *)
Definition startAttempt (step : string) (s0 : TransactionStep) : M World unit :=
  let curState := getStates s0 in
  t <- now ;;
  onStep step (modify (fun s => set_attempts (S (attempts s)) (set_lastAttempt (Some t) s))) ;;;
  w <- get ;;
  (if state_eqb (state curState) NOT_STARTED then
     if isCompensating s0 then onStep step (changeState COMPENSATING)
     else if state_eqb (flow_state (getFlow w)) INVOKING
          then onStep step (changeState INVOKING)
          else ret tt
   else ret tt) ;;;
  onStep step (changeStatus WAITING).

(** The second part: [new TransactionPayload(...)]. *)
Definition makePayload (s : TransactionStep) (type : TransactionHandlerType)
  : M World TransactionPayload :=
  w <- get ;;
  parent <- orTypeError (getPreviousStep (getFlow w) (Full s)) ;;
  payloadData <- payloadDataFor parent ;;
  ts <- now ;;
  w <- get ;;
  ret (mkPayload
         (mkMetadata (transactionModelId (getFlow w))
                     (getKeyName ["trans"; transactionModelId (getFlow w)])
                     (getKeyName [flow_transactionId (getFlow w); actionKey s;
                                  handlerType_str type])
                     (actionText s) type (attempts s) ts)
         payloadData).

(** The body of the loop over [nextSteps.next], up to the call of the
    handler. It returns the payload given to the handler and the way the
    promise settles. *)
Definition dispatch (step : string) : M World (TransactionPayload * HandlerResult) :=
  s0 <- stepAt step ;;
  let type := handlerTypeOf s0 in
  startAttempt step s0 ;;;
  s <- stepAt step ;;
  p <- makePayload s type ;;
  r <- callHandler (actionText s) type p ;;
  ret (p, r).

(** The loop over [nextSteps.next]. A throw leaves the loop, but the
    promises already in [execution] still settle. *)
Fixpoint dispatchAll (l : list string) (w : World)
  : list (string * HandlerResult) * option Error * World :=
  match l with
  | [] => ([], None, w)
  | step :: rest =>
      match dispatch step w with
      | (Returned (_, r), w') =>
          let '(launched, err, w'') := dispatchAll rest w' in
          ((step, r) :: launched, err, w'')
      | (Thrown e, w') => ([], Some e, w')
      | (OutOfFuel, w') => ([], None, w')
      end
  end.

Definition firstError (a b : option Error) : option Error :=
  match a with Some e => Some e | None => b end.

(** Running a callback for its effect; its error, if any, is kept. *)
Definition attemptUnit (m : M World unit) (w : World) : option Error * World :=
  match m w with
  | (Thrown e, w') => (Some e, w')
  | (_, w') => (None, w')
  end.

(** The [.then] callbacks of the promises that resolved, in the order of
    the dispatch. A throw of [setStepSuccess] rejects the promise that
    [.catch] listens to. *)
Fixpoint settleResolved (l : list (string * HandlerResult)) (w : World)
  : list (string * Value) * World :=
  match l with
  | [] => ([], w)
  | (step, Resolved r) :: rest =>
      match attemptUnit (setStepSuccess step r) w with
      | (Some e, w') =>
          let '(late, w'') := settleResolved rest w' in
          ((step, errorText e) :: late, w'')
      | (None, w') => settleResolved rest w'
      end
  | (_, Rejected _) :: rest => settleResolved rest w
  end.

Definition rejections (l : list (string * HandlerResult)) : list (string * Value) :=
  flat_map (fun x => match snd x with
                     | Rejected e => [(fst x, e)]
                     | Resolved _ => []
                     end) l.

(** The [.catch] callback of one promise. *)
Definition catchCallback (x : string * Value) : M World unit :=
  s <- stepAt (fst x) ;;
  setStepFailure (fst x) (snd x) (maxRetries (definition s)).

Fixpoint settleRejected (l : list (string * Value)) (w : World) : option Error * World :=
  match l with
  | [] => (None, w)
  | x :: rest =>
      let '(e1, w') := attemptUnit (catchCallback x) w in
      let '(e2, w'') := settleRejected rest w' in
      (firstError e1 e2, w'')
  end.

(** [await Promise.all(execution)], for promises of the handler that are
    settled when the loop ends: a rejection reaches [.catch] one turn of the
    job queue after a resolution reaches [.then], so the callbacks of the
    resolved promises run first, then those of the rejected ones, then those
    of the promises rejected by a throw of [setStepSuccess]; the first error
    rejects [Promise.all], and the other callbacks still run. *)
Definition settleAll (launched : list (string * HandlerResult)) (w : World)
  : option Error * World :=
  let '(late, w1) := settleResolved launched w in
  let '(e1, w2) := settleRejected (rejections launched) w1 in
  let '(e2, w3) := settleRejected late w2 in
  (firstError e1 e2, w3).

Fixpoint executeNext (fuel : nat) : M World unit :=
  match fuel with
  | 0 => fun w => (OutOfFuel, w)
  | S fuel' =>
      w0 <- get ;;
      if hasFinished (transaction w0) then ret tt
      else
        nextSteps <- checkAllSteps 2 ;;
        fun w1 =>
          let '(launched, e1, w2) := dispatchAll (res_next nextSteps) w1 in
          let '(e2, w3) := settleAll launched w2 in
          match firstError e1 e2 with
          | Some e => (Thrown e, w3)
          | None =>
              match res_next nextSteps with
              | [] => (Returned tt, w3)
              | _ :: _ => executeNext fuel' w3
              end
          end
  end.

Definition resume (fuel : nat) : M World unit :=
  w <- get ;;
  if negb (String.eqb (modelId (transaction w)) (orch_id (orchestrator w)))
  then throw (WrongModel (modelId (transaction w)) (orch_id (orchestrator w)))
  else if hasFinished (transaction w) then ret tt
  else
    (if state_eqb (flow_state (getFlow w)) NOT_STARTED
     then modifyFlow (set_flow_state INVOKING) else ret tt) ;;;
    executeNext fuel.

End Driver.

(** [createTransactionFlow] and [beginTransaction] *)
Definition createTransactionFlow (o : Orchestrator) (transactionId : string)
  : Outcome TransactionFlow :=
  match buildSteps (orch_definition o) None with
  | Returned st => Returned (mkFlow (orch_id o) transactionId NOT_STARTED st false false)
  | Thrown e => Thrown e
  | OutOfFuel => OutOfFuel
  end.

Definition beginTransaction (o : Orchestrator) (transactionId : string)
           (payload : option PayloadData) : Outcome DistributedTransaction :=
  match createTransactionFlow o transactionId with
  | Returned f => Returned (newTransaction f payload)
  | Thrown e => Thrown e
  | OutOfFuel => OutOfFuel
  end.

(** * Example data *)

(** A step that has completed its invoke phase. *)
Definition doneStep : TransactionStep :=
  mkStep false "_root.a" (mkPolicy (Some "a") None false false false None)
         (mkPair OK DONE) (mkPair IDLE DORMANT) [] 1 (Some 0) 1 0 true None.


Definition policy (a : string) : StepPolicy :=
  mkPolicy (Some a) None false false false None.

Definition noPolicy : StepPolicy := mkPolicy None None false false false None.

(** The definition [{ next: { action: 'A', next: { action: 'B' } } }]. *)
Definition flowAB : TransactionStepsDefinition :=
  Single noPolicy (Single (policy "A") (Last (policy "B"))).

(** [new TransactionOrchestrator(model, d)] followed by
    [beginTransaction(txid, handler)], with no call made and the clock not
    yet read. *)
Definition worldOf (model : string) (d : TransactionStepsDefinition) (txid : string) : World :=
  let o := newOrchestrator model d in
  mkWorld o
          (match beginTransaction o txid None with
           | Returned t => t
           | _ => newTransaction (mkFlow model txid NOT_STARTED [] false false) None
           end)
          [] 0.

Definition withFlowState (st : TransactionState) (w : World) : World :=
  set_transaction (set_flow (set_flow_state st (getFlow w)) (transaction w)) w.

Definition worldAB : World := Eval vm_compute in worldOf "model" flowAB "tx".

(** The same after [resume] has moved the flow to INVOKING. *)
Definition worldAB_started : World := Eval vm_compute in withFlowState INVOKING worldAB.

(** * The eligibility rules as the specification words them *)





(** * The effect of a dispatch on the step itself

    What the loop body of [executeNext] does to the step it launches, when
    the clock reads [t] and the flow is in [flowState]. *)
Definition launched (t : nat) (flowState : TransactionState) (s0 : TransactionStep)
  : TransactionStep :=
  let s1 := set_attempts (S (attempts s0)) (set_lastAttempt (Some t) s0) in
  let s2 :=
    if state_eqb (state (getStates s0)) NOT_STARTED then
      if isCompensating s0
      then setStates (mkPair (status (getStates s1)) COMPENSATING) s1
      else if state_eqb flowState INVOKING
           then setStates (mkPair (status (getStates s1)) INVOKING) s1
           else s1
    else s1 in
  setStates (mkPair WAITING (state (getStates s2))) s2.

(** * The scheduling pass, as the specification words it *)

(** The ordering a pass iterates: the cached one, if any. *)
Definition invokeStepsOf (w : World) : list string :=
  match invokeSteps (orchestrator w) with
  | [] => sortBy (invokeOrder (getFlow w)) (keys (steps (getFlow w)))
  | cached => cached
  end.

Definition compensationStepsOf (w : World) : list string :=
  match compensateSteps (orchestrator w) with
  | [] => sortBy (compensationOrder (getFlow w)) (keys (steps (getFlow w)))
  | cached => cached
  end.

Definition allStepsOf (w : World) : list string :=
  if state_eqb (flow_state (getFlow w)) COMPENSATING
  then compensationStepsOf w else invokeStepsOf w.

(** A step that the pass counts in [completedSteps]: it can continue, it is
    not waiting and it can be neither invoked nor compensated. *)
Definition countedCompleted (f : TransactionFlow) (k : string) (s : TransactionStep) : Prop :=
  k <> ROOT_STEP
  /\ prop (steps f) k = Some (Full s)
  /\ canContinue f (Full s) = Some true
  /\ status (getStates s) <> WAITING
  /\ canInvoke (flow_state f) s = false
  /\ canCompensate (flow_state f) s = false.

(** "any step ended in a fatal (non-ignored) permanent failure" *)
Definition fatalFailure (f : TransactionFlow) (allSteps : list string) : Prop :=
  exists k s, In k allSteps /\ countedCompleted f k s
              /\ state (getStates s) = FAILED
              /\ continueOnPermanentFailure (definition s) = false.

(** "an ignored permanent failure occurred" *)
Definition ignoredFailure (f : TransactionFlow) (allSteps : list string) : Prop :=
  exists k s, In k allSteps /\ countedCompleted f k s
              /\ state (getStates s) = FAILED
              /\ continueOnPermanentFailure (definition s) = true.

(** "any step was reverted" *)
Definition someReverted (f : TransactionFlow) (allSteps : list string) : Prop :=
  exists k s, In k allSteps /\ countedCompleted f k s /\ state (getStates s) = REVERTED.

(** "a step was skipped" *)
Definition someSkipped (f : TransactionFlow) (allSteps : list string) : Prop :=
  exists k s, In k allSteps /\ countedCompleted f k s /\ state (getStates s) = SKIPPED.

(** The definition [{ next: { action: 'A' } }], and a handler whose promise
    is always rejected. *)
Definition flowA : TransactionStepsDefinition := Single noPolicy (Last (policy "A")).

Definition alwaysReject : Handler := fun _ _ _ _ => Rejected "Error".

(** The transaction of [flowA] after the four failed attempts of A: the flow
    waits to compensate. *)
Definition worldA_failed : World :=
  Eval vm_compute in
    snd (resume alwaysReject (fun n => n) 4 (worldOf "model" flowA "tx")).

(** The same at the end of the run: the compensation of A has failed four
    times as well, and the flow is FAILED. *)
Definition worldA_exhausted : World :=
  Eval vm_compute in
    snd (resume alwaysReject (fun n => n) 20 (worldOf "model" flowA "tx")).

(** Between the two: the first compensation of A has failed, the step
    compensates and its invocation is closed. *)
Definition worldA_compensating : World :=
  Eval vm_compute in
    snd (resume alwaysReject (fun n => n) 5 (worldOf "model" flowA "tx")).

(** The same definition with [maxRetries: 1], and its transaction at the end
    of the run with that handler: two failed invocations, two failed
    compensations. *)
Definition flowA_retryOnce : TransactionStepsDefinition :=
  Single noPolicy (Last (mkPolicy (Some "A") (Some (numberOf 1)) false false false None)).

Definition worldA_retriedOnce : World :=
  Eval vm_compute in
    snd (resume alwaysReject (fun n => n) 20 (worldOf "model" flowA_retryOnce "tx")).

(** The same definition with [maxRetries: -1], and with [maxRetries: NaN]. *)
Definition flowA_negative : TransactionStepsDefinition :=
  Single noPolicy
    (Last (mkPolicy (Some "A") (Some (Finite (inject_Z (-1)))) false false false None)).

Definition flowA_unlimited : TransactionStepsDefinition :=
  Single noPolicy (Last (mkPolicy (Some "A") (Some NaN) false false false None)).

Definition worldA_negative : World :=
  Eval vm_compute in
    snd (resume alwaysReject (fun n => n) 20 (worldOf "model" flowA_negative "tx")).

Definition alwaysResolve : Handler := fun _ _ _ _ => Resolved None.

(** The step held under a key of the flow of a world. *)
Definition stepOf (w : World) (k : string) : TransactionStep :=
  match asStep (prop (steps (getFlow w)) k) with
  | Some s => s
  | None => doneStep
  end.

(** The transaction of [flowA] after the successful invocation of A and
    before the pass that follows it. *)
Definition worldA_done : World :=
  Eval vm_compute in
    snd (resume alwaysResolve (fun n => n) 1 (worldOf "model" flowA "tx")).

(** * Descendants *)

(** "every step reachable through [next] edges, transitively" *)
Inductive descendant (f : TransactionFlow) : string -> string -> Prop :=
| desc_child (k c : string) (e : StepEntry) :
    prop (steps f) k = Some e -> In c (entry_next e) -> descendant f k c
| desc_trans (k c d : string) :
    descendant f k c -> descendant f c d -> descendant f k d.

(** The definition [A -> B -> C] where A continues on permanent failure and
    is not retried. *)
Definition flowABC_continue : TransactionStepsDefinition :=
  Single noPolicy
    (Single (mkPolicy (Some "A") (Some (numberOf 0)) true false false None)
       (Single (policy "B") (Last (policy "C")))).

(** A handler for it: every call for A is rejected, every other call
    resolves. *)
Definition handlerA_fails : Handler :=
  fun _ a _ _ => if String.eqb a "A" then Rejected "Error" else Resolved None.

(** Its transaction once A has been dispatched. *)
Definition worldABC_dispatched : World :=
  Eval vm_compute in
    snd (dispatch alwaysReject (fun n => n) "_root.A"
           (withFlowState INVOKING (worldOf "model" flowABC_continue "tx"))).

(** * The scenario "retry, then compensate" *)

(** A handler for [flowAB]: the invocation of B always throws [errB], every
    other call resolves with [resp]. *)
Definition handlerAB (resp : option Value) (errB : Value) : Handler :=
  fun _ a t _ =>
    if String.eqb a "B" && handlerType_eqb t INVOKE then Rejected errB else Resolved resp.

(** The number of calls of the handler for an action and a phase. *)
Definition countCalls (a : string) (t : TransactionHandlerType) (log : list Call) : nat :=
  length (filter (fun c => String.eqb (call_action c) a && handlerType_eqb (call_type c) t) log).

(** * Rehydration *)

(** A step as a checkpoint taken under an older definition of A (nine
    retries) holds it, after one successful invocation. *)
Definition checkpointedA : TransactionStep :=
  mkStep false "_root.A" (mkPolicy (Some "A") (Some (numberOf 9)) false false false None)
         (mkPair OK DONE) (mkPair IDLE DORMANT) [] 1 (Some 5) 1 0 true (Some "result").

(** The invariant of the loop of [buildSteps] with respect to the table
    [existing0] it was given: the existing steps only grow their [next], and
    a step of [states] made from an existing step is that step. *)
Definition buildInv (existing0 : Obj TransactionStep) (b : BuildState) : Prop :=
  (forall k old, prop existing0 k = Some old ->
     exists added, prop (existingSteps b) k = Some (set_next (next old ++ added) old))
  /\ (forall k, prop existing0 k = None -> prop (existingSteps b) k = None)
  /\ (forall k s' old, prop (states b) k = Some (Full s') -> prop existing0 k = Some old ->
        prop (existingSteps b) k = Some s').

(** * External completion ([registerStepSuccess]) *)

(** The storage of checkpoints, keyed by transaction id, with the
    orchestrator, the calls received by the handler and the clock. *)
Record System := mkSystem {
  storage : Obj DistributedTransaction;
  sys_orchestrator : Orchestrator;
  sys_calls : list Call;
  sys_clockReads : nat
}.

(** The phase named by the last part of an idempotency key. *)
Definition phaseOf (s : string) : option TransactionHandlerType :=
  if String.eqb s "invoke" then Some INVOKE
  else if String.eqb s "compensate" then Some COMPENSATE
  else None.

(** The step of a flow that carries an action, with its key. *)
Fixpoint findByAction (o : Obj StepEntry) (a : string) : option (string * TransactionStep) :=
  match o with
  | [] => None
  | (k, Full s) :: o' =>
      match action (definition s) with
      | Some a' => if String.eqb a' a then Some (k, s) else findByAction o' a
      | None => findByAction o' a
      end
  | (_, Bare _ _) :: o' => findByAction o' a
  end.

(** The status of a step in a phase. *)
Definition phaseStatus (t : TransactionHandlerType) (s : TransactionStep)
  : TransactionStepStatus :=
  match t with
  | INVOKE => status (invoke s)
  | COMPENSATE => status (compensate s)
  end.

(** "the step has already transitioned", for the phase of a key: the step
    has waited in that phase and has left WAITING, for OK or for a failure. *)
Definition alreadyTransitioned (t : TransactionHandlerType) (s : TransactionStep) : bool :=
  match phaseStatus t s with
  | OK | TEMPORARY_FAILURE | PERMANENT_FAILURE => true
  | IDLE | WAITING => false
  end.

Section ExternalCompletion.

Variable handler : Handler.
Variable dateNow : nat -> nat.

(** Modelled from the spec: [TransactionOrchestrator.registerStepSuccess],
    which [LocalWorkflow.registerStepSuccess] calls, is missing from the
    sources. Section 4.6 of the specification: "load the checkpoint keyed by
    the embedded transactionId, locate the step by action, require its status
    to be WAITING and its phase to match the key's phase; if so, apply the
    success rules and continue [executeNext]. If the step is not found, not
    WAITING, or the phase mismatches, fail with StepNotFound or IllegalState
    respectively", and then: "These paths must be idempotent: a duplicate
    call with the same key after the step has already transitioned must be a
    no-op (returning the current Transaction)". The key is
    [transactionId:action:phase], and the sequence is load, mutate,
    checkpoint (section 5). Both sentences speak of a step that is not
    WAITING; the second one is taken for the calls it names, those made once
    the step has left WAITING in the phase of the key ([alreadyTransitioned]),
    and the first one for the others, made for a phase in which the step has
    not waited yet. *)
Definition orchestrator_registerStepSuccess (fuel : nat) (idempotencyKey : string)
           (response : option Value) : M System DistributedTransaction :=
  fun sys =>
    match split ":"%char idempotencyKey with
    | [txid; a; ph] =>
        match prop (storage sys) txid with
        | None => (Thrown (StepNotFound idempotencyKey), sys)
        | Some tx =>
            match findByAction (steps (flow tx)) a with
            | None => (Thrown (StepNotFound idempotencyKey), sys)
            | Some (k, s) =>
                if status_eqb (status (getStates s)) WAITING
                   && match phaseOf ph with
                      | Some t => handlerType_eqb (handlerTypeOf s) t
                      | None => false
                      end
                then
                  let w := mkWorld (sys_orchestrator sys) tx (sys_calls sys)
                                   (sys_clockReads sys) in
                  let '(r, w') :=
                    (setStepSuccess k response ;;; executeNext handler dateNow fuel) w in
                  let sys' := mkSystem (assign txid (transaction w') (storage sys))
                                       (orchestrator w') (calls w') (clockReads w') in
                  match r with
                  | Returned _ => (Returned (transaction w'), sys')
                  | Thrown e => (Thrown e, sys')
                  | OutOfFuel => (OutOfFuel, sys')
                  end
                else if match phaseOf ph with
                        | Some t => alreadyTransitioned t s
                        | None => false
                        end
                then (Returned tx, sys)
                else (Thrown (IllegalState (status (getStates s))), sys)
            end
        end
    | _ => (Thrown (StepNotFound idempotencyKey), sys)
    end.

(** [LocalWorkflow.registerStepSuccess]: the call of the orchestrator between
    the registration and the removal of the event listeners, which are not
    modelled. *)
Definition registerStepSuccess (fuel : nat) (idempotencyKey : string)
           (response : option Value) : M System DistributedTransaction :=
  orchestrator_registerStepSuccess fuel idempotencyKey response.

End ExternalCompletion.

(** A checkpoint of the transaction of [flowA] in which A, dispatched, waits
    for its completion from outside. *)
Definition systemA_waiting : System :=
  Eval vm_compute in
    let w := snd (dispatch alwaysResolve (fun n => n) "_root.A"
                    (withFlowState INVOKING (worldOf "model" flowA "tx"))) in
    mkSystem [("tx", transaction w)] (orchestrator w) (calls w) (clockReads w).

(** The same system after the call [registerStepSuccess("tx:A:invoke", "done")]. *)
Definition systemA_completed : System :=
  Eval vm_compute in
    snd (registerStepSuccess alwaysResolve (fun n => n) 5 "tx:A:invoke" (Some "done")
                             systemA_waiting).

(** The transaction stored under an id. *)
Definition storedTx (sys : System) (txid : string) : DistributedTransaction :=
  match prop (storage sys) txid with
  | Some tx => tx
  | None => newTransaction (mkFlow "" txid NOT_STARTED [] false false) None
  end.

(** The step of a transaction that carries an action. *)
Definition stepByAction (tx : DistributedTransaction) (a : string) : TransactionStep :=
  match findByAction (steps (flow tx)) a with
  | Some (_, s) => s
  | None => doneStep
  end.

(** * The retry invariant *)

(** The state of a step that has been dispatched in its phase. *)
Definition phaseState (s : TransactionStep) : TransactionState :=
  if isCompensating s then COMPENSATING else INVOKING.

(** The limit that a [maxRetries] puts on the failures of a phase: the
    failure that follows [limit] failures is the permanent one. The counter
    is compared after its increment, so a finite [maxRetries] acts as its
    integer part and a negative one as 0; no count is greater than [NaN] or
    [Infinity], which put no limit. Unset, [maxRetries] is
    [DEFAULT_RETRIES]. *)
Definition retryLimit (m : option JsNumber) : option nat :=
  match m with
  | None => Some DEFAULT_RETRIES
  | Some (Finite q) => Some (Z.to_nat (Qfloor q))
  | Some NegInfinity => Some 0
  | Some NaN => None
  | Some PosInfinity => None
  end.

(** The limit of a step, 0 standing for none. *)
Definition retries (s : TransactionStep) : nat :=
  match retryLimit (maxRetries (definition s)) with
  | Some r => r
  | None => 0
  end.

(** [definition.maxRetries] of a step, 3 when it is unset: the number its
    counters are compared with. *)
Definition allowedRetries (s : TransactionStep) : JsNumber :=
  match maxRetries (definition s) with
  | Some m => m
  | None => numberOf 3
  end.

(** A step whose failures are limited. *)
Definition boundedRetries (s : TransactionStep) : Prop :=
  retryLimit (maxRetries (definition s)) <> None.

(** [f] failures are within the limit of the step; [f] failures are one more
    than its limit. *)
Definition within (s : TransactionStep) (f : nat) : Prop :=
  match retryLimit (maxRetries (definition s)) with
  | Some r => f <= r
  | None => True
  end.

Definition justOver (s : TransactionStep) (f : nat) : Prop :=
  match retryLimit (maxRetries (definition s)) with
  | Some r => f = S r
  | None => False
  end.

(** What the counters of a step are, status by status, in its active phase;
    the compensate phase of a step that has not begun compensation is idle. *)
Definition retryInv (s : TransactionStep) : Prop :=
  (stepFailed s = false -> status (compensate s) = IDLE)
  /\ match status (getStates s) with
     | IDLE => failures s = 0 /\ attempts s = 0
     | WAITING =>
         within s (failures s) /\ attempts s = S (failures s)
         /\ state (getStates s) = phaseState s
     | TEMPORARY_FAILURE =>
         within s (failures s) /\ attempts s = failures s
         /\ state (getStates s) = phaseState s
     | PERMANENT_FAILURE =>
         justOver s (failures s) /\ attempts s = failures s
         /\ state (getStates s) = FAILED
     | OK =>
         within s (failures s) /\ attempts s = S (failures s)
         /\ (state (getStates s) = DONE \/ state (getStates s) = REVERTED)
     end.

(** Every step of the flow satisfies the retry invariant. *)
Definition allRetryInv (w : World) : Prop :=
  forall k s, asStep (prop (steps (getFlow w)) k) = Some s -> retryInv s.

(** A cached ordering, if any, lists the root and has no duplicate. *)
Definition cacheOk (cache : list string) : Prop :=
  cache = [] \/ (NoDup cache /\ In ROOT_STEP cache).

(** The keys of [flow.steps] are distinct, as those of an object are, and
    the root is one of them. *)
Definition wellFormed (w : World) : Prop :=
  NoDup (keys (steps (getFlow w)))
  /\ In ROOT_STEP (keys (steps (getFlow w)))
  /\ cacheOk (invokeSteps (orchestrator w))
  /\ cacheOk (compensateSteps (orchestrator w)).

(** A step that a pass may dispatch when the flow is in [flowState]. *)
Definition ready (flowState : TransactionState) (s : TransactionStep) : Prop :=
  status (getStates s) = TEMPORARY_FAILURE
  \/ (state (getStates s) = NOT_STARTED
      /\ (isCompensating s = true \/ flowState = INVOKING)).

(** The step of a successful settlement, and of a failed one. *)
Definition succeeded (response : option Value) (s : TransactionStep) : TransactionStep :=
  let s1 := if forwardResponse s then saveResponse response s else s in
  setStates (mkPair OK (if isCompensating s then REVERTED else DONE)) s1.

Definition failed (s : TransactionStep) : TransactionStep :=
  let s1 := set_failures (S (failures s)) s in
  if gtNumber (failures s1) (retriesOf (maxRetries (definition s)))
  then setStates (mkPair PERMANENT_FAILURE FAILED) s1
  else setStates (mkPair TEMPORARY_FAILURE (state (getStates s))) s1.

(** A child skipped by the permanent failure of its parent. *)
Definition skipped (s : TransactionStep) : TransactionStep :=
  setStates (mkPair (status (getStates s)) SKIPPED) s.

(** The entry under [k] is the same in both worlds, or it was a step not yet
    started that has been skipped. *)
Definition sameOrSkipped (w w' : World) (k : string) : Prop :=
  prop (steps (getFlow w')) k = prop (steps (getFlow w)) k
  \/ exists s, prop (steps (getFlow w)) k = Some (Full s)
               /\ state (getStates s) = NOT_STARTED
               /\ prop (steps (getFlow w')) k = Some (Full (skipped s)).

(** The orchestrator and the keys of the steps are the same in both worlds. *)
Definition sameShape (w w' : World) : Prop :=
  orchestrator w' = orchestrator w
  /\ keys (steps (getFlow w')) = keys (steps (getFlow w)).

(** A step that waits for the settlement of its promise. *)
Definition pendingAt (w : World) (k : string) : Prop :=
  exists s, asStep (prop (steps (getFlow w)) k) = Some s
            /\ status (getStates s) = WAITING.

(** A step that the next dispatch may launch. *)
Definition readyAt (w : World) (k : string) : Prop :=
  exists s, asStep (prop (steps (getFlow w)) k) = Some s
            /\ ready (flow_state (getFlow w)) s
            /\ status (getStates s) <> WAITING.

(** The keys of the launched steps whose promise resolved. *)
Definition resolvedKeys (l : list (string * HandlerResult)) : list string :=
  flat_map (fun x => match snd x with
                     | Resolved _ => [fst x]
                     | Rejected _ => []
                     end) l.

(** The number of keys of an ordering other than the root. *)
Definition nonRoot (l : list string) : nat :=
  length (filter (fun k => negb (String.eqb k ROOT_STEP)) l).


(** The same, as a test. *)
Definition allBoundedb (w : World) : bool :=
  forallb (fun k => match asStep (prop (steps (getFlow w)) k) with
                    | Some s => match retryLimit (maxRetries (definition s)) with
                                | Some _ => true
                                | None => false
                                end
                    | None => true
                    end) (keys (steps (getFlow w))).

(** The invariant of the driver. *)
Definition driverInv (w : World) : Prop := wellFormed w /\ allRetryInv w.

(** The invariant of the loop of [buildSteps] when no existing step is
    given: the keys stay distinct, the root stays, and every step satisfies
    the retry invariant. *)
Definition freshInv (b : BuildState) : Prop :=
  existingSteps b = []
  /\ NoDup (keys (states b))
  /\ In ROOT_STEP (keys (states b))
  /\ forall k s, prop (states b) k = Some (Full s) -> retryInv s.

(** * Keys and paths *)

(** No character of [s] is [sep]. *)
Fixpoint freeOf (sep : ascii) (s : string) : bool :=
  match s with
  | EmptyString => true
  | String c r => negb (Ascii.eqb c sep) && freeOf sep r
  end.

(** ** [LocalWorkflow.registerEventCallbacks]

    The transaction id that the event wrappers compare with: that of the
    [transaction] when one is given, otherwise the second part of the
    idempotency key ([const [, trxId] = idempotencyKey.split(':')]), when the
    key is a non-empty string. [None] is [undefined]. *)
Definition callbackTransactionId (transaction : option DistributedTransaction)
           (idempotencyKey : option string) : option string :=
  match transaction with
  | Some t => Some (transactionId t)
  | None =>
      match idempotencyKey with
      | Some key =>
          if String.eqb key "" then None else nth_error (split ":"%char key) 1
      | None => None
      end
  end.

(** The test of a wrapper: the subscriber's handler is called for an event of
    [transaction] unless
    [transaction.transactionId !== transactionId || transaction.modelId !== modelId]. *)
Definition callbackAccepts (orchestratorId : string) (txid : option string)
           (transaction : DistributedTransaction) : bool :=
  negb (negb (match txid with
              | Some i => String.eqb (transactionId transaction) i
              | None => false
              end)
        || negb (String.eqb (modelId transaction) orchestratorId)).

(** * The definition tree seen by [buildSteps] *)

Definition optAction (p : StepPolicy) : list string :=
  match action p with Some a => [a] | None => [] end.

(** The action names of a definition, each as often as it is written. *)
Fixpoint allActions (d : TransactionStepsDefinition) : list string :=
  match d with
  | Last p => optAction p
  | Single p n => optAction p ++ allActions n
  | Many p ns => optAction p ++ flat_map allActions ns
  end.

(** The action names still to be met in an item of the queue, and in the
    queue. *)
Definition itemActions (it : QueueItem) : list string :=
  match fst it with
  | QDef d => allActions d
  | QArr ds => flat_map allActions ds
  end.

Definition pendingActions (q : list QueueItem) : list string := flat_map itemActions q.

(** The items that the visit of a definition pushes, for the [level] it
    leaves. *)
Definition childItems (d : TransactionStepsDefinition) (level : list string)
  : list QueueItem :=
  match d with
  | Last _ => []
  | Single _ n => [(QDef n, level)]
  | Many _ ns => [(QArr ns, level)]
  end.

(** An entry after [next.push(i)]. *)
Definition pushEntry (e : StepEntry) (i : string) : StepEntry :=
  match e with
  | Bare r n => Bare r (n ++ [i])
  | Full s => Full (set_next (next s ++ [i]) s)
  end.

(** A step that nothing has touched since it was built. *)
Definition pristine (s : TransactionStep) : Prop :=
  stepFailed s = false
  /\ invoke s = mkPair IDLE NOT_STARTED
  /\ compensate s = mkPair IDLE DORMANT
  /\ attempts s = 0 /\ failures s = 0
  /\ lastAttempt s = None /\ response s = None.

(** The invariant of the loop of [buildSteps] for the action names: those
    met and those still to be met are the names of the definition, no name
    has been met twice, and the level of every item of the queue is the path
    of an entry of the table. *)
Definition namesInv (total : list string) (b : BuildState) (q : list QueueItem) : Prop :=
  Permutation (actionNames b ++ pendingActions q) total
  /\ NoDup (actionNames b)
  /\ forall obj level, In (obj, level) q -> prop (states b) (join "." level) <> None.

(** The invariant of the loop of [buildSteps] for a build from scratch: the
    root is the only bare entry; every other entry is an untouched step, named
    by its key, that carries an action met so far; every id of a [next] list
    is the key of a step; and the level of every item of the queue starts at
    the root and is the path of an entry. *)
Definition tableInv (b : BuildState) (q : list QueueItem) : Prop :=
  existingSteps b = []
  /\ (exists n, prop (states b) ROOT_STEP = Some (Bare ROOT_STEP n))
  /\ (forall k r n, prop (states b) k = Some (Bare r n) -> k = ROOT_STEP)
  /\ (forall k s, prop (states b) k = Some (Full s) ->
        id s = k /\ pristine s
        /\ exists a, action (definition s) = Some a /\ In a (actionNames b))
  /\ (forall k e c, prop (states b) k = Some e -> In c (entry_next e) ->
        exists s, prop (states b) c = Some (Full s))
  /\ (forall obj level, In (obj, level) q ->
        (exists rest, level = ROOT_STEP :: rest)
        /\ prop (states b) (join "." level) <> None).

(** A name without dot. *)
Definition dotFree (s : string) : Prop := freeOf "."%char s = true.

(** The invariant of the loop of [buildSteps] for a build from scratch of a
    definition whose action names have no dot: there is one key for the root
    and one for each action met; the key of a step is its path, which ends
    with its action, its depth is the length of the path of its parent, and
    its parent lists it. *)
Definition treeInv (b : BuildState) (q : list QueueItem) : Prop :=
  length (keys (states b)) = S (length (actionNames b))
  /\ (forall k s, prop (states b) k = Some (Full s) ->
        exists level a,
          k = join "." (level ++ [a])
          /\ level <> []
          /\ Forall dotFree (level ++ [a])
          /\ In a (actionNames b)
          /\ depth s = length level
          /\ exists e, prop (states b) (join "." level) = Some e /\ In k (entry_next e))
  /\ (forall obj level, In (obj, level) q -> Forall dotFree level)
  /\ Forall dotFree (pendingActions q).

(** * The orderings, as the passes rely on them *)

(** [flow.steps[k].depth || 0] *)
Definition depthOr0 (f : TransactionFlow) (k : string) : nat :=
  match prop (steps f) k with
  | Some (Full x) => depth x
  | _ => 0
  end.

(** [a] may come before [b] in the order of compensation. *)
Definition deeperFirst (f : TransactionFlow) (a b : string) : Prop :=
  depthOr0 f b <= depthOr0 f a.

(** * The attempts a run has left *)

(** The dispatches a step may still get: what is left of its [maxRetries + 1]
    attempts in its phase, and as many again for the compensation it has not
    begun. *)
Definition budget (s : TransactionStep) : nat :=
  (S (retries s) - attempts s) + (if isCompensating s then 0 else S (retries s)).




(** * What a run leaves as it is *)

(** What the engine never changes in a step (its place in the tree and its
    policy) and what it changes one way only: a step that compensates goes on
    compensating and the record of its invocation is closed; a step with
    [noCompensation] never starts compensating; the response is replaced only
    in a step with [forwardResponse]; the attempts it has left do not grow. *)
Definition stepFrame (s s' : TransactionStep) : Prop :=
  id s' = id s /\ definition s' = definition s /\ next s' = next s
  /\ depth s' = depth s /\ forwardResponse s' = forwardResponse s
  /\ (stepFailed s = true -> stepFailed s' = true /\ invoke s' = invoke s)
  /\ (noCompensation (definition s) = true -> stepFailed s' = stepFailed s)
  /\ (forwardResponse s = false -> response s' = response s)
  /\ budget s' <= budget s.

Definition entryFrame (e e' : option StepEntry) : Prop :=
  match e with
  | Some (Full s) => exists s', e' = Some (Full s') /\ stepFrame s s'
  | _ => e' = e
  end.

(** The same for the whole system: the keys of the steps, the identities of
    the transaction, of the flow and of the orchestrator and the caller's
    fields of the payload stay; the calls of the handler and the errors are
    only added to; the clock is only read. *)
Definition worldFrame (w w' : World) : Prop :=
  keys (steps (getFlow w')) = keys (steps (getFlow w))
  /\ (forall k, entryFrame (prop (steps (getFlow w)) k) (prop (steps (getFlow w')) k))
  /\ (exists added, calls w' = calls w ++ added)
  /\ (exists added, errors (transaction w') = errors (transaction w) ++ added)
  /\ clockReads w <= clockReads w'
  /\ option_map fields (payload (transaction w'))
     = option_map fields (payload (transaction w))
  /\ (transactionId (transaction w') = transactionId (transaction w)
      /\ modelId (transaction w') = modelId (transaction w)
      /\ transactionModelId (getFlow w') = transactionModelId (getFlow w)
      /\ flow_transactionId (getFlow w') = flow_transactionId (getFlow w))
  /\ (orch_id (orchestrator w') = orch_id (orchestrator w)
      /\ orch_definition (orchestrator w') = orch_definition (orchestrator w)).

(** * Starting the compensation *)

(** The test of the loop of [flagStepsToRevert]: the step is DONE or has
    failed for good, and its definition does not have [noCompensation]. *)
Definition toRevert (s : TransactionStep) : bool :=
  (state_eqb (state (getStates s)) DONE
   || status_eqb (status (getStates s)) PERMANENT_FAILURE)
  && negb (noCompensation (definition s)).

(** A step whose compensation has not begun. *)
Definition notCompensated (s : TransactionStep) : Prop :=
  stepFailed s = false /\ state (compensate s) = DORMANT.

(** [s'] is [s] made ready to be compensated: it compensates, its
    compensation is NOT_STARTED, its counters are those of a step that was
    never tried, and nothing else has changed. *)
Definition armed (s s' : TransactionStep) : Prop :=
  stepFailed s' = true
  /\ compensate s' = mkPair (status (compensate s)) NOT_STARTED
  /\ attempts s' = 0 /\ failures s' = 0 /\ lastAttempt s' = None
  /\ invoke s' = invoke s /\ response s' = response s
  /\ id s' = id s /\ definition s' = definition s /\ next s' = next s
  /\ depth s' = depth s /\ forwardResponse s' = forwardResponse s.

(** * Steps that have succeeded *)

(** A step whose phase has ended in success. *)
Definition settled (s : TransactionStep) : Prop :=
  getStates s = mkPair OK (if isCompensating s then REVERTED else DONE).

(** What a run makes of a settled step: nothing, or, for a step that has
    succeeded in its invocation, the beginning of its compensation, which
    leaves the record of the invocation as it is. *)
Definition settledThen (s s' : TransactionStep) : Prop :=
  s' = s \/ (stepFailed s = false /\ stepFailed s' = true /\ invoke s' = invoke s).

(** The step under [k] is what a run makes of the settled step [s]. *)
Definition holds (k : string) (s : TransactionStep) (w : World) : Prop :=
  exists s0, asStep (prop (steps (getFlow w)) k) = Some s0 /\ settledThen s s0.

(** The world that [registerStepSuccess] runs the engine in. *)
Definition worldOfSystem (sys : System) (tx : DistributedTransaction) : World :=
  mkWorld (sys_orchestrator sys) tx (sys_calls sys) (sys_clockReads sys).
(** * Properties *)

Unset Implicit Arguments.

(** ** Decidable equalities and dictionaries *)

Lemma state_eqb_eq (a b : TransactionState) : state_eqb a b = true <-> a = b.
Proof. destruct a, b; simpl; split; congruence. Qed.

Lemma state_eqb_refl (a : TransactionState) : state_eqb a a = true.
Proof. now destruct a. Qed.

Lemma state_eqb_neq (a b : TransactionState) : state_eqb a b = false <-> a <> b.
Proof. destruct a, b; simpl; split; congruence. Qed.

Lemma status_eqb_eq (a b : TransactionStepStatus) : status_eqb a b = true <-> a = b.
Proof. destruct a, b; simpl; split; congruence. Qed.

Lemma status_eqb_neq (a b : TransactionStepStatus) : status_eqb a b = false <-> a <> b.
Proof. destruct a, b; simpl; split; congruence. Qed.

Lemma includes_In (l : list TransactionState) (x : TransactionState) :
  includes l x = true <-> In x l.
Proof.
  unfold includes. rewrite existsb_exists. split.
  - intros [y [Hy He]]. apply state_eqb_eq in He. now subst.
  - intros H. exists x. split; [assumption | apply state_eqb_refl].
Qed.

Lemma prop_assign_same {V} (k : string) (v : V) (o : Obj V) :
  prop (assign k v o) k = Some v.
Proof.
  induction o as [| [k' v'] o IH]; simpl.
  - now rewrite String.eqb_refl.
  - destruct (String.eqb k' k) eqn:E; simpl; rewrite E; [reflexivity | exact IH].
Qed.

Lemma prop_assign_other {V} (k k' : string) (v : V) (o : Obj V) :
  k <> k' -> prop (assign k v o) k' = prop o k'.
Proof.
  intros Hne. induction o as [| [k0 v0] o IH]; simpl.
  - destruct (String.eqb k k') eqn:E; [apply String.eqb_eq in E; contradiction | reflexivity].
  - destruct (String.eqb k0 k) eqn:E; simpl.
    + apply String.eqb_eq in E. subst k0.
      destruct (String.eqb k k') eqn:E'; [apply String.eqb_eq in E'; contradiction | reflexivity].
    + destruct (String.eqb k0 k'); [reflexivity | exact IH].
Qed.

Lemma keys_assign_present {V} (k : string) (v : V) (o : Obj V) :
  prop o k <> None -> keys (assign k v o) = keys o.
Proof.
  induction o as [| [k0 v0] o IH]; simpl; intros H.
  - congruence.
  - destruct (String.eqb k0 k) eqn:E; simpl; [reflexivity |].
    f_equal. apply IH. exact H.
Qed.

(** The active pair after an assignment through [getStates()]. *)
Lemma getStates_setStates (p : StatePair) (s : TransactionStep) :
  getStates (setStates p s) = p.
Proof.
  unfold getStates, setStates, isCompensating.
  now destruct (stepFailed s) eqn:E; simpl; rewrite E.
Qed.

Lemma setStates_getStates (s : TransactionStep) : setStates (getStates s) s = s.
Proof.
  unfold getStates, setStates, isCompensating.
  destruct s as [sf i d inv cmp n dp la at_ fl fr rs]; simpl.
  now destruct sf.
Qed.

(** [setStates] writes the active pair only. *)
Lemma setStates_frame (p : StatePair) (s : TransactionStep) :
  stepFailed (setStates p s) = stepFailed s /\ id (setStates p s) = id s
  /\ definition (setStates p s) = definition s /\ next (setStates p s) = next s
  /\ depth (setStates p s) = depth s /\ lastAttempt (setStates p s) = lastAttempt s
  /\ attempts (setStates p s) = attempts s /\ failures (setStates p s) = failures s
  /\ forwardResponse (setStates p s) = forwardResponse s
  /\ response (setStates p s) = response s.
Proof.
  unfold setStates, isCompensating. destruct (stepFailed s) eqn:E; simpl; rewrite ?E;
    repeat split.
Qed.

Lemma failures_setStates (p : StatePair) (s : TransactionStep) :
  failures (setStates p s) = failures s.
Proof. apply setStates_frame. Qed.

(** ** State transitions of a step (C8) *)

(** C8, as stated, fails: a target equal to the current state is not in the
    transition table of that state, yet [changeState] accepts it and returns
    (here DONE to DONE). *)
Lemma changeState_same_state_accepted :
  ~ (forall (s : TransactionStep) (toState : TransactionState),
        includes (allowedState (state (getStates s))) toState = false ->
        exists e, changeState toState s = (Thrown e, s)).
Proof.
  intros H. destruct (H doneStep DONE eq_refl) as [e He].
  vm_compute in He. discriminate He.
Qed.

(** C8, amended: for every step and every target state that differs from
    the step's current active state and is not permitted by the transition
    table from it, [changeState] throws and leaves every field of the step
    unchanged. *)
Theorem changeState_rejects_illegal (s : TransactionStep) (toState : TransactionState) :
  state (getStates s) <> toState ->
  includes (allowedState (state (getStates s))) toState = false ->
  changeState toState s = (Thrown (InvalidState (state (getStates s)) toState), s).
Proof.
  intros Hne Hnot. unfold changeState.
  apply state_eqb_neq in Hne. now rewrite Hne, Hnot.
Qed.

Lemma changeState_rejects_illegal_witness :
  state (getStates doneStep) <> INVOKING
  /\ includes (allowedState (state (getStates doneStep))) INVOKING = false
  /\ changeState INVOKING doneStep = (Thrown (InvalidState DONE INVOKING), doneStep).
Proof.
  split; [discriminate |]. split; [reflexivity |].
  apply (changeState_rejects_illegal doneStep INVOKING);
    [discriminate | reflexivity].
Defined.

(** A target equal to the current state is accepted and changes nothing. *)
Lemma changeState_same (s : TransactionStep) :
  changeState (state (getStates s)) s = (Returned tt, s).
Proof.
  unfold changeState. rewrite state_eqb_refl. simpl.
  destruct (getStates s) as [st sa] eqn:E. simpl.
  rewrite <- E. now rewrite setStates_getStates.
Qed.

(** ** [resume] on a finished transaction (C10) *)

(** C10: for every transaction whose flow state is DONE, REVERTED or FAILED,
    [resume] leaves everything as it is: the handler is not called (the list
    of calls is the same) and the flow, every step, the errors and the
    payload are the same. It returns at once for a transaction of the
    orchestrator's model; for one of another model it throws the error of the
    model test, which comes first. *)
Theorem resume_finished_is_noop (handler : Handler) (dateNow : nat -> nat)
        (fuel : nat) (w : World) :
  In (getState (transaction w)) [DONE; REVERTED; FAILED] ->
  snd (resume handler dateNow fuel w) = w
  /\ (modelId (transaction w) = orch_id (orchestrator w) ->
      resume handler dateNow fuel w = (Returned tt, w))
  /\ (modelId (transaction w) <> orch_id (orchestrator w) ->
      resume handler dateNow fuel w
      = (Thrown (WrongModel (modelId (transaction w)) (orch_id (orchestrator w))), w)).
Proof.
  intros Hfin. apply includes_In in Hfin.
  unfold resume, bind, get, hasFinished. cbv beta iota.
  destruct (String.eqb (modelId (transaction w)) (orch_id (orchestrator w))) eqn:E;
    cbn [negb]; rewrite ?Hfin.
  - apply String.eqb_eq in E.
    split; [reflexivity |]. split; [reflexivity |]. intros H. contradiction.
  - apply String.eqb_neq in E.
    split; [reflexivity |]. split; [| reflexivity]. intros H. contradiction.
Qed.

Lemma resume_finished_is_noop_witness :
  In (getState (transaction (withFlowState DONE worldAB))) [DONE; REVERTED; FAILED]
  /\ resume (fun _ _ _ _ => Resolved None) (fun n => n) 5 (withFlowState DONE worldAB)
     = (Returned tt, withFlowState DONE worldAB).
Proof.
  split; [simpl; auto |].
  apply (resume_finished_is_noop (fun _ _ _ _ => Resolved None) (fun n => n) 5
           (withFlowState DONE worldAB)); [simpl; auto | reflexivity].
Defined.

(** ** Eligibility (C5) *)




(** ** Running the monad *)

Lemma bind_run {S A B} (m : M S A) (k : A -> M S B) (s s' : S) (a : A) :
  m s = (Returned a, s') -> bind m k s = k a s'.
Proof. intros H. unfold bind. now rewrite H. Qed.

Lemma bind_thrown {S A B} (m : M S A) (k : A -> M S B) (s s' : S) (e : Error) :
  m s = (Thrown e, s') -> bind m k s = (Thrown e, s').
Proof. intros H. unfold bind. now rewrite H. Qed.

Lemma stepAt_run (k : string) (w : World) (s : TransactionStep) :
  asStep (prop (steps (getFlow w)) k) = Some s -> stepAt k w = (Returned s, w).
Proof. intros H. unfold stepAt. now rewrite H. Qed.

Lemma onStep_run {A} (k : string) (m : M TransactionStep A) (w : World) (s : TransactionStep) :
  asStep (prop (steps (getFlow w)) k) = Some s ->
  onStep k m w = (fst (m s), putStep k (snd (m s)) w).
Proof. intros H. unfold onStep. rewrite H. now destruct (m s). Qed.

Lemma asStep_putStep_same (k : string) (s : TransactionStep) (w : World) :
  asStep (prop (steps (getFlow (putStep k s w))) k) = Some s.
Proof. unfold putStep, getFlow. simpl. now rewrite prop_assign_same. Qed.

Lemma prop_putStep_other (k k' : string) (s : TransactionStep) (w : World) :
  k <> k' -> prop (steps (getFlow (putStep k s w))) k' = prop (steps (getFlow w)) k'.
Proof. intros H. unfold putStep, getFlow. simpl. now apply prop_assign_other. Qed.

Lemma assign_assign {V} (k : string) (v v' : V) (o : Obj V) :
  assign k v' (assign k v o) = assign k v' o.
Proof.
  induction o as [| [k0 v0] o IH]; simpl.
  - now rewrite String.eqb_refl.
  - destruct (String.eqb k0 k) eqn:E; simpl; rewrite E; [reflexivity | now rewrite IH].
Qed.

Lemma putStep_putStep (k : string) (s s' : TransactionStep) (w : World) :
  putStep k s' (putStep k s w) = putStep k s' w.
Proof. unfold putStep, getFlow. simpl. now rewrite assign_assign. Qed.

Lemma changeStatus_WAITING (s : TransactionStep) :
  changeStatus WAITING s = (Returned tt, setStates (mkPair WAITING (state (getStates s))) s).
Proof.
  unfold changeStatus. simpl.
  now rewrite Bool.orb_true_r.
Qed.

Lemma changeState_allowed (toState : TransactionState) (s : TransactionStep) :
  In toState (allowedState (state (getStates s))) ->
  changeState toState s
  = (Returned tt, setStates (mkPair (status (getStates s)) toState) s).
Proof.
  intros H. unfold changeState. apply includes_In in H. rewrite H.
  now rewrite Bool.orb_true_r.
Qed.

Lemma changeStatus_allowed (toStatus : TransactionStepStatus) (s : TransactionStep) :
  status (getStates s) = toStatus \/ toStatus = WAITING
  \/ In toStatus (allowedStatus (status (getStates s))) ->
  changeStatus toStatus s
  = (Returned tt, setStates (mkPair toStatus (state (getStates s))) s).
Proof.
  intros H. unfold changeStatus.
  assert (Hb : status_eqb (status (getStates s)) toStatus
               || status_eqb toStatus WAITING
               || existsb (status_eqb toStatus) (allowedStatus (status (getStates s)))
               = true).
  { destruct H as [H | [H | H]].
    - apply status_eqb_eq in H. now rewrite H.
    - apply status_eqb_eq in H. rewrite H. now rewrite Bool.orb_true_r.
    - rewrite Bool.orb_true_iff. right. apply existsb_exists.
      exists toStatus. split; [exact H | now apply status_eqb_eq]. }
  now rewrite Hb.
Qed.

Lemma onStep_returned {A} (k : string) (m : M TransactionStep A) (w : World)
      (s s' : TransactionStep) (a : A) :
  asStep (prop (steps (getFlow w)) k) = Some s ->
  m s = (Returned a, s') ->
  onStep k m w = (Returned a, putStep k s' w).
Proof. intros Hs Hm. rewrite (onStep_run k m w s Hs), Hm. reflexivity. Qed.

Ltac run_with tac := erewrite bind_run; [| tac].

(** ** The dispatch of a step *)

Lemma startAttempt_run (dateNow : nat -> nat) (step : string)
      (w : World) (s0 : TransactionStep) :
  asStep (prop (steps (getFlow w)) step) = Some s0 ->
  startAttempt dateNow step s0 w
  = (Returned tt,
     putStep step (launched (dateNow (clockReads w)) (flow_state (getFlow w)) s0) (tick w)).
Proof.
  intros Hs. unfold startAttempt, launched.
  run_with ltac:(unfold now; reflexivity).
  run_with ltac:(erewrite onStep_run; [reflexivity | exact Hs]).
  run_with ltac:(reflexivity).
  simpl snd.
  set (s1 := set_attempts (S (attempts s0)) (set_lastAttempt (Some (dateNow (clockReads w))) s0)).
  assert (Hg : getStates s1 = getStates s0) by reflexivity.
  assert (Hfs : flow_state (getFlow (putStep step s1 (tick w))) = flow_state (getFlow w))
    by reflexivity.
  rewrite Hfs.
  destruct (state_eqb (state (getStates s0)) NOT_STARTED) eqn:Ens.
  - apply state_eqb_eq in Ens.
    destruct (isCompensating s0) eqn:Ec.
    + run_with ltac:(erewrite onStep_run; [| apply asStep_putStep_same];
                     rewrite changeState_allowed; [reflexivity | rewrite Hg, Ens; simpl; auto]).
      erewrite onStep_run by apply asStep_putStep_same.
      rewrite changeStatus_WAITING. simpl. now rewrite !putStep_putStep.
    + destruct (state_eqb (flow_state (getFlow w)) INVOKING) eqn:Ef.
      * run_with ltac:(erewrite onStep_run; [| apply asStep_putStep_same];
                       rewrite changeState_allowed; [reflexivity | rewrite Hg, Ens; simpl; auto]).
        erewrite onStep_run by apply asStep_putStep_same.
        rewrite changeStatus_WAITING. simpl. now rewrite !putStep_putStep.
      * run_with ltac:(reflexivity).
        erewrite onStep_run by apply asStep_putStep_same.
        rewrite changeStatus_WAITING. simpl. now rewrite !putStep_putStep.
  - run_with ltac:(reflexivity).
    erewrite onStep_run by apply asStep_putStep_same.
    rewrite changeStatus_WAITING. simpl. now rewrite !putStep_putStep.
Qed.

Lemma payloadDataFor_run (parent : StepEntry) (w : World) :
  exists d pd, payloadDataFor parent w = (Returned d, withPayload pd w).
Proof.
  assert (Hsame : withPayload (payload (transaction w)) w = w).
  { destruct w as [o [ti mi er fl pl] cs ck]. reflexivity. }
  unfold payloadDataFor. run_with ltac:(reflexivity).
  destruct parent as [i n | p].
  - exists (payload (transaction w)), (payload (transaction w)).
    unfold ret. now rewrite Hsame.
  - destruct (forwardResponse p).
    + destruct (payload (transaction w)) as [d |] eqn:Ep.
      * eexists; eexists. run_with ltac:(reflexivity). reflexivity.
      * eexists; exists None. unfold ret. now rewrite Hsame.
    + exists (payload (transaction w)), (payload (transaction w)).
      unfold ret. now rewrite Hsame.
Qed.

Lemma makePayload_run (dateNow : nat -> nat) (s : TransactionStep)
      (type : TransactionHandlerType) (w : World) (parent : StepEntry) :
  getPreviousStep (getFlow w) (Full s) = Some parent ->
  exists d pd,
    makePayload dateNow s type w
    = (Returned
         (mkPayload
            (mkMetadata (transactionModelId (getFlow w))
                        (getKeyName ["trans"; transactionModelId (getFlow w)])
                        (getKeyName [flow_transactionId (getFlow w); actionKey s;
                                     handlerType_str type])
                        (actionText s) type (attempts s) (dateNow (clockReads w)))
            d),
       tick (withPayload pd w)).
Proof.
  intros Hp. unfold makePayload.
  run_with ltac:(reflexivity).
  rewrite Hp. simpl orTypeError.
  run_with ltac:(reflexivity).
  destruct (payloadDataFor_run parent w) as [d [pd Hd]].
  exists d, pd.
  run_with ltac:(exact Hd).
  run_with ltac:(unfold now; reflexivity).
  run_with ltac:(reflexivity).
  reflexivity.
Qed.

Lemma launched_frame (t : nat) (fs : TransactionState) (s0 : TransactionStep) :
  let s1 := launched t fs s0 in
  id s1 = id s0 /\ definition s1 = definition s0 /\ stepFailed s1 = stepFailed s0
  /\ next s1 = next s0 /\ failures s1 = failures s0 /\ attempts s1 = S (attempts s0)
  /\ status (getStates s1) = WAITING.
Proof.
  unfold launched, getStates, setStates, isCompensating.
  destruct s0 as [sf i d [ist isa] [cst csa] n dp la at_ fl fr rs]; simpl.
  destruct sf; simpl.
  - destruct (state_eqb csa NOT_STARTED); simpl; repeat split.
  - destruct (state_eqb isa NOT_STARTED); simpl; [destruct (state_eqb fs INVOKING) |];
      simpl; repeat split.
Qed.

Lemma dispatch_run (handler : Handler) (dateNow : nat -> nat) (step : string)
      (w : World) (s0 : TransactionStep) (parent : StepEntry) :
  asStep (prop (steps (getFlow w)) step) = Some s0 ->
  getPreviousStep (getFlow w) (Full s0) = Some parent ->
  let s1 := launched (dateNow (clockReads w)) (flow_state (getFlow w)) s0 in
  exists d pd,
    let p := mkPayload
               (mkMetadata (transactionModelId (getFlow w))
                           (getKeyName ["trans"; transactionModelId (getFlow w)])
                           (getKeyName [flow_transactionId (getFlow w); actionKey s0;
                                        handlerType_str (handlerTypeOf s0)])
                           (actionText s0) (handlerTypeOf s0) (S (attempts s0))
                           (dateNow (S (clockReads w))))
               d in
    dispatch handler dateNow step w
    = (Returned (p, handler (calls w) (actionText s0) (handlerTypeOf s0) p),
       logCall (mkCall (actionText s0) (handlerTypeOf s0) p)
               (tick (withPayload pd (putStep step s1 (tick w))))).
Proof.
  intros Hs Hp s1.
  destruct (launched_frame (dateNow (clockReads w)) (flow_state (getFlow w)) s0)
    as [Hid [Hdef [Hsf [_ [_ [Hat _]]]]]].
  fold s1 in Hid, Hdef, Hsf, Hat.
  assert (Hp1 : exists parent1,
             getPreviousStep (getFlow (putStep step s1 (tick w))) (Full s1) = Some parent1).
  { unfold getPreviousStep in *. simpl entry_id in *. rewrite Hid.
    destruct (String.eqb step (parentId (id s0))) eqn:E.
    - apply String.eqb_eq in E. rewrite <- E.
      unfold putStep, getFlow; simpl. rewrite prop_assign_same. eauto.
    - apply String.eqb_neq in E. rewrite prop_putStep_other by exact E.
      exists parent. exact Hp. }
  destruct Hp1 as [parent1 Hp1].
  destruct (makePayload_run dateNow s1 (handlerTypeOf s0) _ _ Hp1) as [d [pd Hm]].
  exists d, pd. intros p.
  unfold dispatch.
  run_with ltac:(apply stepAt_run; exact Hs).
  run_with ltac:(apply startAttempt_run; exact Hs).
  run_with ltac:(apply stepAt_run; apply asStep_putStep_same).
  fold s1.
  run_with ltac:(exact Hm).
  assert (Hat' : actionText s1 = actionText s0) by (unfold actionText; now rewrite Hdef).
  assert (Hak : actionKey s1 = actionKey s0) by (unfold actionKey; now rewrite Hdef).
  rewrite Hat', Hak, Hat.
  run_with ltac:(reflexivity).
  reflexivity.
Qed.

(** C9: for every step dispatched by [executeNext] (a step of the flow whose
    parent entry exists), the handler is called for the phase of the step,
    compensate when the step is compensating and invoke otherwise, with a
    payload whose [idempotency_key] is the transaction id, the action name
    and that phase (["invoke"] or ["compensate"]) joined by [":"], whose
    [action_type] is that phase, whose [reply_to_topic] is ["trans:"]
    followed by the model id, and whose [attempt] is the [attempts] counter
    of the step after its increment for this dispatch. *)
Theorem dispatch_metadata (handler : Handler) (dateNow : nat -> nat) (step a : string)
        (w : World) (s0 : TransactionStep) (parent : StepEntry) :
  asStep (prop (steps (getFlow w)) step) = Some s0 ->
  getPreviousStep (getFlow w) (Full s0) = Some parent ->
  action (definition s0) = Some a ->
  exists p r w' s1,
    dispatch handler dateNow step w = (Returned (p, r), w')
    /\ calls w' = calls w ++ [mkCall a (if isCompensating s0 then COMPENSATE else INVOKE) p]
    /\ asStep (prop (steps (getFlow w')) step) = Some s1
    /\ attempts s1 = S (attempts s0)
    /\ attempt (metadata p) = attempts s1
    /\ idempotency_key (metadata p)
       = String.append (flow_transactionId (getFlow w))
           (String.append ":" (String.append a
              (String.append ":"
                 (if isCompensating s0 then "compensate" else "invoke"))))
    /\ action_type (metadata p) = (if isCompensating s0 then COMPENSATE else INVOKE)
    /\ reply_to_topic (metadata p)
       = String.append "trans:" (transactionModelId (getFlow w)).
Proof.
  intros Hs Hp Ha.
  destruct (dispatch_run handler dateNow step w s0 parent Hs Hp) as [d [pd Hd]].
  cbv zeta in Hd.
  destruct (launched_frame (dateNow (clockReads w)) (flow_state (getFlow w)) s0)
    as [_ [_ [_ [_ [_ [Hat _]]]]]].
  cbv zeta in Hat.
  assert (Hat' : actionText s0 = a) by (unfold actionText; now rewrite Ha).
  assert (Hak : actionKey s0 = a) by (unfold actionKey; now rewrite Ha).
  rewrite Hat', Hak in Hd.
  eexists; eexists; eexists; eexists.
  split; [exact Hd |].
  split; [reflexivity |].
  split; [apply asStep_putStep_same |].
  split; [exact Hat |].
  split; [simpl; now rewrite Hat |].
  split; [| split; reflexivity].
  cbn [metadata idempotency_key]. unfold handlerTypeOf.
  destruct (isCompensating s0); reflexivity.
Qed.

(** ** The scheduling pass (C3) *)

Lemma classify_flags (s : TransactionStep) (sc : Scan) :
  hasSkipped (classify s sc) = hasSkipped sc || state_eqb (state (getStates s)) SKIPPED
  /\ hasReverted (classify s sc) = hasReverted sc || state_eqb (state (getStates s)) REVERTED
  /\ hasFailed (classify s sc)
     = hasFailed sc || (state_eqb (state (getStates s)) FAILED
                        && negb (continueOnPermanentFailure (definition s)))
  /\ hasIgnoredFailure (classify s sc)
     = hasIgnoredFailure sc || (state_eqb (state (getStates s)) FAILED
                                && continueOnPermanentFailure (definition s))
  /\ completedSteps (classify s sc) = S (completedSteps sc)
  /\ nextSteps (classify s sc) = nextSteps sc
  /\ hasWaiting (classify s sc) = hasWaiting sc.
Proof.
  unfold classify.
  destruct (state (getStates s)); simpl;
    try destruct (continueOnPermanentFailure (definition s)); simpl;
    repeat split; auto using Bool.orb_false_r, Bool.orb_true_r.
Qed.

(** What one turn of the loop does to a flag [g] that is raised by the
    completed steps satisfying [h]. *)
Lemma scanStep_flag (g : Scan -> bool) (h : TransactionStep -> bool) :
  (forall s sc, g (classify s sc) = g sc || h s) ->
  (forall a b c d e n l d' l', g (mkScan a b c d e n l) = g (mkScan a b c d' e n l')) ->
  forall f sc k sc',
    scanStep f sc k = Some sc' ->
    (g sc' = true <-> g sc = true \/ exists s, countedCompleted f k s /\ h s = true).
Proof.
  intros Hcl Hother f sc k sc' Hstep. unfold scanStep in Hstep.
  unfold countedCompleted.
  destruct (String.eqb k ROOT_STEP) eqn:Eroot.
  { injection Hstep as <-. apply String.eqb_eq in Eroot. split; [auto |].
    intros [H | [s [[Hk _] _]]]; [exact H | contradiction]. }
  apply String.eqb_neq in Eroot.
  destruct (prop (steps f) k) as [e |] eqn:Ek; [| discriminate].
  destruct (canContinue f e) as [[|] |] eqn:Ecc; [| | discriminate].
  2:{ injection Hstep as <-. split; [auto |].
      intros [H | [s [[_ [Hs [Hc _]]] _]]]; [exact H |].
      injection Hs as ->. congruence. }
  destruct e as [i n | stepDef]; [discriminate |].
  destruct (status_eqb (status (getStates stepDef)) WAITING) eqn:Ew.
  { injection Hstep as <-. destruct sc as [a b c d e0 n l]. simpl.
    rewrite <- (Hother a b c d e0 n l true l). split; [auto |].
    intros [H | [s [[_ [Hs [_ [Hnw _]]]] _]]]; [exact H |].
    injection Hs as <-. apply status_eqb_eq in Ew. contradiction. }
  destruct (canInvoke (flow_state f) stepDef || canCompensate (flow_state f) stepDef) eqn:Ecan.
  { injection Hstep as <-. destruct sc as [a b c d e0 n l]. simpl.
    rewrite <- (Hother a b c d e0 n l d (l ++ [k])). split; [auto |].
    intros [H | [s [[_ [Hs [_ [_ [Hi Hc]]]]] _]]]; [exact H |].
    injection Hs as <-. rewrite Hi, Hc in Ecan. discriminate. }
  injection Hstep as <-. rewrite Hcl.
  apply Bool.orb_false_iff in Ecan. destruct Ecan as [Hi Hc].
  apply status_eqb_neq in Ew.
  rewrite Bool.orb_true_iff. split.
  - intros [H | H]; [now left |]. right. exists stepDef. repeat split; assumption.
  - intros [H | [s [[_ [Hs _]] Hh]]]; [now left |]. injection Hs as <-. now right.
Qed.

Lemma scan_flag (g : Scan -> bool) (h : TransactionStep -> bool) :
  (forall s sc, g (classify s sc) = g sc || h s) ->
  (forall a b c d e n l d' l', g (mkScan a b c d e n l) = g (mkScan a b c d' e n l')) ->
  forall f allSteps sc0 sc,
    scan f allSteps sc0 = Some sc ->
    (g sc = true <->
     g sc0 = true
     \/ exists k s, In k allSteps /\ countedCompleted f k s /\ h s = true).
Proof.
  intros Hcl Hother f allSteps.
  induction allSteps as [| k rest IH]; intros sc0 sc Hscan; simpl in Hscan.
  - injection Hscan as <-. split; [auto |]. intros [H | [k [s [[] _]]]]. exact H.
  - destruct (scanStep f sc0 k) as [sc1 |] eqn:E1; [| discriminate].
    rewrite (IH _ _ Hscan). rewrite (scanStep_flag g h Hcl Hother _ _ _ _ E1).
    split.
    + intros [[H | [s [Hc Hh]]] | [k' [s [Hin H]]]].
      * now left.
      * right. exists k, s. split; [now left | auto].
      * right. exists k', s. split; [now right | auto].
    + intros [H | [k' [s [[<- | Hin] [Hc Hh]]]]].
      * left. now left.
      * left. right. now exists s.
      * right. now exists k', s.
Qed.

(** The flags of a pass say what the specification says in words. *)
Lemma scan_verdict (f : TransactionFlow) (allSteps : list string) (sc : Scan) :
  scan f allSteps emptyScan = Some sc ->
  (hasFailed sc = true <-> fatalFailure f allSteps)
  /\ (hasIgnoredFailure sc = true <-> ignoredFailure f allSteps)
  /\ (hasReverted sc = true <-> someReverted f allSteps)
  /\ (hasSkipped sc = true <-> someSkipped f allSteps).
Proof.
  intros Hscan.
  pose proof (scan_flag hasFailed
                (fun s => state_eqb (state (getStates s)) FAILED
                          && negb (continueOnPermanentFailure (definition s)))
                (fun s sc' => proj1 (proj2 (proj2 (classify_flags s sc'))))
                (fun a b c d e n l d' l' => eq_refl) f allSteps emptyScan sc Hscan) as HF.
  pose proof (scan_flag hasIgnoredFailure
                (fun s => state_eqb (state (getStates s)) FAILED
                          && continueOnPermanentFailure (definition s))
                (fun s sc' => proj1 (proj2 (proj2 (proj2 (classify_flags s sc')))))
                (fun a b c d e n l d' l' => eq_refl) f allSteps emptyScan sc Hscan) as HI.
  pose proof (scan_flag hasReverted
                (fun s => state_eqb (state (getStates s)) REVERTED)
                (fun s sc' => proj1 (proj2 (classify_flags s sc')))
                (fun a b c d e n l d' l' => eq_refl) f allSteps emptyScan sc Hscan) as HR.
  pose proof (scan_flag hasSkipped
                (fun s => state_eqb (state (getStates s)) SKIPPED)
                (fun s sc' => proj1 (classify_flags s sc'))
                (fun a b c d e n l d' l' => eq_refl) f allSteps emptyScan sc Hscan) as HS.
  unfold fatalFailure, ignoredFailure, someReverted, someSkipped.
  split; [| split; [| split]].
  - rewrite HF. split.
    + intros [H | [k [s [Hin [Hc Hh]]]]]; [discriminate |].
      apply Bool.andb_true_iff in Hh. destruct Hh as [Hs Hn].
      exists k, s. split; [exact Hin |]. split; [exact Hc |].
      split; [now apply state_eqb_eq | now apply Bool.negb_true_iff].
    + intros [k [s [Hin [Hc [Hs Hn]]]]]. right. exists k, s.
      split; [exact Hin |]. split; [exact Hc |]. now rewrite Hs, Hn.
  - rewrite HI. split.
    + intros [H | [k [s [Hin [Hc Hh]]]]]; [discriminate |].
      apply Bool.andb_true_iff in Hh. destruct Hh as [Hs Hn].
      exists k, s. split; [exact Hin |]. split; [exact Hc |].
      split; [now apply state_eqb_eq | exact Hn].
    + intros [k [s [Hin [Hc [Hs Hn]]]]]. right. exists k, s.
      split; [exact Hin |]. split; [exact Hc |]. now rewrite Hs, Hn.
  - rewrite HR. split.
    + intros [H | [k [s [Hin [Hc Hh]]]]]; [discriminate |].
      exists k, s. split; [exact Hin |]. split; [exact Hc |]. now apply state_eqb_eq.
    + intros [k [s [Hin [Hc Hs]]]]. right. exists k, s.
      split; [exact Hin |]. split; [exact Hc |]. now rewrite Hs.
  - rewrite HS. split.
    + intros [H | [k [s [Hin [Hc Hh]]]]]; [discriminate |].
      exists k, s. split; [exact Hin |]. split; [exact Hc |]. now apply state_eqb_eq.
    + intros [k [s [Hin [Hc Hs]]]]. right. exists k, s.
      split; [exact Hin |]. split; [exact Hc |]. now rewrite Hs.
Qed.

Lemma getInvokeSteps_run (w : World) :
  exists o, getInvokeSteps w = (Returned (invokeStepsOf w), set_orchestrator o w).
Proof.
  assert (Hsame : set_orchestrator (orchestrator w) w = w) by now destruct w.
  unfold getInvokeSteps, invokeStepsOf. run_with ltac:(reflexivity).
  destruct (invokeSteps (orchestrator w)) eqn:E.
  - eexists. run_with ltac:(reflexivity). reflexivity.
  - exists (orchestrator w). unfold ret. now rewrite Hsame.
Qed.

Lemma getCompensationSteps_run (w : World) :
  exists o, getCompensationSteps w = (Returned (compensationStepsOf w), set_orchestrator o w).
Proof.
  assert (Hsame : set_orchestrator (orchestrator w) w = w) by now destruct w.
  unfold getCompensationSteps, compensationStepsOf. run_with ltac:(reflexivity).
  destruct (compensateSteps (orchestrator w)) eqn:E.
  - eexists. run_with ltac:(reflexivity). reflexivity.
  - exists (orchestrator w). unfold ret. now rewrite Hsame.
Qed.

Lemma orderings_run (w : World) :
  exists o,
    (if state_eqb (flow_state (getFlow w)) COMPENSATING
     then getCompensationSteps else getInvokeSteps) w
    = (Returned (allStepsOf w), set_orchestrator o w).
Proof.
  unfold allStepsOf. destruct (state_eqb (flow_state (getFlow w)) COMPENSATING).
  - apply getCompensationSteps_run.
  - apply getInvokeSteps_run.
Qed.

(** C3, as stated, fails: in [worldA_failed] the pass counts its only step as
    completed (1 of 1) and sees its fatal failure, but the flow is waiting to
    compensate, so the pass moves it to COMPENSATING and runs again instead of
    finalizing it to FAILED. *)
Lemma checkAllSteps_compensates_before_finalizing :
  ~ (forall (w : World) (sc : Scan),
        scan (getFlow w) (allStepsOf w) emptyScan = Some sc ->
        Z.of_nat (completedSteps sc) = totalSteps (allStepsOf w) ->
        hasFailed sc = true ->
        flow_state (getFlow (snd (checkAllSteps 2 w))) = FAILED).
Proof.
  intros H.
  specialize (H worldA_failed (mkScan false false true false false 1 [])
                eq_refl eq_refl eq_refl).
  vm_compute in H. discriminate H.
Qed.

(** C3, amended: for every scheduling pass in which the number of completed
    steps equals the total number of non-root steps, and which is not the
    pass of a flow waiting to compensate with nothing to dispatch and nothing
    waiting (that pass moves the flow to COMPENSATING and runs again), the
    flow state is finalized to FAILED if a step ended in a fatal permanent
    failure, otherwise to REVERTED if a step was reverted, otherwise to DONE;
    [hasSkippedSteps] is set when a step was skipped and [hasFailedSteps] when
    an ignored permanent failure occurred; the steps are left as they are. *)
Theorem checkAllSteps_finalizes (fuel : nat) (w : World) (sc : Scan) :
  scan (getFlow w) (allStepsOf w) emptyScan = Some sc ->
  Z.of_nat (completedSteps sc) = totalSteps (allStepsOf w) ->
  mustCompensate (getFlow w) sc = false ->
  exists w',
    checkAllSteps (S fuel) w
    = (Returned (mkCheck (nextSteps sc) (totalSteps (allStepsOf w)) 0
                         (Z.of_nat (completedSteps sc))), w')
    /\ (fatalFailure (getFlow w) (allStepsOf w) -> flow_state (getFlow w') = FAILED)
    /\ (~ fatalFailure (getFlow w) (allStepsOf w) ->
        someReverted (getFlow w) (allStepsOf w) -> flow_state (getFlow w') = REVERTED)
    /\ (~ fatalFailure (getFlow w) (allStepsOf w) ->
        ~ someReverted (getFlow w) (allStepsOf w) -> flow_state (getFlow w') = DONE)
    /\ (someSkipped (getFlow w) (allStepsOf w) -> hasSkippedSteps (getFlow w') = true)
    /\ (ignoredFailure (getFlow w) (allStepsOf w) -> hasFailedSteps (getFlow w') = true)
    /\ steps (getFlow w') = steps (getFlow w).
Proof.
  intros Hscan Hall Hnc.
  destruct (scan_verdict _ _ _ Hscan) as [HF [HI [HR HS]]].
  destruct (orderings_run w) as [o Ho].
  exists (snd (modifyFlow (finalize sc) (set_orchestrator o w))).
  split.
  - simpl checkAllSteps.
    run_with ltac:(reflexivity).
    run_with ltac:(exact Ho).
    rewrite Hscan. simpl orTypeError.
    run_with ltac:(reflexivity).
    rewrite Hnc.
    rewrite <- Hall at 1. rewrite Z.eqb_refl.
    run_with ltac:(reflexivity).
    unfold ret. simpl. rewrite <- Hall, Z.sub_diag. reflexivity.
  - unfold modifyFlow, modify, finalize; simpl.
    destruct (hasFailed sc) eqn:Ef, (hasReverted sc) eqn:Er,
             (hasSkipped sc) eqn:Es, (hasIgnoredFailure sc) eqn:Ei; simpl;
      repeat split; intros;
        try reflexivity;
        repeat match goal with
               | X : ?P, Y : true = true <-> ?P |- _ => clear Y
               | X : ~ ?P, Y : _ <-> ?P |- _ => apply (proj2 (not_iff_compat Y)) in X
               | X : ?P, Y : false = true <-> ?P |- _ => apply Y in X; discriminate X
               | X : ~ true = true |- _ => exfalso; apply X; reflexivity
               end.
Qed.

Lemma checkAllSteps_finalizes_witness :
  scan (getFlow worldA_done) (allStepsOf worldA_done) emptyScan
  = Some (mkScan false false false false false 1 [])
  /\ Z.of_nat 1 = totalSteps (allStepsOf worldA_done)
  /\ mustCompensate (getFlow worldA_done) (mkScan false false false false false 1 []) = false
  /\ exists w',
      checkAllSteps 2 worldA_done = (Returned (mkCheck [] 1 0 1), w')
      /\ steps (getFlow w') = steps (getFlow worldA_done).
Proof.
  split; [reflexivity |]. split; [reflexivity |]. split; [reflexivity |].
  destruct (checkAllSteps_finalizes 1 worldA_done
              (mkScan false false false false false 1 []) eq_refl eq_refl eq_refl)
    as [w' [Hrun [_ [_ [_ [_ [_ Hsteps]]]]]]].
  exists w'. split; [exact Hrun | exact Hsteps].
Defined.

Lemma dispatch_metadata_witness :
  (isCompensating (stepOf worldAB_started "_root.A") = false
   /\ exists p r w' s1,
        dispatch alwaysResolve (fun n => n) "_root.A" worldAB_started
        = (Returned (p, r), w')
        /\ asStep (prop (steps (getFlow w')) "_root.A") = Some s1
        /\ attempt (metadata p) = attempts s1
        /\ idempotency_key (metadata p) = "tx:A:invoke"
        /\ action_type (metadata p) = INVOKE
        /\ reply_to_topic (metadata p) = "trans:model")
  /\ (isCompensating (stepOf worldA_compensating "_root.A") = true
      /\ exists p r w' s1,
           dispatch alwaysReject (fun n => n) "_root.A" worldA_compensating
           = (Returned (p, r), w')
           /\ asStep (prop (steps (getFlow w')) "_root.A") = Some s1
           /\ attempt (metadata p) = attempts s1
           /\ idempotency_key (metadata p) = "tx:A:compensate"
           /\ action_type (metadata p) = COMPENSATE
           /\ reply_to_topic (metadata p) = "trans:model").
Proof.
  split; (split; [reflexivity |]).
  - destruct (dispatch_metadata alwaysResolve (fun n => n) "_root.A" "A" worldAB_started
                (stepOf worldAB_started "_root.A") (Bare "_root" ["_root.A"])
                eq_refl eq_refl eq_refl)
      as [p [r [w' [s1 [Hd [_ [Hs [_ [Hat [Hk [Hty Ht]]]]]]]]]]].
    exists p, r, w', s1.
    split; [exact Hd |]. split; [exact Hs |]. split; [exact Hat |].
    split; [exact Hk |]. split; [exact Hty | exact Ht].
  - destruct (dispatch_metadata alwaysReject (fun n => n) "_root.A" "A" worldA_compensating
                (stepOf worldA_compensating "_root.A") (Bare "_root" ["_root.A"])
                eq_refl eq_refl eq_refl)
      as [p [r [w' [s1 [Hd [_ [Hs [_ [Hat [Hk [Hty Ht]]]]]]]]]]].
    exists p, r, w', s1.
    split; [exact Hd |]. split; [exact Hs |]. split; [exact Hat |].
    split; [exact Hk |]. split; [exact Hty | exact Ht].
Defined.


(** ** Permanent failure with [continueOnPermanentFailure] (C1) *)

Lemma flow_putStep (k : string) (s : TransactionStep) (w : World) :
  flow_state (getFlow (putStep k s w)) = flow_state (getFlow w).
Proof. reflexivity. Qed.

(** The loop that skips the children. *)
Lemma skip_children_run (l : list string) :
  forall w : World,
    (forall c, In c l ->
       exists sc, asStep (prop (steps (getFlow w)) c) = Some sc
                  /\ In (state (getStates sc)) [NOT_STARTED; SKIPPED]) ->
    exists w',
      forEach (fun childStep => onStep childStep (changeState SKIPPED)) l w
      = (Returned tt, w')
      /\ flow_state (getFlow w') = flow_state (getFlow w)
      /\ (forall k, In k l ->
            exists sc, asStep (prop (steps (getFlow w')) k) = Some sc
                       /\ state (getStates sc) = SKIPPED)
      /\ (forall k, ~ In k l ->
            prop (steps (getFlow w')) k = prop (steps (getFlow w)) k).
Proof.
  induction l as [| c l IH]; intros w Hall.
  - exists w. simpl. repeat split; auto. intros k [].
  - destruct (Hall c (or_introl eq_refl)) as [sc [Hsc Hst]].
    assert (Hrun : onStep c (changeState SKIPPED) w
                   = (Returned tt,
                      putStep c (setStates (mkPair (status (getStates sc)) SKIPPED) sc) w)).
    { rewrite (onStep_run _ _ _ _ Hsc).
      destruct Hst as [Hst | [Hst | []]].
      - rewrite changeState_allowed; [reflexivity | rewrite <- Hst; simpl; auto].
      - pose proof (changeState_same sc) as Hsame. rewrite <- Hst in Hsame.
        rewrite Hsame. simpl.
        rewrite Hst. destruct (getStates sc) as [sa st] eqn:Eg. simpl in Hst. subst st.
        simpl. rewrite <- Eg. now rewrite setStates_getStates. }
    set (w1 := putStep c (setStates (mkPair (status (getStates sc)) SKIPPED) sc) w) in *.
    destruct (IH w1) as [w' [Hfor [Hfs [Hin Hout]]]].
    { intros c' Hc'. destruct (String.eqb c c') eqn:E.
      - apply String.eqb_eq in E. subst c'. eexists. split.
        + apply asStep_putStep_same.
        + rewrite getStates_setStates. simpl. auto.
      - apply String.eqb_neq in E. unfold w1. rewrite prop_putStep_other by exact E.
        apply Hall. now right. }
    exists w'. split; [| split; [| split]].
    + simpl forEach. run_with ltac:(exact Hrun). exact Hfor.
    + rewrite Hfs. reflexivity.
    + intros k [<- | Hk]; [| now apply Hin].
      destruct (in_dec string_dec c l) as [Hcl | Hcl]; [now apply Hin |].
      rewrite (Hout c Hcl). eexists. split.
      * apply asStep_putStep_same.
      * now rewrite getStates_setStates.
    + intros k Hk. rewrite Hout.
      * apply prop_putStep_other. intros ->. apply Hk. now left.
      * intros Hkl. apply Hk. now right.
Qed.

(** C1, as stated, fails: in the flow A -> B -> C, when the failure of A
    becomes permanent its child B is skipped, but C, a descendant of A through
    B, keeps the state NOT_STARTED (and is later invoked). *)
Lemma setStepFailure_leaves_grandchildren :
  ~ (forall (w : World) (step : string) (s : TransactionStep) (error : Value),
        asStep (prop (steps (getFlow w)) step) = Some s ->
        isCompensating s = false ->
        flow_state (getFlow w) = INVOKING ->
        continueOnPermanentFailure (definition s) = true ->
        gtNumber (S (failures s)) (retriesOf (maxRetries (definition s))) = true ->
        forall d, descendant (getFlow w) step d ->
          exists sd,
            asStep (prop (steps (getFlow
                      (snd (setStepFailure step error (maxRetries (definition s)) w)))) d)
            = Some sd
            /\ state (getStates sd) = SKIPPED).
Proof.
  intros H.
  destruct (H worldABC_dispatched "_root.A" (stepOf worldABC_dispatched "_root.A") "Error"
              eq_refl eq_refl eq_refl eq_refl eq_refl "_root.A.B.C")
    as [sd [Hsd Hst]].
  - apply desc_trans with (c := "_root.A.B").
    + apply desc_child with (e := Full (stepOf worldABC_dispatched "_root.A"));
        [reflexivity | simpl; auto].
    + apply desc_child with (e := Full (stepOf worldABC_dispatched "_root.A.B"));
        [reflexivity | simpl; auto].
  - vm_compute in Hsd. injection Hsd as <-. discriminate Hst.
Qed.

(** C1, amended: for every flow in state INVOKING and every dispatched step
    (waiting, in state INVOKING, not compensating) whose definition has
    [continueOnPermanentFailure] set and whose failure becomes permanent
    ([failures > maxRetries]), every direct child of that step (each id in its
    [next], all of which are still NOT_STARTED or already SKIPPED) has its
    state set to SKIPPED, the step itself becomes FAILED with status
    PERMANENT_FAILURE, and the flow stays INVOKING instead of entering
    WAITING_TO_COMPENSATE. *)
Theorem setStepFailure_skips_children (w : World) (step : string) (s : TransactionStep)
        (error : Value) (retries : option JsNumber) :
  asStep (prop (steps (getFlow w)) step) = Some s ->
  isCompensating s = false ->
  status (getStates s) = WAITING ->
  state (getStates s) = INVOKING ->
  flow_state (getFlow w) = INVOKING ->
  continueOnPermanentFailure (definition s) = true ->
  gtNumber (S (failures s)) (retriesOf retries) = true ->
  (forall c, In c (next s) ->
     exists sc, asStep (prop (steps (getFlow w)) c) = Some sc
                /\ In (state (getStates sc)) [NOT_STARTED; SKIPPED]) ->
  exists w',
    setStepFailure step error retries w = (Returned tt, w')
    /\ flow_state (getFlow w') = INVOKING
    /\ (forall c, In c (next s) ->
          exists sc, asStep (prop (steps (getFlow w')) c) = Some sc
                     /\ state (getStates sc) = SKIPPED)
    /\ exists s', asStep (prop (steps (getFlow w')) step) = Some s'
                  /\ state (getStates s') = FAILED
                  /\ status (getStates s') = PERMANENT_FAILURE
                  /\ failures s' = S (failures s).
Proof.
  intros Hs Hnc Hsta Hst Hfs Hcont Hperm Hchildren.
  set (s1 := set_failures (S (failures s)) s).
  set (s2 := setStates (mkPair TEMPORARY_FAILURE (state (getStates s1))) s1).
  set (s3 := setStates (mkPair (status (getStates s2)) FAILED) s2).
  set (s4 := setStates (mkPair PERMANENT_FAILURE (state (getStates s3))) s3).
  assert (Hg1 : getStates s1 = getStates s) by reflexivity.
  assert (Hg2 : getStates s2 = mkPair TEMPORARY_FAILURE INVOKING).
  { unfold s2. rewrite getStates_setStates, Hg1, Hst. reflexivity. }
  assert (Hg3 : getStates s3 = mkPair TEMPORARY_FAILURE FAILED).
  { unfold s3. rewrite getStates_setStates, Hg2. reflexivity. }
  assert (Hg4 : getStates s4 = mkPair PERMANENT_FAILURE FAILED).
  { unfold s4. rewrite getStates_setStates, Hg3. reflexivity. }
  assert (Hfields : failures s4 = S (failures s) /\ next s4 = next s
                    /\ definition s4 = definition s /\ isCompensating s4 = false).
  { unfold s4, s3, s2, s1, setStates, isCompensating in *.
    destruct s as [sf i d inv cmp n dp la at_ fl fr rs]; simpl in *. subst sf. simpl.
    repeat split. }
  destruct Hfields as [Hf4 [Hn4 [Hd4 Hc4]]].
  set (w4 := putStep step s4 w).
  set (w5 := set_transaction (addError (action (definition s4)) (handlerTypeOf s4) error
                                       (transaction w4)) w4).
  assert (Hsteps5 : steps (getFlow w5) = steps (getFlow w4)) by reflexivity.
  destruct (skip_children_run (next s) w5) as [w' [Hfor [Hfs' [Hin Hout]]]].
  { intros c Hc. rewrite Hsteps5. unfold w4.
    destruct (Hchildren c Hc) as [sc [Hsc Hstc]].
    destruct (String.eqb step c) eqn:E.
    - apply String.eqb_eq in E. subst c. rewrite Hs in Hsc. injection Hsc as <-.
      rewrite Hst in Hstc. destruct Hstc as [Hx | [Hx | []]]; discriminate Hx.
    - apply String.eqb_neq in E. rewrite prop_putStep_other by exact E.
      exists sc. split; assumption. }
  exists w'. split; [| split; [| split]].
  - unfold setStepFailure.
    run_with ltac:(apply (onStep_returned _ _ _ s s1 tt Hs); reflexivity).
    run_with ltac:(apply (onStep_returned _ _ _ s1 s2 tt (asStep_putStep_same _ _ _));
                   apply changeStatus_allowed; rewrite Hg1, Hsta; simpl; auto).
    rewrite putStep_putStep.
    run_with ltac:(apply stepAt_run; apply asStep_putStep_same).
    assert (Hlt : gtNumber (failures s2) (retriesOf retries) = true).
    { unfold s2. rewrite failures_setStates. exact Hperm. }
    rewrite Hlt.
    run_with ltac:(apply (onStep_returned _ _ _ s2 s3 tt (asStep_putStep_same _ _ _));
                   apply changeState_allowed; rewrite Hg2; simpl; auto).
    rewrite putStep_putStep.
    run_with ltac:(apply (onStep_returned _ _ _ s3 s4 tt (asStep_putStep_same _ _ _));
                   apply changeStatus_allowed; rewrite Hg3; simpl; auto).
    rewrite putStep_putStep. fold w4.
    run_with ltac:(apply stepAt_run; apply asStep_putStep_same).
    run_with ltac:(reflexivity).
    fold w5. rewrite Hc4, Hd4, Hcont, Hn4. simpl negb. cbv iota.
    exact Hfor.
  - rewrite Hfs'. exact Hfs.
  - exact Hin.
  - exists s4. split; [| split; [| split]].
    + rewrite Hout.
      * rewrite Hsteps5. apply asStep_putStep_same.
      * intros Hself. destruct (Hchildren step Hself) as [sc [Hsc Hstc]].
        rewrite Hs in Hsc. injection Hsc as <-.
        rewrite Hst in Hstc. destruct Hstc as [Hx | [Hx | []]]; discriminate Hx.
    + now rewrite Hg4.
    + now rewrite Hg4.
    + exact Hf4.
Qed.

Lemma setStepFailure_skips_children_witness :
  exists w',
    setStepFailure "_root.A" "Error" (Some (numberOf 0)) worldABC_dispatched
    = (Returned tt, w')
    /\ flow_state (getFlow w') = INVOKING
    /\ (forall c, In c ["_root.A.B"] ->
          exists sc, asStep (prop (steps (getFlow w')) c) = Some sc
                     /\ state (getStates sc) = SKIPPED).
Proof.
  destruct (setStepFailure_skips_children worldABC_dispatched "_root.A"
              (stepOf worldABC_dispatched "_root.A") "Error" (Some (numberOf 0))
              eq_refl eq_refl eq_refl eq_refl eq_refl eq_refl eq_refl)
    as [w' [Hrun [Hfs [Hin _]]]].
  - intros c [<- | []]. eexists. split; [reflexivity | simpl; auto].
  - exists w'. split; [exact Hrun |]. split; [exact Hfs | exact Hin].
Defined.

(** What becomes of the grandchild: in the whole run of A -> B -> C, once A
    has failed for good B is skipped and never invoked, and C, which only
    waits for B to be settled, is invoked and completes. *)
Lemma resume_invokes_grandchild :
  exists w',
    resume handlerA_fails (fun n => n) 9 (worldOf "model" flowABC_continue "tx")
    = (Returned tt, w')
    /\ countCalls "B" INVOKE (calls w') = 0
    /\ countCalls "C" INVOKE (calls w') = 1
    /\ state (getStates (stepOf w' "_root.A")) = FAILED
    /\ state (getStates (stepOf w' "_root.A.B")) = SKIPPED
    /\ state (getStates (stepOf w' "_root.A.B.C")) = DONE
    /\ getState (transaction w') = DONE.
Proof.
  eexists. split; [vm_compute; reflexivity |]. repeat split.
Qed.

(** ** Retry, then compensate (C4) *)

(** C4: in the flow A -> B with the default retry policy, where the
    invocation of B always throws and every other call of the handler
    succeeds, [resume] runs to completion: the handler is called once to
    invoke A, four times to invoke B, once to compensate A and once to
    compensate B, and the flow ends REVERTED. *)
Theorem retry_then_compensate (dateNow : nat -> nat) (resp : option Value) (errB : Value) :
  exists fuel w',
    resume (handlerAB resp errB) dateNow fuel worldAB = (Returned tt, w')
    /\ countCalls "A" INVOKE (calls w') = 1
    /\ countCalls "B" INVOKE (calls w') = 1 + DEFAULT_RETRIES
    /\ countCalls "A" COMPENSATE (calls w') = 1
    /\ countCalls "B" COMPENSATE (calls w') = 1
    /\ getState (transaction w') = REVERTED.
Proof.
  exists 9. eexists. split; [vm_compute; reflexivity |].
  repeat split.
Qed.

(** ** Rehydration from existing steps (C6) *)

Lemma bind_preserves {S A B} (P : S -> Prop) (m : M S A) (k : A -> M S B) (s : S) :
  P s ->
  (forall s0, P s0 -> P (snd (m s0))) ->
  (forall a s0, P s0 -> P (snd (k a s0))) ->
  P (snd (bind m k s)).
Proof.
  intros Hs Hm Hk. unfold bind. specialize (Hm s Hs).
  destruct (m s) as [[a | e |] s']; simpl in *; auto.
Qed.

Lemma set_next_set_next (n n' : list string) (s : TransactionStep) :
  set_next n' (set_next n s) = set_next n' s.
Proof. reflexivity. Qed.

Lemma pushNext_preserves (existing0 : Obj TransactionStep) (parent i : string)
      (b : BuildState) :
  buildInv existing0 b -> buildInv existing0 (snd (pushNext parent i b)).
Proof.
  intros [I1 [I3 I2]]. unfold pushNext.
  destruct (prop (states b) parent) as [[r n | s] |] eqn:Ep; unfold buildInv; simpl.
  - split; [exact I1 | split; [exact I3 |]].
    intros k s' old Hk Hold.
    destruct (String.eqb parent k) eqn:E.
    + apply String.eqb_eq in E. subst k. rewrite prop_assign_same in Hk. discriminate Hk.
    + apply String.eqb_neq in E. rewrite prop_assign_other in Hk by exact E.
      now apply (I2 k s' old).
  - destruct (prop (existingSteps b) parent) as [old' |] eqn:Eo; simpl.
    + split; [| split].
      * intros k old Hold. destruct (String.eqb parent k) eqn:E.
        -- apply String.eqb_eq in E. subst k. rewrite prop_assign_same.
           destruct (I1 parent old Hold) as [added Ha].
           rewrite Ha in Eo. injection Eo as <-.
           exists (added ++ [i]). simpl. now rewrite <- app_assoc.
        -- apply String.eqb_neq in E. rewrite prop_assign_other by exact E.
           now apply I1.
      * intros k Hnone. destruct (String.eqb parent k) eqn:E.
        -- apply String.eqb_eq in E. subst k. rewrite (I3 parent Hnone) in Eo.
           discriminate Eo.
        -- apply String.eqb_neq in E. rewrite prop_assign_other by exact E.
           now apply I3.
      * intros k s' old Hk Hold. destruct (String.eqb parent k) eqn:E.
        -- apply String.eqb_eq in E. subst k. rewrite prop_assign_same in Hk.
           injection Hk as <-. rewrite prop_assign_same.
           rewrite (I2 parent s old Ep Hold) in Eo. now injection Eo as <-.
        -- apply String.eqb_neq in E.
           rewrite prop_assign_other in Hk by exact E.
           rewrite prop_assign_other by exact E.
           now apply (I2 k s' old).
    + split; [exact I1 | split; [exact I3 |]].
      intros k s' old Hk Hold. destruct (String.eqb parent k) eqn:E.
      * apply String.eqb_eq in E. subst k.
        rewrite (I2 parent s old Ep Hold) in Eo. discriminate Eo.
      * apply String.eqb_neq in E. rewrite prop_assign_other in Hk by exact E.
        now apply (I2 k s' old).
  - split; [exact I1 | split; [exact I3 | exact I2]].
Qed.

Lemma registerAction_preserves (existing0 : Obj TransactionStep) (a : string)
      (p : StepPolicy) (level : list string) (b : BuildState) :
  buildInv existing0 b -> buildInv existing0 (snd (registerAction a p level b)).
Proof.
  intros Hb. unfold registerAction.
  apply bind_preserves; [exact Hb | intros s0 H; exact H |].
  intros b0 s0 Hs0.
  destruct (existsb (String.eqb a) (actionNames b0)); [exact Hs0 |].
  apply bind_preserves; [exact Hs0 | |].
  { intros s1 [I1 [I3 I2]]. unfold buildInv; simpl.
    split; [exact I1 | split; [exact I3 | exact I2]]. }
  intros _ s1 Hs1.
  apply bind_preserves; [exact Hs1 | intros s2 H2; now apply pushNext_preserves |].
  intros _ s2 [I1 [I3 I2]]. unfold buildInv; simpl.
  split; [exact I1 | split; [exact I3 |]].
  intros k s' old Hk Hold.
  destruct (String.eqb (join "." (level ++ [a])) k) eqn:E.
  - apply String.eqb_eq in E. subst k. rewrite prop_assign_same in Hk.
    injection Hk as <-. destruct (I1 _ old Hold) as [added Ha]. now rewrite Ha.
  - apply String.eqb_neq in E. rewrite prop_assign_other in Hk by exact E.
    now apply (I2 k s' old).
Qed.

Lemma visitAction_preserves (existing0 : Obj TransactionStep) (p : StepPolicy)
      (level : list string) (b : BuildState) :
  buildInv existing0 b -> buildInv existing0 (snd (visitAction p level b)).
Proof.
  intros Hb. unfold visitAction. destruct (action p) as [a |]; [| exact Hb].
  apply bind_preserves; [exact Hb | | intros _ s1 H1; exact H1].
  intros s1 H1. now apply registerAction_preserves.
Qed.

Lemma visit_preserves (existing0 : Obj TransactionStep) (it : QueueItem) (b : BuildState) :
  buildInv existing0 b -> buildInv existing0 (snd (visit it b)).
Proof.
  intros Hb. destruct it as [[d | ds] level]; simpl; [| exact Hb].
  apply bind_preserves; [exact Hb | |].
  - intros s0 Hs0. now apply visitAction_preserves.
  - intros level' s0 Hs0. now destruct d.
Qed.

Lemma buildLoop_preserves (existing0 : Obj TransactionStep) (fuel : nat) :
  forall (queue : list QueueItem) (b : BuildState),
    buildInv existing0 b -> buildInv existing0 (snd (buildLoop fuel queue b)).
Proof.
  induction fuel as [| fuel IH]; intros queue b Hb; destruct queue as [| it rest]; simpl;
    try exact Hb.
  apply bind_preserves; [exact Hb | intros s0 H0; now apply visit_preserves |].
  intros pushed s0 H0. now apply IH.
Qed.

Lemma initialBuild_inv (existing : Obj TransactionStep) :
  buildInv existing (initialBuild (Some existing)).
Proof.
  unfold buildInv, initialBuild. cbn [states existingSteps prop].
  split; [| split].
  - intros k old Hold. exists []. rewrite app_nil_r.
    rewrite Hold. f_equal. now destruct old.
  - intros k Hk. exact Hk.
  - intros k s' old Hk. destruct (String.eqb ROOT_STEP k); discriminate Hk.
Qed.

(** The loop of [buildSteps] ends: each turn takes one unit of the weight of
    the queue. *)
Lemma queueWeight_app (q1 q2 : list QueueItem) :
  queueWeight (q1 ++ q2) = queueWeight q1 + queueWeight q2.
Proof.
  unfold queueWeight. induction q1 as [| it q1 IH]; simpl; [reflexivity |].
  rewrite IH. lia.
Qed.

Lemma queueWeight_array (ds : list TransactionStepsDefinition) (level : list string) :
  queueWeight (map (fun d => (QDef d, level)) ds)
  = fold_right (fun d acc => weight d + acc) 0 ds.
Proof.
  unfold queueWeight. induction ds as [| d ds IH]; simpl; [reflexivity |].
  now rewrite IH.
Qed.

Lemma registerAction_outcome (a : string) (p : StepPolicy) (level : list string)
      (b : BuildState) :
  fst (registerAction a p level b) <> OutOfFuel.
Proof.
  unfold registerAction, bind, get, modify, throw, pushNext. simpl.
  destruct (existsb (String.eqb a) (actionNames b)); simpl; [discriminate |].
  destruct (prop (states b) (join "." level)) as [[r n | s] |]; simpl; discriminate.
Qed.

Lemma visitAction_outcome (p : StepPolicy) (level : list string) (b : BuildState) :
  fst (visitAction p level b) <> OutOfFuel.
Proof.
  unfold visitAction. destruct (action p) as [a |]; [| discriminate].
  unfold bind. pose proof (registerAction_outcome a p level b) as Hr.
  destruct (registerAction a p level b) as [[[] | e |] b']; simpl in *;
    try discriminate. congruence.
Qed.

Lemma visit_outcome (it : QueueItem) (b : BuildState) :
  match fst (visit it b) with
  | Returned pushed => S (queueWeight pushed) = itemWeight it
  | Thrown _ => True
  | OutOfFuel => False
  end.
Proof.
  destruct it as [[d | ds] level]; cbn [visit].
  - unfold bind. pose proof (visitAction_outcome (policy_of d) level b) as Hv.
    destruct (visitAction (policy_of d) level b) as [[level' | e |] b']; simpl in Hv.
    + destruct d as [p | p n | p ns]; unfold itemWeight, queueWeight; simpl;
        unfold itemWeight; simpl; lia.
    + exact I.
    + congruence.
  - unfold itemWeight. simpl. now rewrite queueWeight_array.
Qed.

Lemma buildLoop_terminates (fuel : nat) :
  forall (queue : list QueueItem) (b : BuildState),
    queueWeight queue <= fuel -> fst (buildLoop fuel queue b) <> OutOfFuel.
Proof.
  induction fuel as [| fuel IH]; intros queue b Hw; destruct queue as [| it rest]; simpl;
    try discriminate.
  - pose proof (visit_outcome it b) as Hv. unfold queueWeight in Hw. simpl in Hw.
    destruct (fst (visit it b)); [lia | |]; try lia.
    unfold itemWeight in Hw. destruct it as [[[p | p n | p ns] | ds] level]; simpl in Hw; lia.
  - pose proof (visit_outcome it b) as Hv. unfold bind.
    destruct (visit it b) as [[pushed | e |] b']; simpl in *; try discriminate.
    + apply IH. rewrite queueWeight_app. unfold queueWeight in Hw. simpl in Hw.
      fold (queueWeight rest) in Hw. lia.
    + contradiction.
Qed.

Lemma buildSteps_terminates (d : TransactionStepsDefinition)
      (existing : option (Obj TransactionStep)) :
  buildSteps d existing <> OutOfFuel.
Proof.
  unfold buildSteps.
  pose proof (buildLoop_terminates (queueWeight [(QDef d, [ROOT_STEP])])
                [(QDef d, [ROOT_STEP])] (initialBuild existing) (le_n _)) as H.
  destruct (buildLoop (queueWeight [(QDef d, [ROOT_STEP])]) [(QDef d, [ROOT_STEP])]
                      (initialBuild existing)) as [[[] | e |] b]; simpl in *;
    try discriminate. congruence.
Qed.

(** C6, as stated, fails: [flowA] rebuilt over a table that holds A as an
    older definition left it (nine retries) keeps that older [definition]; it
    is not recomputed from the definition being built, as a build from
    scratch computes it. *)
Lemma buildSteps_keeps_existing_definition :
  ~ (forall (d : TransactionStepsDefinition) (existing : Obj TransactionStep)
            (st : Obj StepEntry) (k : string) (old rebuilt : TransactionStep),
        buildSteps d (Some existing) = Returned st ->
        prop existing k = Some old ->
        prop st k = Some (Full rebuilt) ->
        exists (st0 : Obj StepEntry) (fresh : TransactionStep),
          buildSteps d None = Returned st0
          /\ prop st0 k = Some (Full fresh)
          /\ id rebuilt = id fresh /\ depth rebuilt = depth fresh
          /\ next rebuilt = next fresh /\ definition rebuilt = definition fresh).
Proof.
  intros H.
  destruct (H flowA [("_root.A", checkpointedA)]
              [("_root", Bare "_root" ["_root.A"]); ("_root.A", Full checkpointedA)]
              "_root.A" checkpointedA checkpointedA eq_refl eq_refl eq_refl)
    as [st0 [fresh [Hb [Hk [_ [_ [_ Hdef]]]]]]].
  vm_compute in Hb. injection Hb as <-.
  vm_compute in Hk. injection Hk as <-.
  discriminate Hdef.
Qed.

(** C6, amended: for every definition and every existing step table given to
    [buildSteps], the rebuilt step for an id present in the existing table is
    the existing step with all its attributes: the states and statuses, the
    attempts, failures, lastAttempt and response, and also id, depth and
    definition, which are not recomputed; only its [next] list may have ids
    added after the existing ones. *)
Theorem buildSteps_keeps_existing_step (d : TransactionStepsDefinition)
        (existing : Obj TransactionStep) :
  buildSteps d (Some existing) <> OutOfFuel
  /\ forall (st : Obj StepEntry) (k : string) (old rebuilt : TransactionStep),
      buildSteps d (Some existing) = Returned st ->
      prop existing k = Some old ->
      prop st k = Some (Full rebuilt) ->
      exists added, rebuilt = set_next (next old ++ added) old.
Proof.
  split; [apply buildSteps_terminates |].
  intros st k old rebuilt Hbuild Hold Hk. unfold buildSteps in Hbuild.
  pose proof (buildLoop_preserves existing
                (queueWeight [(QDef d, [ROOT_STEP])]) [(QDef d, [ROOT_STEP])]
                (initialBuild (Some existing)) (initialBuild_inv existing)) as [I1 [_ I2]].
  destruct (buildLoop (queueWeight [(QDef d, [ROOT_STEP])]) [(QDef d, [ROOT_STEP])]
                      (initialBuild (Some existing))) as [[[] | e |] b];
    try discriminate Hbuild.
  injection Hbuild as <-. simpl in I1, I2.
  destruct (I1 k old Hold) as [added Ha].
  exists added. rewrite (I2 k rebuilt old Hk Hold) in Ha. now injection Ha.
Qed.

Lemma buildSteps_keeps_existing_step_witness :
  exists added, checkpointedA = set_next (next checkpointedA ++ added) checkpointedA.
Proof.
  apply (proj2 (buildSteps_keeps_existing_step flowA [("_root.A", checkpointedA)])
           [("_root", Bare "_root" ["_root.A"]); ("_root.A", Full checkpointedA)]
           "_root.A" checkpointedA checkpointedA); reflexivity.
Defined.

(** The ids pushed during the build come after those the existing step
    already lists: [flowAB] rebuilt over its own steps lists B twice under
    A. *)
Lemma buildSteps_extends_existing_next :
  exists st,
    buildSteps flowAB (Some [("_root.A", stepOf worldAB "_root.A");
                             ("_root.A.B", stepOf worldAB "_root.A.B")])
    = Returned st
    /\ next (stepOf worldAB "_root.A") = ["_root.A.B"]
    /\ option_map next (asStep (prop st "_root.A")) = Some ["_root.A.B"; "_root.A.B"].
Proof.
  eexists. split; [vm_compute; reflexivity |]. split; reflexivity.
Qed.

(** ** The retry invariant (C2) *)

(** The comparison [failures > maxRetries] of [setStepFailure], made after
    [failures++], in terms of the limit. *)
Lemma gtNumber_Finite (f : nat) (q : Q) :
  gtNumber (S f) (Finite q) = (Z.to_nat (Qfloor q) <? S f).
Proof.
  unfold gtNumber.
  destruct (Qle_bool (inject_Z (Z.of_nat (S f))) q) eqn:E; simpl; symmetry.
  - apply Qle_bool_iff in E. apply Qfloor_resp_le in E. rewrite Qfloor_Z in E.
    apply Nat.ltb_ge. lia.
  - apply Nat.ltb_lt.
    destruct (Z_lt_le_dec (Qfloor q) (Z.of_nat (S f))) as [H | H]; [lia |].
    exfalso.
    assert (Hq : (inject_Z (Z.of_nat (S f)) <= q)%Q).
    { apply Qle_trans with (inject_Z (Qfloor q)); [| apply Qfloor_le].
      rewrite <- Zle_Qle. exact H. }
    apply Qle_bool_iff in Hq. congruence.
Qed.

Lemma retryLimit_numberOf (n : nat) : retryLimit (Some (numberOf n)) = Some n.
Proof. unfold retryLimit, numberOf. now rewrite Qfloor_Z, Nat2Z.id. Qed.

Lemma gtNumber_limit (m : option JsNumber) (f : nat) :
  gtNumber (S f) (retriesOf m)
  = match retryLimit m with
    | Some r => r <? S f
    | None => false
    end.
Proof.
  destruct m as [[q | | |] |]; try reflexivity.
  - apply gtNumber_Finite.
  - unfold retriesOf, numberOf. rewrite gtNumber_Finite.
    now rewrite Qfloor_Z, Nat2Z.id.
Qed.

Lemma retryInv_launched (t : nat) (fs : TransactionState) (s : TransactionStep) :
  retryInv s -> ready fs s -> status (getStates s) <> WAITING ->
  retryInv (launched t fs s) /\ status (getStates (launched t fs s)) = WAITING.
Proof.
  unfold retryInv, ready, launched, within, justOver, phaseState, getStates, setStates,
    isCompensating.
  destruct s as [sf i d [ist isa] [cst csa] n dp la at_ fl fr rs]; simpl.
  intros [Hc Hv] Hr Hnw.
  destruct sf; simpl in *.
  - destruct cst; try contradiction; simpl in *;
      destruct Hr as [Hr | [Hr [Hr' | Hr']]]; try discriminate; subst; simpl in *;
        try (destruct Hv as [Hv1 [Hv2 Hv3]]; try discriminate; subst; simpl);
        try (destruct Hv3; discriminate);
        try (destruct Hv as [Hv1 Hv2]; subst);
        repeat split; try discriminate; auto;
        try (destruct (retryLimit (maxRetries d)); auto; lia).
  - destruct ist; try contradiction; simpl in *;
      destruct Hr as [Hr | [Hr [Hr' | Hr']]]; try discriminate; subst; simpl in *;
        try (destruct Hv as [Hv1 [Hv2 Hv3]]; try discriminate; subst; simpl);
        try (destruct Hv3; discriminate);
        try (destruct Hv as [Hv1 Hv2]; subst);
        repeat split; try discriminate; auto;
        try (destruct (retryLimit (maxRetries d)); auto; lia).
Qed.

Lemma retryInv_succeeded (r : option Value) (s : TransactionStep) :
  retryInv s -> status (getStates s) = WAITING -> retryInv (succeeded r s).
Proof.
  unfold retryInv, succeeded, within, justOver, phaseState, getStates, setStates,
    isCompensating, saveResponse.
  destruct s as [sf i d [ist isa] [cst csa] n dp la at_ fl fr rs]; simpl.
  intros [Hc Hv] Hw.
  destruct sf, fr; simpl in *; subst; simpl in *;
    destruct Hv as [Hv1 [Hv2 Hv3]]; repeat split; auto; try discriminate.
Qed.

Lemma retryInv_failed (s : TransactionStep) :
  retryInv s -> status (getStates s) = WAITING -> retryInv (failed s).
Proof.
  unfold retryInv, failed, within, justOver, phaseState, getStates, setStates,
    isCompensating.
  destruct s as [sf i d [ist isa] [cst csa] n dp la at_ fl fr rs].
  cbn -[gtNumber retriesOf retryLimit Nat.leb Nat.ltb].
  rewrite gtNumber_limit. intros [Hc Hv] Hw.
  destruct (retryLimit (maxRetries d)) as [lim |] eqn:El.
  - destruct (lim <? S fl) eqn:E;
      [apply Nat.ltb_lt in E | apply Nat.ltb_ge in E];
      destruct sf; cbn -[retryLimit] in *; subst; cbn -[retryLimit] in *;
        rewrite ?El; destruct Hv as [Hv1 [Hv2 Hv3]]; repeat split; auto;
          try discriminate; lia.
  - destruct sf; cbn -[retryLimit] in *; subst; cbn -[retryLimit] in *;
      rewrite ?El; destruct Hv as [Hv1 [Hv2 Hv3]]; repeat split; auto; discriminate.
Qed.

Lemma asStep_Some (o : option StepEntry) (s : TransactionStep) :
  asStep o = Some s <-> o = Some (Full s).
Proof.
  destruct o as [[i n | s'] |]; simpl; split; intros H; try discriminate; congruence.
Qed.

Lemma keys_putStep (k : string) (s s' : TransactionStep) (w : World) :
  asStep (prop (steps (getFlow w)) k) = Some s ->
  keys (steps (getFlow (putStep k s' w))) = keys (steps (getFlow w)).
Proof.
  intros H. unfold putStep, getFlow. simpl. apply keys_assign_present.
  apply asStep_Some in H. unfold getFlow in H. rewrite H. discriminate.
Qed.

Lemma sameShape_refl (w : World) : sameShape w w.
Proof. split; reflexivity. Qed.

Lemma sameShape_trans (w1 w2 w3 : World) :
  sameShape w1 w2 -> sameShape w2 w3 -> sameShape w1 w3.
Proof. intros [H1 H2] [H3 H4]. split; congruence. Qed.

Lemma sameShape_putStep (k : string) (s s' : TransactionStep) (w : World) :
  asStep (prop (steps (getFlow w)) k) = Some s -> sameShape w (putStep k s' w).
Proof. intros H. split; [reflexivity | now apply (keys_putStep k s)]. Qed.

Lemma wellFormed_sameShape (w w' : World) :
  sameShape w w' -> wellFormed w -> wellFormed w'.
Proof.
  intros [Ho Hk] [H1 [H2 [H3 H4]]]. unfold wellFormed. rewrite Ho, Hk. auto.
Qed.

Lemma sameOrSkipped_refl (w : World) (k : string) : sameOrSkipped w w k.
Proof. now left. Qed.

Lemma state_skipped (s : TransactionStep) : state (getStates (skipped s)) = SKIPPED.
Proof. unfold skipped. now rewrite getStates_setStates. Qed.

Lemma sameOrSkipped_trans (w1 w2 w3 : World) (k : string) :
  sameOrSkipped w1 w2 k -> sameOrSkipped w2 w3 k -> sameOrSkipped w1 w3 k.
Proof.
  intros [H1 | [s [Hs [Hst H1]]]] [H2 | [s' [Hs' [Hst' H2]]]].
  - left. congruence.
  - right. exists s'. rewrite H1 in Hs'. auto.
  - right. exists s. rewrite H2. auto.
  - rewrite H1 in Hs'. injection Hs' as <-. rewrite state_skipped in Hst'. discriminate.
Qed.

(** One child: [child.changeState(SKIPPED)], whatever its outcome. *)
Lemma skip_child_effect (c : string) (w : World) :
  let w' := snd (onStep c (changeState SKIPPED) w) in
  sameShape w w'
  /\ flow_state (getFlow w') = flow_state (getFlow w)
  /\ forall k, sameOrSkipped w w' k.
Proof.
  destruct (asStep (prop (steps (getFlow w)) c)) as [s |] eqn:Es.
  - rewrite (onStep_run c _ w s Es). simpl.
    split; [now apply (sameShape_putStep c s) |]. split; [reflexivity |].
    intros k. destruct (String.eqb c k) eqn:E.
    + apply String.eqb_eq in E. subst k. apply asStep_Some in Es.
      unfold changeState.
      destruct (state_eqb (state (getStates s)) SKIPPED
                || includes (allowedState (state (getStates s))) SKIPPED) eqn:Eb; simpl.
      * destruct (state (getStates s)) eqn:Est; simpl in Eb; try discriminate.
        -- right. exists s. split; [exact Es |]. split; [exact Est |].
           unfold putStep, getFlow. simpl. rewrite prop_assign_same.
           unfold skipped. reflexivity.
        -- left. unfold putStep, getFlow. simpl. rewrite prop_assign_same.
           fold (getFlow w). rewrite Es. do 2 f_equal.
           rewrite <- Est. destruct (getStates s) as [sa st] eqn:Eg. simpl.
           rewrite <- Eg. apply setStates_getStates.
      * left. unfold putStep, getFlow. simpl. rewrite prop_assign_same.
        fold (getFlow w). now rewrite Es.
    + apply String.eqb_neq in E. left. now apply prop_putStep_other.
  - unfold onStep. rewrite Es. simpl.
    split; [apply sameShape_refl |]. split; [reflexivity |]. intros k. now left.
Qed.

Lemma skip_children_effect (l : list string) :
  forall w : World,
    let w' := snd (forEach (fun c => onStep c (changeState SKIPPED)) l w) in
    sameShape w w'
    /\ flow_state (getFlow w') = flow_state (getFlow w)
    /\ forall k, sameOrSkipped w w' k.
Proof.
  induction l as [| c l IH]; intros w; simpl.
  - split; [apply sameShape_refl |]. split; [reflexivity |]. intros k. now left.
  - unfold bind. pose proof (skip_child_effect c w) as [Hs [Hf Hk]].
    destruct (onStep c (changeState SKIPPED) w) as [[[] | e |] w1]; simpl in *;
      try (split; [exact Hs | split; [exact Hf | exact Hk]]).
    destruct (IH w1) as [Hs' [Hf' Hk']].
    split; [now apply (sameShape_trans w w1) |]. split; [congruence |].
    intros k. now apply (sameOrSkipped_trans w w1).
Qed.

Lemma setStates_setStates (p p' : StatePair) (s : TransactionStep) :
  setStates p' (setStates p s) = setStates p' s.
Proof.
  unfold setStates, isCompensating.
  destruct s as [sf i d inv cmp n dp la at_ fl fr rs]. destruct sf; reflexivity.
Qed.

Lemma isCompensating_setStates (p : StatePair) (s : TransactionStep) :
  isCompensating (setStates p s) = isCompensating s.
Proof. unfold isCompensating. apply setStates_frame. Qed.

(** The settlement of a resolved promise, for a step that waits in its
    phase. *)
Lemma setStepSuccess_pending (k : string) (r : option Value) (w : World)
      (s : TransactionStep) :
  asStep (prop (steps (getFlow w)) k) = Some s ->
  status (getStates s) = WAITING ->
  state (getStates s) = phaseState s ->
  setStepSuccess k r w = (Returned tt, putStep k (succeeded r s) w).
Proof.
  intros Hs Hsta Hst. unfold setStepSuccess, succeeded.
  run_with ltac:(apply stepAt_run; exact Hs).
  set (s1 := if forwardResponse s then saveResponse r s else s).
  assert (Hg1 : getStates s1 = getStates s) by (unfold s1; now destruct (forwardResponse s)).
  assert (Hc1 : isCompensating s1 = isCompensating s)
    by (unfold s1; now destruct (forwardResponse s)).
  assert (Hw1 : exists w1,
             (if forwardResponse s then onStep k (modify (saveResponse r)) else ret tt) w
             = (Returned tt, w1)
             /\ asStep (prop (steps (getFlow w1)) k) = Some s1
             /\ forall s', putStep k s' w1 = putStep k s' w).
  { unfold s1. destruct (forwardResponse s).
    - exists (putStep k (saveResponse r s) w). split; [| split].
      + apply (onStep_returned k _ w s _ tt Hs). reflexivity.
      + apply asStep_putStep_same.
      + intros s'. apply putStep_putStep.
    - exists w. split; [reflexivity | split; [exact Hs | reflexivity]]. }
  destruct Hw1 as [w1 [Hrun1 [Hs1 Hput1]]].
  run_with ltac:(exact Hrun1).
  set (s2 := setStates (mkPair OK (state (getStates s1))) s1).
  run_with ltac:(apply (onStep_returned k _ w1 s1 s2 tt Hs1);
                 apply changeStatus_allowed; rewrite Hg1, Hsta; simpl; auto).
  rewrite Hput1.
  run_with ltac:(apply stepAt_run; apply asStep_putStep_same).
  assert (Hg2 : getStates s2 = mkPair OK (phaseState s)).
  { unfold s2. rewrite getStates_setStates, Hg1, Hst. reflexivity. }
  assert (Hc2 : isCompensating s2 = isCompensating s).
  { unfold s2. now rewrite isCompensating_setStates. }
  rewrite Hc2. unfold phaseState in Hg2.
  destruct (isCompensating s) eqn:Ec.
  - rewrite (onStep_returned k _ _ s2 (setStates (mkPair OK REVERTED) s2) tt
               (asStep_putStep_same _ _ _)).
    + rewrite putStep_putStep. unfold s2. now rewrite setStates_setStates.
    + rewrite changeState_allowed; rewrite Hg2; simpl; auto.
  - rewrite (onStep_returned k _ _ s2 (setStates (mkPair OK DONE) s2) tt
               (asStep_putStep_same _ _ _)).
    + rewrite putStep_putStep. unfold s2. now rewrite setStates_setStates.
    + rewrite changeState_allowed; rewrite Hg2; simpl; auto.
Qed.

Lemma sameOrSkipped_not_started (w w' : World) (k : string) (s : TransactionStep) :
  sameOrSkipped w w' k ->
  asStep (prop (steps (getFlow w)) k) = Some s ->
  state (getStates s) <> NOT_STARTED ->
  asStep (prop (steps (getFlow w')) k) = Some s.
Proof.
  intros [H | [s0 [Hs0 [Hst _]]]] Hs Hne.
  - now rewrite H.
  - apply asStep_Some in Hs. rewrite Hs in Hs0. injection Hs0 as <-. contradiction.
Qed.

(** The settlement of a rejected promise, for a step that waits in its
    phase: whatever the outcome, the step is the failed one, and the other
    steps are the same or have been skipped. *)
Lemma setStepFailure_pending (k : string) (e : Value) (w : World) (s : TransactionStep) :
  asStep (prop (steps (getFlow w)) k) = Some s ->
  status (getStates s) = WAITING ->
  state (getStates s) = phaseState s ->
  let w' := snd (setStepFailure k e (maxRetries (definition s)) w) in
  sameShape w w'
  /\ asStep (prop (steps (getFlow w')) k) = Some (failed s)
  /\ forall k', k' <> k -> sameOrSkipped w w' k'.
Proof.
  intros Hs Hsta Hst.
  set (s1 := set_failures (S (failures s)) s).
  set (s2 := setStates (mkPair TEMPORARY_FAILURE (state (getStates s1))) s1).
  assert (Hg1 : getStates s1 = getStates s) by reflexivity.
  assert (Hg2 : getStates s2 = mkPair TEMPORARY_FAILURE (phaseState s)).
  { unfold s2. rewrite getStates_setStates, Hg1, Hst. reflexivity. }
  assert (Hf2 : failures s2 = S (failures s)).
  { unfold s2. now rewrite failures_setStates. }
  cbv zeta. unfold setStepFailure.
  run_with ltac:(apply (onStep_returned k _ w s s1 tt Hs); reflexivity).
  run_with ltac:(apply (onStep_returned k _ _ s1 s2 tt (asStep_putStep_same _ _ _));
                 apply changeStatus_allowed; rewrite Hg1, Hsta; simpl; auto).
  rewrite putStep_putStep.
  run_with ltac:(apply stepAt_run; apply asStep_putStep_same).
  unfold failed. fold s1. rewrite Hf2.
  assert (Hfs1 : failures s1 = S (failures s)) by reflexivity.
  rewrite Hfs1.
  destruct (gtNumber (S (failures s)) (retriesOf (maxRetries (definition s)))) eqn:Eperm.
  - set (s3 := setStates (mkPair (status (getStates s2)) FAILED) s2).
    set (s4 := setStates (mkPair PERMANENT_FAILURE (state (getStates s3))) s3).
    assert (Hg3 : getStates s3 = mkPair TEMPORARY_FAILURE FAILED).
    { unfold s3. rewrite getStates_setStates, Hg2. reflexivity. }
    assert (H4 : s4 = setStates (mkPair PERMANENT_FAILURE FAILED) s1).
    { unfold s4. rewrite Hg3. simpl. unfold s3, s2. now rewrite !setStates_setStates. }
    run_with ltac:(apply (onStep_returned k _ _ s2 s3 tt (asStep_putStep_same _ _ _));
                   apply changeState_allowed; rewrite Hg2; unfold phaseState;
                   destruct (isCompensating s); simpl; auto).
    rewrite putStep_putStep.
    run_with ltac:(apply (onStep_returned k _ _ s3 s4 tt (asStep_putStep_same _ _ _));
                   apply changeStatus_allowed; rewrite Hg3; simpl; auto).
    rewrite putStep_putStep.
    run_with ltac:(apply stepAt_run; apply asStep_putStep_same).
    run_with ltac:(reflexivity).
    rewrite H4.
    set (sf := setStates (mkPair PERMANENT_FAILURE FAILED) s1).
    set (w5 := set_transaction _ _).
    assert (Hsh5 : sameShape w w5) by (apply (sameShape_putStep k s _ w Hs)).
    assert (Hk5 : asStep (prop (steps (getFlow w5)) k) = Some sf)
      by apply asStep_putStep_same.
    assert (Ho5 : forall k', k' <> k ->
                    prop (steps (getFlow w5)) k' = prop (steps (getFlow w)) k').
    { intros k' Hne. apply (prop_putStep_other k k' sf w). congruence. }
    destruct (negb (isCompensating sf)).
    + destruct (continueOnPermanentFailure (definition sf)).
      * destruct (skip_children_effect (next sf) w5) as [Hsh [_ Hsk]].
        split; [now apply (sameShape_trans w w5) |]. split.
        -- apply (sameOrSkipped_not_started w5 _ k sf (Hsk k) Hk5).
           unfold sf. rewrite getStates_setStates. discriminate.
        -- intros k' Hne. destruct (Hsk k') as [H | [s0 [Hs0 [Hst0 H]]]].
           ++ left. rewrite H. now apply Ho5.
           ++ right. exists s0. rewrite <- (Ho5 k' Hne). auto.
      * simpl. split; [exact Hsh5 |]. split; [exact Hk5 |].
        intros k' Hne. left. now apply Ho5.
    + simpl. split; [exact Hsh5 |]. split; [exact Hk5 |].
      intros k' Hne. left. now apply Ho5.
  - simpl.
    split; [apply (sameShape_putStep k s _ w Hs) |]. split.
    + exact (asStep_putStep_same k s2 w).
    + intros k' Hne. left. apply prop_putStep_other. congruence.
Qed.

(** A dispatch, whatever its outcome, launches the step and nothing else. *)
Lemma dispatch_effect (handler : Handler) (dateNow : nat -> nat) (k : string)
      (w : World) (s : TransactionStep) :
  asStep (prop (steps (getFlow w)) k) = Some s ->
  let w' := snd (dispatch handler dateNow k w) in
  sameShape w w'
  /\ flow_state (getFlow w') = flow_state (getFlow w)
  /\ asStep (prop (steps (getFlow w')) k)
     = Some (launched (dateNow (clockReads w)) (flow_state (getFlow w)) s)
  /\ (forall k', k' <> k -> prop (steps (getFlow w')) k' = prop (steps (getFlow w)) k')
  /\ fst (dispatch handler dateNow k w) <> OutOfFuel.
Proof.
  intros Hs. cbv zeta.
  set (s1 := launched (dateNow (clockReads w)) (flow_state (getFlow w)) s).
  assert (Hbase : sameShape w (putStep k s1 (tick w))
                  /\ asStep (prop (steps (getFlow (putStep k s1 (tick w)))) k) = Some s1
                  /\ forall k', k' <> k ->
                       prop (steps (getFlow (putStep k s1 (tick w)))) k'
                       = prop (steps (getFlow w)) k').
  { split; [| split].
    - split; [reflexivity | apply (keys_putStep k s s1 (tick w) Hs)].
    - apply asStep_putStep_same.
    - intros k' Hne. apply (prop_putStep_other k k' s1 (tick w)). congruence. }
  destruct Hbase as [Hsh [Hk Ho]].
  destruct (getPreviousStep (getFlow w) (Full s)) as [parent |] eqn:Ep.
  - destruct (dispatch_run handler dateNow k w s parent Hs Ep) as [d [pd Hd]].
    cbv zeta in Hd. rewrite Hd. simpl fst. simpl snd.
    split; [exact Hsh |]. split; [reflexivity |]. split; [exact Hk |].
    split; [exact Ho | discriminate].
  - assert (Hid : id s1 = id s).
    { apply (launched_frame (dateNow (clockReads w)) (flow_state (getFlow w)) s). }
    assert (Hp1 : getPreviousStep (getFlow (putStep k s1 (tick w))) (Full s1) = None).
    { unfold getPreviousStep in *. simpl entry_id in *. rewrite Hid.
      destruct (String.eqb k (parentId (id s))) eqn:E.
      - apply String.eqb_eq in E. rewrite <- E in Ep. apply asStep_Some in Hs.
        rewrite Hs in Ep. discriminate Ep.
      - apply String.eqb_neq in E. rewrite (prop_putStep_other k _ s1 (tick w) E).
        exact Ep. }
    assert (Hd : dispatch handler dateNow k w = (Thrown TypeError, putStep k s1 (tick w))).
    { unfold dispatch.
      run_with ltac:(apply stepAt_run; exact Hs).
      run_with ltac:(apply startAttempt_run; exact Hs).
      run_with ltac:(apply stepAt_run; apply asStep_putStep_same).
      fold s1. unfold makePayload.
      apply bind_thrown.
      run_with ltac:(reflexivity).
      rewrite Hp1. reflexivity. }
    rewrite Hd. simpl fst. simpl snd.
    split; [exact Hsh |]. split; [reflexivity |]. split; [exact Hk |].
    split; [exact Ho | discriminate].
Qed.

Lemma allRetryInv_update (w w' : World) (k : string) (s' : TransactionStep) :
  allRetryInv w ->
  asStep (prop (steps (getFlow w')) k) = Some s' ->
  retryInv s' ->
  (forall k', k' <> k -> prop (steps (getFlow w')) k' = prop (steps (getFlow w)) k') ->
  allRetryInv w'.
Proof.
  intros Hall Hk Hv Ho k' s Hs.
  destruct (String.eqb k' k) eqn:E.
  - apply String.eqb_eq in E. subst k'. rewrite Hk in Hs. now injection Hs as <-.
  - apply String.eqb_neq in E. rewrite (Ho k' E) in Hs. now apply (Hall k' s).
Qed.

(** The loop of dispatches: every step of the list is ready and none of them
    occurs twice. *)
Lemma dispatchAll_inv (handler : Handler) (dateNow : nat -> nat) (l : list string) :
  forall w : World,
    NoDup l ->
    (forall k, In k l -> readyAt w k) ->
    allRetryInv w ->
    let w' := snd (dispatchAll handler dateNow l w) in
    let started := fst (fst (dispatchAll handler dateNow l w)) in
    sameShape w w'
    /\ flow_state (getFlow w') = flow_state (getFlow w)
    /\ allRetryInv w'
    /\ NoDup (map fst started)
    /\ (forall k, In k (map fst started) -> In k l /\ pendingAt w' k)
    /\ (forall k, ~ In k l -> prop (steps (getFlow w')) k = prop (steps (getFlow w)) k).
Proof.
  induction l as [| k l IH]; intros w Hnd Hready Hall; cbv zeta.
  - simpl. split; [apply sameShape_refl |]. split; [reflexivity |].
    split; [exact Hall |]. split; [constructor |]. split; [intros k [] | reflexivity].
  - destruct (Hready k (or_introl eq_refl)) as [s [Hs [Hr Hnw]]].
    pose proof (dispatch_effect handler dateNow k w s Hs) as [Hsh [Hfs [Hk [Ho Hfuel]]]].
    pose proof (retryInv_launched (dateNow (clockReads w)) (flow_state (getFlow w)) s
                  (Hall k s Hs) Hr Hnw) as [Hv Hw].
    assert (Hall1 : allRetryInv (snd (dispatch handler dateNow k w))).
    { apply (allRetryInv_update w _ k _ Hall Hk Hv Ho). }
    inversion Hnd as [| k0 l0 Hnotin Hnd' ]; subst.
    simpl dispatchAll.
    destruct (dispatch handler dateNow k w) as [[[p r] | e |] w1] eqn:Ed;
      simpl fst in *; simpl snd in *.
    + assert (Hready1 : forall k', In k' l -> readyAt w1 k').
      { intros k' Hin. destruct (Hready k' (or_intror Hin)) as [s' [Hs' [Hr' Hnw']]].
        exists s'. rewrite Hfs. rewrite Ho; [auto |].
        intros ->. contradiction. }
      specialize (IH w1 Hnd' Hready1 Hall1). cbv zeta in IH.
      destruct (dispatchAll handler dateNow l w1) as [[started err] w2] eqn:Eall.
      cbv beta iota zeta. simpl fst in *; simpl snd in *.
      destruct IH as [Hsh2 [Hfs2 [Hall2 [Hnd2 [Hpend2 Hout2]]]]].
      split; [now apply (sameShape_trans w w1) |]. split; [congruence |].
      split; [exact Hall2 |]. split; [| split].
      * simpl. constructor; [| exact Hnd2].
        intros Hin. apply Hnotin. now apply Hpend2.
      * simpl map. intros k' [<- | Hin].
        -- split; [now left |]. exists (launched (dateNow (clockReads w))
                                                  (flow_state (getFlow w)) s).
           simpl fst. rewrite (Hout2 k Hnotin). split; [exact Hk | exact Hw].
        -- destruct (Hpend2 k' Hin) as [Hin' Hp]. split; [now right | exact Hp].
      * intros k' Hnot. rewrite Hout2.
        -- apply Ho. intros ->. apply Hnot. now left.
        -- intros Hin. apply Hnot. now right.
    + simpl. split; [exact Hsh |]. split; [exact Hfs |]. split; [exact Hall1 |].
      split; [constructor |]. split; [intros k' [] |].
      intros k' Hnot. apply Ho. intros ->. apply Hnot. now left.
    + contradiction.
Qed.

Lemma retryInv_skipped (s : TransactionStep) :
  retryInv s -> state (getStates s) = NOT_STARTED -> retryInv (skipped s).
Proof.
  unfold retryInv, skipped, retries, phaseState, getStates, setStates, isCompensating.
  destruct s as [sf i d [ist isa] [cst csa] n dp la at_ fl fr rs]; simpl.
  intros [Hc Hv] Hst.
  destruct sf; simpl in *; subst; simpl in *.
  - destruct cst; simpl in *; try (destruct Hv as [Hv1 [Hv2 Hv3]]);
      try discriminate; try (destruct Hv3; discriminate); auto.
  - destruct ist; simpl in *; try (destruct Hv as [Hv1 [Hv2 Hv3]]);
      try discriminate; try (destruct Hv3; discriminate); auto.
Qed.

Lemma pending_phase (s : TransactionStep) :
  retryInv s -> status (getStates s) = WAITING ->
  state (getStates s) = phaseState s /\ state (getStates s) <> NOT_STARTED.
Proof.
  intros [_ Hv] Hw. rewrite Hw in Hv. destruct Hv as [_ [_ Hst]].
  split; [exact Hst |]. rewrite Hst. unfold phaseState.
  destruct (isCompensating s); discriminate.
Qed.

Lemma snd_attemptUnit (m : M World unit) (w : World) :
  snd (attemptUnit m w) = snd (m w).
Proof. unfold attemptUnit. now destruct (m w) as [[[] | e |] w']. Qed.

Lemma settleResolved_inv (l : list (string * HandlerResult)) :
  forall w : World,
    NoDup (map fst l) ->
    (forall k, In k (map fst l) -> pendingAt w k) ->
    allRetryInv w ->
    let w' := snd (settleResolved l w) in
    fst (settleResolved l w) = []
    /\ sameShape w w'
    /\ allRetryInv w'
    /\ (forall k, ~ In k (resolvedKeys l) ->
          prop (steps (getFlow w')) k = prop (steps (getFlow w)) k).
Proof.
  induction l as [| [k [r | e]] l IH]; intros w Hnd Hpend Hall; cbv zeta.
  - simpl. split; [reflexivity |]. split; [apply sameShape_refl |].
    split; [exact Hall | reflexivity].
  - simpl in Hnd. inversion Hnd as [| k0 l0 Hnotin Hnd']; subst.
    destruct (Hpend k (or_introl eq_refl)) as [s [Hs Hw]].
    destruct (pending_phase s (Hall k s Hs) Hw) as [Hph _].
    pose proof (setStepSuccess_pending k r w s Hs Hw Hph) as Hrun.
    simpl settleResolved. unfold attemptUnit. rewrite Hrun.
    set (w1 := putStep k (succeeded r s) w).
    assert (Ho : forall k', k' <> k ->
                   prop (steps (getFlow w1)) k' = prop (steps (getFlow w)) k').
    { intros k' Hne. apply (prop_putStep_other k k' _ w). congruence. }
    assert (Hall1 : allRetryInv w1).
    { apply (allRetryInv_update w w1 k (succeeded r s) Hall
               (asStep_putStep_same _ _ _)
               (retryInv_succeeded r s (Hall k s Hs) Hw) Ho). }
    assert (Hpend1 : forall k', In k' (map fst l) -> pendingAt w1 k').
    { intros k' Hin. destruct (Hpend k' (or_intror Hin)) as [s' [Hs' Hw']].
      exists s'. rewrite Ho; [auto |]. intros ->. contradiction. }
    destruct (IH w1 Hnd' Hpend1 Hall1) as [Hlate [Hsh [Hall2 Hout]]].
    split; [exact Hlate |].
    split; [apply (sameShape_trans w w1);
            [apply (sameShape_putStep k s _ w Hs) | exact Hsh] |].
    split; [exact Hall2 |].
    intros k' Hnot. simpl in Hnot. rewrite Hout.
    + apply Ho. intros ->. apply Hnot. now left.
    + intros Hin. apply Hnot. now right.
  - simpl in Hnd. inversion Hnd as [| k0 l0 Hnotin Hnd']; subst.
    simpl settleResolved.
    apply (IH w Hnd'); [| exact Hall].
    intros k' Hin. apply Hpend. now right.
Qed.

Lemma settleRejected_effect (l : list (string * Value)) :
  forall w : World,
    NoDup (map fst l) ->
    (forall k, In k (map fst l) -> pendingAt w k) ->
    allRetryInv w ->
    let w' := snd (settleRejected l w) in
    sameShape w w' /\ allRetryInv w'
    /\ forall k, ~ In k (map fst l) -> sameOrSkipped w w' k.
Proof.
  induction l as [| [k e] l IH]; intros w Hnd Hpend Hall; cbv zeta.
  - simpl. split; [apply sameShape_refl |]. split; [exact Hall |].
    intros k _. now left.
  - simpl in Hnd. inversion Hnd as [| k0 l0 Hnotin Hnd']; subst.
    destruct (Hpend k (or_introl eq_refl)) as [s [Hs Hw]].
    destruct (pending_phase s (Hall k s Hs) Hw) as [Hph _].
    pose proof (setStepFailure_pending k e w s Hs Hw Hph) as Heff. cbv zeta in Heff.
    assert (Hcb : snd (attemptUnit (catchCallback (k, e)) w)
                  = snd (setStepFailure k e (maxRetries (definition s)) w)).
    { rewrite snd_attemptUnit. unfold catchCallback. simpl fst. simpl snd.
      run_with ltac:(apply stepAt_run; exact Hs). reflexivity. }
    simpl settleRejected.
    destruct (attemptUnit (catchCallback (k, e)) w) as [e1 w1] eqn:E1.
    simpl snd in Hcb. rewrite <- Hcb in Heff.
    destruct Heff as [Hsh [Hk Ho]].
    assert (Hall1 : allRetryInv w1).
    { intros k' s' Hs'. destruct (String.eqb k' k) eqn:E.
      - apply String.eqb_eq in E. subst k'. rewrite Hk in Hs'. injection Hs' as <-.
        apply retryInv_failed; [now apply (Hall k s) | exact Hw].
      - apply String.eqb_neq in E.
        destruct (Ho k' E) as [Hsame | [s0 [Hs0 [Hst0 Hskip]]]].
        + rewrite Hsame in Hs'. now apply (Hall k' s').
        + rewrite Hskip in Hs'. injection Hs' as <-.
          apply retryInv_skipped; [| exact Hst0].
          apply (Hall k' s0). now apply asStep_Some. }
    assert (Hpend1 : forall k', In k' (map fst l) -> pendingAt w1 k').
    { intros k' Hin. destruct (Hpend k' (or_intror Hin)) as [s' [Hs' Hw']].
      exists s'. split; [| exact Hw'].
      apply (sameOrSkipped_not_started w w1 k' s'); [| exact Hs' |].
      - apply Ho. intros ->. contradiction.
      - apply (pending_phase s' (Hall k' s' Hs') Hw'). }
    specialize (IH w1 Hnd' Hpend1 Hall1). cbv zeta in IH.
    destruct (settleRejected l w1) as [e2 w2]. simpl snd in *.
    destruct IH as [Hsh2 [Hall2 Hoth2]].
    split; [now apply (sameShape_trans w w1) |]. split; [exact Hall2 |].
    intros k' Hnot. simpl in Hnot.
    apply (sameOrSkipped_trans w w1 w2).
    + apply Ho. intros ->. apply Hnot. now left.
    + apply Hoth2. intros Hin. apply Hnot. now right.
Qed.

Lemma settleRejected_inv (l : list (string * Value)) :
  forall w : World,
    NoDup (map fst l) ->
    (forall k, In k (map fst l) -> pendingAt w k) ->
    allRetryInv w ->
    let w' := snd (settleRejected l w) in
    sameShape w w' /\ allRetryInv w'.
Proof.
  intros w Hnd Hpend Hall. cbv zeta.
  destruct (settleRejected_effect l w Hnd Hpend Hall) as [H1 [H2 _]]. now split.
Qed.

Lemma rejections_keys (l : list (string * HandlerResult)) :
  NoDup (map fst l) ->
  NoDup (map fst (rejections l))
  /\ forall k, In k (map fst (rejections l)) ->
               In k (map fst l) /\ ~ In k (resolvedKeys l).
Proof.
  induction l as [| [k [r | e]] l IH]; intros Hnd; simpl.
  - split; [constructor | intros k []].
  - inversion Hnd as [| k0 l0 Hnotin Hnd']; subst.
    destruct (IH Hnd') as [H1 H2]. split; [exact H1 |].
    intros k' Hin. destruct (H2 k' Hin) as [Ha Hb]. split; [now right |].
    intros [<- | Hr]; [contradiction | contradiction].
  - inversion Hnd as [| k0 l0 Hnotin Hnd']; subst.
    destruct (IH Hnd') as [H1 H2]. split.
    + constructor; [| exact H1]. intros Hin. apply Hnotin. now apply H2.
    + intros k' [<- | Hin].
      * split; [now left |]. clear -Hnotin.
        induction l as [| [k1 [r1 | e1]] l IHl]; simpl in *; auto.
        intros [<- | Hr]; [apply Hnotin; now left | apply IHl; auto].
      * destruct (H2 k' Hin) as [Ha Hb]. split; [now right | exact Hb].
Qed.

Lemma settleAll_inv (started : list (string * HandlerResult)) (w : World) :
  NoDup (map fst started) ->
  (forall k, In k (map fst started) -> pendingAt w k) ->
  allRetryInv w ->
  let w' := snd (settleAll started w) in
  sameShape w w' /\ allRetryInv w'.
Proof.
  intros Hnd Hpend Hall. cbv zeta. unfold settleAll.
  pose proof (settleResolved_inv started w Hnd Hpend Hall) as Hres. cbv zeta in Hres.
  destruct (settleResolved started w) as [late w1]. simpl fst in Hres. simpl snd in Hres.
  destruct Hres as [Hlate [Hsh1 [Hall1 Hout1]]]. subst late.
  destruct (rejections_keys started Hnd) as [Hndr Hinr].
  assert (Hpend1 : forall k, In k (map fst (rejections started)) -> pendingAt w1 k).
  { intros k Hin. destruct (Hinr k Hin) as [Hin' Hnot].
    destruct (Hpend k Hin') as [s [Hs Hw]]. exists s. rewrite Hout1; auto. }
  pose proof (settleRejected_inv (rejections started) w1 Hndr Hpend1 Hall1) as Hrej.
  cbv zeta in Hrej.
  destruct (settleRejected (rejections started) w1) as [e1 w2]. simpl snd in Hrej.
  destruct Hrej as [Hsh2 Hall2]. simpl.
  split; [now apply (sameShape_trans w w1) | exact Hall2].
Qed.

Lemma retryInv_flag (s : TransactionStep) :
  retryInv s -> retryInv (snd (changeState NOT_STARTED (beginCompensation s))).
Proof.
  unfold retryInv, changeState, beginCompensation, retries, phaseState, getStates,
    setStates, isCompensating, includes.
  destruct s as [sf i d [ist isa] [cst csa] n dp la at_ fl fr rs]; simpl.
  intros [Hc Hv].
  destruct sf; simpl in *.
  - destruct (state_eqb csa NOT_STARTED || existsb (state_eqb NOT_STARTED) (allowedState csa))
      eqn:E; simpl.
    + destruct csa; simpl in E; try discriminate; simpl; split; auto;
        destruct cst; auto; destruct Hv as [Hv1 [Hv2 Hv3]]; try discriminate;
          destruct Hv3; discriminate.
    + split; auto.
  - specialize (Hc eq_refl). subst cst.
    destruct (state_eqb csa NOT_STARTED || existsb (state_eqb NOT_STARTED) (allowedState csa))
      eqn:E; simpl; split; try discriminate; auto.
Qed.

Lemma flagStep_inv (k : string) (w : World) :
  allRetryInv w ->
  let w' := snd (flagStep k w) in
  sameShape w w' /\ flow_state (getFlow w') = flow_state (getFlow w) /\ allRetryInv w'.
Proof.
  intros Hall. cbv zeta. unfold flagStep.
  destruct (String.eqb k ROOT_STEP).
  { simpl. split; [apply sameShape_refl | split; [reflexivity | exact Hall]]. }
  destruct (asStep (prop (steps (getFlow w)) k)) as [s |] eqn:Es.
  - rewrite (onStep_run k _ w s Es). simpl snd.
    split; [apply (sameShape_putStep k s _ w Es) |]. split; [reflexivity |].
    apply (allRetryInv_update w _ k _ Hall (asStep_putStep_same _ _ _)).
    + destruct ((state_eqb (state (getStates s)) DONE
                 || status_eqb (status (getStates s)) PERMANENT_FAILURE)
                && negb (noCompensation (definition s))).
      * apply retryInv_flag. now apply (Hall k s).
      * simpl. now apply (Hall k s).
    + intros k' Hne. apply (prop_putStep_other k k' _ w). congruence.
  - unfold onStep. rewrite Es. simpl.
    split; [apply sameShape_refl | split; [reflexivity | exact Hall]].
Qed.

Lemma flagLoop_inv (l : list string) :
  forall w : World,
    allRetryInv w ->
    let w' := snd (forEach flagStep l w) in
    sameShape w w' /\ flow_state (getFlow w') = flow_state (getFlow w) /\ allRetryInv w'.
Proof.
  induction l as [| k l IH]; intros w Hall; cbv zeta; simpl.
  - split; [apply sameShape_refl | split; [reflexivity | exact Hall]].
  - unfold bind. pose proof (flagStep_inv k w Hall) as [Hsh [Hfs Hall1]].
    destruct (flagStep k w) as [[[] | e |] w1]; simpl in *; auto.
    destruct (IH w1 Hall1) as [Hsh2 [Hfs2 Hall2]].
    split; [now apply (sameShape_trans w w1) |]. split; [congruence | exact Hall2].
Qed.

Lemma flagStepsToRevert_inv (w : World) :
  allRetryInv w ->
  let w' := snd (flagStepsToRevert w) in
  sameShape w w' /\ flow_state (getFlow w') = flow_state (getFlow w) /\ allRetryInv w'.
Proof.
  intros Hall. unfold flagStepsToRevert. cbv zeta.
  run_with ltac:(reflexivity). now apply flagLoop_inv.
Qed.

(** *** What a pass puts in [nextSteps] *)

Lemma scanStep_next (f : TransactionFlow) (sc sc' : Scan) (k : string) :
  scanStep f sc k = Some sc' ->
  (nextSteps sc' = nextSteps sc
   /\ completedSteps sc' <= S (completedSteps sc)
   /\ (String.eqb k ROOT_STEP = true -> completedSteps sc' = completedSteps sc))
  \/ (nextSteps sc' = nextSteps sc ++ [k]
      /\ completedSteps sc' = completedSteps sc
      /\ String.eqb k ROOT_STEP = false
      /\ exists s, asStep (prop (steps f) k) = Some s
                   /\ status (getStates s) <> WAITING
                   /\ canInvoke (flow_state f) s || canCompensate (flow_state f) s = true).
Proof.
  unfold scanStep. intros H.
  destruct (String.eqb k ROOT_STEP) eqn:Er.
  { injection H as <-. left. auto. }
  destruct (prop (steps f) k) as [e |] eqn:Ek; [| discriminate].
  destruct (canContinue f e) as [[|] |]; [| | discriminate].
  2:{ injection H as <-. left. split; [reflexivity | split; [lia | discriminate]]. }
  destruct e as [i n | s]; [discriminate |].
  destruct (status_eqb (status (getStates s)) WAITING) eqn:Ew.
  { injection H as <-. left. simpl. split; [reflexivity | split; [lia | discriminate]]. }
  destruct (canInvoke (flow_state f) s || canCompensate (flow_state f) s) eqn:Ec.
  - injection H as <-. right. simpl. repeat split.
    exists s. split; [reflexivity |]. split; [now apply status_eqb_neq | exact Ec].
  - injection H as <-. left.
    destruct (classify_flags s sc) as [_ [_ [_ [_ [Hc [Hn _]]]]]].
    rewrite Hc, Hn. split; [reflexivity | split; [lia | discriminate]].
Qed.

Lemma scan_next (f : TransactionFlow) (l : list string) :
  forall sc0 sc : Scan,
    scan f l sc0 = Some sc ->
    (forall k, In k (nextSteps sc) ->
       In k (nextSteps sc0)
       \/ (In k l
           /\ exists s, asStep (prop (steps f) k) = Some s
                        /\ status (getStates s) <> WAITING
                        /\ canInvoke (flow_state f) s || canCompensate (flow_state f) s
                           = true))
    /\ (NoDup l -> NoDup (nextSteps sc0) ->
        (forall k, In k (nextSteps sc0) -> ~ In k l) -> NoDup (nextSteps sc))
    /\ completedSteps sc + length (nextSteps sc)
       <= completedSteps sc0 + length (nextSteps sc0) + nonRoot l.
Proof.
  induction l as [| k l IH]; intros sc0 sc Hscan; simpl in Hscan.
  - injection Hscan as <-. split; [auto |]. split; [auto |]. unfold nonRoot. simpl. lia.
  - destruct (scanStep f sc0 k) as [sc1 |] eqn:E1; [| discriminate].
    destruct (IH sc1 sc Hscan) as [Hin [Hnd Hcount]].
    unfold nonRoot in *. simpl filter.
    destruct (scanStep_next f sc0 sc1 k E1)
      as [[Hn [Hc Hroot]] | [Hn [Hc [Hroot [s [Hs [Hw Hcan]]]]]]].
    + split; [| split].
      * intros k' Hk'. destruct (Hin k' Hk') as [H | [H1 H2]].
        -- left. now rewrite <- Hn.
        -- right. split; [now right | exact H2].
      * intros Hndl Hnd0 Hdisj. inversion Hndl; subst. apply Hnd; [assumption | |].
        -- now rewrite Hn.
        -- intros k' Hk'. rewrite Hn in Hk'. intros Hc'. apply (Hdisj k' Hk'). now right.
      * rewrite Hn in Hcount.
        destruct (String.eqb k ROOT_STEP) eqn:Er; simpl.
        -- rewrite (Hroot eq_refl) in Hcount. lia.
        -- simpl. lia.
    + split; [| split].
      * intros k' Hk'. destruct (Hin k' Hk') as [H | [H1 H2]].
        -- rewrite Hn in H. apply in_app_or in H. destruct H as [H | [<- | []]].
           ++ now left.
           ++ right. split; [now left |]. exists s. auto.
        -- right. split; [now right | exact H2].
      * intros Hndl Hnd0 Hdisj. inversion Hndl as [| k0 l0 Hnotin Hndl']; subst.
        apply Hnd; [assumption | |].
        -- rewrite Hn. apply NoDup_app_remove_l with (l := []). simpl.
           apply Permutation_NoDup with (l := k :: nextSteps sc0).
           ++ apply Permutation_cons_append.
           ++ constructor; [| exact Hnd0]. intros Hc'. apply (Hdisj k Hc'). now left.
        -- intros k' Hk'. rewrite Hn in Hk'. apply in_app_or in Hk'.
           destruct Hk' as [Hk' | [<- | []]].
           ++ intros Hc'. apply (Hdisj k' Hk'). now right.
           ++ exact Hnotin.
      * rewrite Hn, Hc in Hcount. rewrite length_app in Hcount. simpl in Hcount.
        rewrite Hroot. simpl. lia.
Qed.

Lemma nonRoot_lt (l : list string) : In ROOT_STEP l -> nonRoot l < length l.
Proof.
  unfold nonRoot. induction l as [| k l IH]; intros Hin; [contradiction |].
  simpl. destruct Hin as [-> | Hin].
  - rewrite String.eqb_refl. simpl.
    pose proof (filter_length_le (fun k => negb (String.eqb k ROOT_STEP)) l). lia.
  - specialize (IH Hin). destruct (negb (String.eqb k ROOT_STEP)); simpl; lia.
Qed.

(** *** The orderings *)

Lemma insertBy_perm (cmp : string -> string -> Z) (x : string) (l : list string) :
  Permutation (x :: l) (insertBy cmp x l).
Proof.
  induction l as [| y l IH]; simpl; [apply Permutation_refl |].
  destruct (cmp x y <=? 0)%Z; [apply Permutation_refl |].
  apply perm_trans with (y :: x :: l); [apply perm_swap | now apply perm_skip].
Qed.

Lemma sortBy_perm (cmp : string -> string -> Z) (l : list string) :
  Permutation l (sortBy cmp l).
Proof.
  unfold sortBy. induction l as [| x l IH]; simpl; [apply perm_nil |].
  apply perm_trans with (x :: fold_right (insertBy cmp) [] l).
  - now apply perm_skip.
  - apply insertBy_perm.
Qed.

Lemma orderings_inv (w : World) :
  wellFormed w ->
  exists wo,
    (if state_eqb (flow_state (getFlow w)) COMPENSATING
     then getCompensationSteps else getInvokeSteps) w
    = (Returned (allStepsOf w), wo)
    /\ wellFormed wo
    /\ transaction wo = transaction w
    /\ NoDup (allStepsOf w)
    /\ In ROOT_STEP (allStepsOf w).
Proof.
  intros [Hnd [Hroot [Hci Hcc]]].
  assert (Hsorted : forall cmp,
             NoDup (sortBy cmp (keys (steps (getFlow w))))
             /\ In ROOT_STEP (sortBy cmp (keys (steps (getFlow w))))).
  { intros cmp. split.
    - apply (Permutation_NoDup (sortBy_perm cmp _) Hnd).
    - apply (Permutation_in _ (sortBy_perm cmp _) Hroot). }
  unfold allStepsOf.
  destruct (state_eqb (flow_state (getFlow w)) COMPENSATING).
  - unfold getCompensationSteps, compensationStepsOf. run_with ltac:(reflexivity).
    destruct (compensateSteps (orchestrator w)) as [| c cs] eqn:Ec.
    + eexists. split; [run_with ltac:(reflexivity); reflexivity |].
      destruct (Hsorted (compensationOrder (getFlow w))) as [H1 H2].
      split; [| split; [reflexivity | split; assumption]].
      unfold wellFormed. simpl. split; [exact Hnd |]. split; [exact Hroot |].
      split; [exact Hci |]. right. split; assumption.
    + exists w. split; [reflexivity |].
      split; [unfold wellFormed; rewrite Ec; auto |]. split; [reflexivity |].
      destruct Hcc as [Hcc | Hcc]; [discriminate | exact Hcc].
  - unfold getInvokeSteps, invokeStepsOf. run_with ltac:(reflexivity).
    destruct (invokeSteps (orchestrator w)) as [| c cs] eqn:Ec.
    + eexists. split; [run_with ltac:(reflexivity); reflexivity |].
      destruct (Hsorted (invokeOrder (getFlow w))) as [H1 H2].
      split; [| split; [reflexivity | split; assumption]].
      unfold wellFormed. simpl. split; [exact Hnd |]. split; [exact Hroot |].
      split; [| exact Hcc]. right. split; assumption.
    + exists w. split; [reflexivity |].
      split; [unfold wellFormed; rewrite Ec; auto |]. split; [reflexivity |].
      destruct Hci as [Hci | Hci]; [discriminate | exact Hci].
Qed.

Lemma ready_of_can (fs : TransactionState) (s : TransactionStep) :
  canInvoke fs s || canCompensate fs s = true -> ready fs s.
Proof.
  unfold canInvoke, canCompensate, ready. intros H.
  apply Bool.orb_true_iff in H. destruct H as [H | H].
  - apply Bool.orb_true_iff in H. destruct H as [H | H].
    + apply Bool.andb_true_iff in H. destruct H as [H Hf].
      apply Bool.andb_true_iff in H. destruct H as [Hc Hs].
      right. split; [now apply state_eqb_eq |]. right. now apply state_eqb_eq.
    + left. now apply status_eqb_eq.
  - apply Bool.andb_true_iff in H. destruct H as [H Hf].
    apply Bool.andb_true_iff in H. destruct H as [Hc Hs].
    right. split; [now apply state_eqb_eq |]. now left.
Qed.

Lemma driverInv_flow (w w' : World) :
  orchestrator w' = orchestrator w ->
  steps (getFlow w') = steps (getFlow w) ->
  driverInv w -> driverInv w'.
Proof.
  intros Ho Hs [[H1 [H2 [H3 H4]]] Hall]. split.
  - unfold wellFormed. rewrite Ho, Hs. auto.
  - intros k s Hk. rewrite Hs in Hk. now apply (Hall k s).
Qed.

(** The scheduling pass keeps the invariant and returns steps that are
    ready, without duplicates. *)
Lemma checkAllSteps_inv (fuel : nat) :
  forall w : World,
    driverInv w ->
    let w' := snd (checkAllSteps fuel w) in
    driverInv w'
    /\ forall r, fst (checkAllSteps fuel w) = Returned r ->
         NoDup (res_next r) /\ forall k, In k (res_next r) -> readyAt w' k.
Proof.
  induction fuel as [| fuel IH]; intros w Hinv; cbv zeta.
  { simpl. split; [exact Hinv | discriminate]. }
  destruct Hinv as [Hwf Hall].
  destruct (orderings_inv w Hwf) as [wo [Hord [Hwfo [Htx [Hnd Hroot]]]]].
  assert (Hflow : getFlow wo = getFlow w) by (unfold getFlow; now rewrite Htx).
  assert (Hallo : allRetryInv wo).
  { intros k s Hk. rewrite Hflow in Hk. now apply (Hall k s). }
  simpl checkAllSteps.
  run_with ltac:(reflexivity).
  run_with ltac:(exact Hord).
  destruct (scan (getFlow w) (allStepsOf w) emptyScan) as [sc |] eqn:Escan.
  2:{ simpl. split; [split; assumption | discriminate]. }
  simpl orTypeError. run_with ltac:(reflexivity).
  destruct (scan_next (getFlow w) (allStepsOf w) emptyScan sc Escan)
    as [Hin [Hndn Hcount]].
  simpl in Hcount.
  pose proof (nonRoot_lt (allStepsOf w) Hroot) as Hlt.
  destruct (mustCompensate (getFlow w) sc) eqn:Emc.
  - run_with ltac:(reflexivity).
    match goal with
    | |- context [bind flagStepsToRevert _ ?W] => set (w1 := W)
    end.
    assert (Hinv1 : driverInv w1).
    { apply (driverInv_flow wo w1); [reflexivity | reflexivity | split; assumption]. }
    destruct Hinv1 as [Hwf1 Hall1].
    pose proof (flagStepsToRevert_inv w1 Hall1) as [Hsh2 [Hfs2 Hall2]].
    unfold bind.
    destruct (flagStepsToRevert w1) as [[[] | e |] w2]; simpl snd in *.
    + apply IH. split; [now apply (wellFormed_sameShape w1 w2) | exact Hall2].
    + simpl. split; [| discriminate].
      split; [now apply (wellFormed_sameShape w1 w2) | exact Hall2].
    + simpl. split; [| discriminate].
      split; [now apply (wellFormed_sameShape w1 w2) | exact Hall2].
  - assert (Hready : forall k, In k (nextSteps sc) ->
                       exists s, asStep (prop (steps (getFlow w)) k) = Some s
                                 /\ ready (flow_state (getFlow w)) s
                                 /\ status (getStates s) <> WAITING).
    { intros k Hk. destruct (Hin k Hk) as [[] | [_ [s [Hs [Hw Hcan]]]]].
      exists s. split; [exact Hs |]. split; [now apply ready_of_can | exact Hw]. }
    assert (Hndnext : NoDup (nextSteps sc)).
    { apply Hndn; [exact Hnd | constructor | intros k []]. }
    destruct (Z.of_nat (completedSteps sc) =? totalSteps (allStepsOf w))%Z eqn:Etot.
    + apply Z.eqb_eq in Etot. unfold totalSteps in Etot.
      assert (Hempty : nextSteps sc = []).
      { destruct (nextSteps sc) as [| k l]; [reflexivity |]. simpl in Hcount. lia. }
      run_with ltac:(reflexivity). simpl.
      split.
      * apply (driverInv_flow wo); [reflexivity | | split; assumption].
        unfold finalize. simpl.
        destruct (hasSkipped sc), (hasIgnoredFailure sc), (hasFailed sc); reflexivity.
      * intros r Hr. injection Hr as <-. simpl. rewrite Hempty.
        split; [constructor | intros k []].
    + run_with ltac:(reflexivity). simpl.
      split; [split; assumption |].
      intros r Hr. injection Hr as <-. simpl. split; [exact Hndnext |].
      intros k Hk. destruct (Hready k Hk) as [s [Hs [Hr Hw]]].
      exists s. rewrite Hflow. auto.
Qed.

(** *** The driver *)

Lemma executeNext_S (handler : Handler) (dateNow : nat -> nat) (fuel : nat) (w : World) :
  executeNext handler dateNow (S fuel) w
  = if hasFinished (transaction w) then (Returned tt, w)
    else
      match checkAllSteps 2 w with
      | (Returned nextSteps, w1) =>
          let '(started, e1, w2) := dispatchAll handler dateNow (res_next nextSteps) w1 in
          let '(e2, w3) := settleAll started w2 in
          match firstError e1 e2 with
          | Some e => (Thrown e, w3)
          | None =>
              match res_next nextSteps with
              | [] => (Returned tt, w3)
              | _ :: _ => executeNext handler dateNow fuel w3
              end
          end
      | (Thrown e, w1) => (Thrown e, w1)
      | (OutOfFuel, w1) => (OutOfFuel, w1)
      end.
Proof.
  cbn [executeNext]. unfold bind at 1. unfold get. cbv beta iota.
  destruct (hasFinished (transaction w)); [reflexivity |].
  unfold bind. destruct (checkAllSteps 2 w) as [[r | e |] w1]; reflexivity.
Qed.

Lemma executeNext_inv (handler : Handler) (dateNow : nat -> nat) (fuel : nat) :
  forall w : World,
    driverInv w -> driverInv (snd (executeNext handler dateNow fuel w)).
Proof.
  induction fuel as [| fuel IH]; intros w Hinv; [exact Hinv |].
  rewrite executeNext_S.
  destruct (hasFinished (transaction w)); [exact Hinv |].
  pose proof (checkAllSteps_inv 2 w Hinv) as Hcheck. cbv zeta in Hcheck.
  destruct (checkAllSteps 2 w) as [[res | e |] w1]; simpl fst in Hcheck;
    simpl snd in Hcheck; destruct Hcheck as [[Hwf1 Hall1] Hnext];
      try (split; assumption).
  destruct (Hnext res eq_refl) as [Hnd Hready].
  pose proof (dispatchAll_inv handler dateNow (res_next res) w1 Hnd Hready Hall1) as Hd.
  cbv zeta in Hd.
  destruct (dispatchAll handler dateNow (res_next res) w1) as [[started e1] w2].
  simpl fst in Hd. simpl snd in Hd.
  destruct Hd as [Hsh2 [_ [Hall2 [Hnds [Hpend _]]]]].
  assert (Hpend2 : forall k, In k (map fst started) -> pendingAt w2 k).
  { intros k Hk. now apply Hpend. }
  pose proof (settleAll_inv started w2 Hnds Hpend2 Hall2) as Hs. cbv zeta in Hs.
  destruct (settleAll started w2) as [e2 w3]. simpl snd in Hs.
  destruct Hs as [Hsh3 Hall3].
  assert (Hinv3 : driverInv w3).
  { split; [| exact Hall3].
    apply (wellFormed_sameShape w2 w3 Hsh3).
    now apply (wellFormed_sameShape w1 w2 Hsh2). }
  destruct (firstError e1 e2); [exact Hinv3 |].
  destruct (res_next res); [exact Hinv3 | now apply IH].
Qed.

Lemma resume_inv (handler : Handler) (dateNow : nat -> nat) (fuel : nat) (w : World) :
  driverInv w -> driverInv (snd (resume handler dateNow fuel w)).
Proof.
  intros Hinv. unfold resume. run_with ltac:(reflexivity).
  destruct (negb (String.eqb (modelId (transaction w)) (orch_id (orchestrator w))));
    [exact Hinv |].
  destruct (hasFinished (transaction w)); [exact Hinv |].
  destruct (state_eqb (flow_state (getFlow w)) NOT_STARTED).
  - run_with ltac:(reflexivity). apply executeNext_inv.
    apply (driverInv_flow w); [reflexivity | reflexivity | exact Hinv].
  - run_with ltac:(reflexivity). now apply executeNext_inv.
Qed.

(** *** Transactions made by [beginTransaction] *)

Lemma prop_None_keys {V} (o : Obj V) (k : string) :
  prop o k = None <-> ~ In k (keys o).
Proof.
  induction o as [| [k0 v0] o IH]; simpl.
  - split; [auto | reflexivity].
  - destruct (String.eqb k0 k) eqn:E.
    + apply String.eqb_eq in E. split; [discriminate | intros H; exfalso; apply H; now left].
    + apply String.eqb_neq in E. rewrite IH. split.
      * intros H [H1 | H1]; [contradiction | contradiction].
      * intros H H1. apply H. now right.
Qed.

Lemma keys_assign_absent {V} (k : string) (v : V) (o : Obj V) :
  prop o k = None -> keys (assign k v o) = keys o ++ [k].
Proof.
  induction o as [| [k0 v0] o IH]; simpl; intros H; [reflexivity |].
  destruct (String.eqb k0 k); [discriminate |]. simpl. f_equal. now apply IH.
Qed.

Lemma keys_assign_inv {V} (k : string) (v : V) (o : Obj V) :
  NoDup (keys o) ->
  NoDup (keys (assign k v o)) /\ forall x, In x (keys o) -> In x (keys (assign k v o)).
Proof.
  intros Hnd. destruct (prop o k) as [v0 |] eqn:E.
  - rewrite keys_assign_present by congruence. auto.
  - rewrite (keys_assign_absent k v o E). split.
    + apply NoDup_app_remove_l with (l := []). simpl.
      apply Permutation_NoDup with (l := k :: keys o);
        [apply Permutation_cons_append |].
      constructor; [now apply prop_None_keys | exact Hnd].
    + intros x Hx. apply in_or_app. now left.
Qed.

Lemma freshInv_assign (b : BuildState) (k : string) (s : TransactionStep) :
  freshInv b -> retryInv s ->
  freshInv (mkBuild (assign k (Full s) (states b)) (actionNames b) (existingSteps b)).
Proof.
  intros [He [Hnd [Hroot Hall]]] Hv. unfold freshInv. simpl.
  destruct (keys_assign_inv k (Full s) (states b) Hnd) as [Hnd' Hin'].
  split; [exact He |]. split; [exact Hnd' |]. split; [now apply Hin' |].
  intros k' s' Hk'. destruct (String.eqb k k') eqn:E.
  - apply String.eqb_eq in E. subst k'. rewrite prop_assign_same in Hk'.
    now injection Hk' as <-.
  - apply String.eqb_neq in E. rewrite prop_assign_other in Hk' by exact E.
    now apply (Hall k' s').
Qed.

Lemma pushNext_fresh (parent i : string) (b : BuildState) :
  freshInv b -> freshInv (snd (pushNext parent i b)).
Proof.
  intros Hb. pose proof Hb as [He [Hnd [Hroot Hall]]]. unfold pushNext.
  destruct (prop (states b) parent) as [[r n | s] |] eqn:Ep; simpl; [| | exact Hb].
  - unfold freshInv. simpl.
    destruct (keys_assign_inv parent (Bare r (n ++ [i])) (states b) Hnd) as [Hnd' Hin'].
    split; [exact He |]. split; [exact Hnd' |]. split; [now apply Hin' |].
    intros k' s' Hk'. destruct (String.eqb parent k') eqn:E.
    + apply String.eqb_eq in E. subst k'. rewrite prop_assign_same in Hk'. discriminate.
    + apply String.eqb_neq in E. rewrite prop_assign_other in Hk' by exact E.
      now apply (Hall k' s').
  - rewrite He. simpl. rewrite <- He.
    apply (freshInv_assign b parent (set_next (next s ++ [i]) s) Hb).
    exact (Hall parent s Ep).
Qed.

Lemma retryInv_freshStep (i : string) (level : list string) (p : StepPolicy) :
  retryInv (freshStep i level p).
Proof. unfold retryInv, freshStep. simpl. auto. Qed.

Lemma registerAction_fresh (a : string) (p : StepPolicy) (level : list string)
      (b : BuildState) :
  freshInv b -> freshInv (snd (registerAction a p level b)).
Proof.
  intros Hb. unfold registerAction.
  apply bind_preserves; [exact Hb | intros s0 H; exact H |].
  intros b0 s0 Hs0.
  destruct (existsb (String.eqb a) (actionNames b0)); [exact Hs0 |].
  apply bind_preserves; [exact Hs0 | |].
  { intros s1 H1. exact H1. }
  intros _ s1 Hs1.
  apply bind_preserves; [exact Hs1 | intros s2 H2; now apply pushNext_fresh |].
  intros _ s2 H2. simpl.
  pose proof H2 as [He _]. rewrite He. simpl. rewrite <- He.
  apply (freshInv_assign s2 _ _ H2). apply retryInv_freshStep.
Qed.

Lemma buildLoop_fresh (fuel : nat) :
  forall (queue : list QueueItem) (b : BuildState),
    freshInv b -> freshInv (snd (buildLoop fuel queue b)).
Proof.
  induction fuel as [| fuel IH]; intros queue b Hb; destruct queue as [| it rest]; simpl;
    try exact Hb.
  apply bind_preserves; [exact Hb | | intros pushed s0 H0; now apply IH].
  intros s0 H0. destruct it as [[d | ds] level]; simpl; [| exact H0].
  apply bind_preserves; [exact H0 | | intros level' s1 H1; now destruct d].
  intros s1 H1. unfold visitAction. destruct (action (policy_of d)) as [a |]; [| exact H1].
  apply bind_preserves; [exact H1 | | intros _ s2 H2; exact H2].
  intros s2 H2. now apply registerAction_fresh.
Qed.

Lemma beginTransaction_inv (o : Orchestrator) (txid : string) (p : option PayloadData)
      (tx : DistributedTransaction) (log : list Call) (clock : nat) :
  cacheOk (invokeSteps o) -> cacheOk (compensateSteps o) ->
  beginTransaction o txid p = Returned tx ->
  driverInv (mkWorld o tx log clock).
Proof.
  intros Hci Hcc Hbegin. unfold beginTransaction, createTransactionFlow, buildSteps in Hbegin.
  assert (Hinit : freshInv (initialBuild None)).
  { unfold freshInv, initialBuild. cbn [states existingSteps keys map fst prop].
    split; [reflexivity |]. split.
    - constructor; [intros [] | constructor].
    - split; [now left |]. intros k s Hk.
      destruct (String.eqb ROOT_STEP k); discriminate Hk. }
  pose proof (buildLoop_fresh (queueWeight [(QDef (orch_definition o), [ROOT_STEP])])
                [(QDef (orch_definition o), [ROOT_STEP])] (initialBuild None) Hinit)
    as [_ [Hnd [Hroot Hall]]].
  destruct (buildLoop (queueWeight [(QDef (orch_definition o), [ROOT_STEP])])
                      [(QDef (orch_definition o), [ROOT_STEP])] (initialBuild None))
    as [[[] | e |] b]; try discriminate Hbegin.
  injection Hbegin as <-. simpl in *.
  split.
  - unfold wellFormed. simpl. auto.
  - intros k s Hk. simpl in Hk. apply asStep_Some in Hk. now apply (Hall k s).
Qed.

(** *** What the invariant says of a step *)

Lemma within_bounded (s : TransactionStep) (f : nat) :
  boundedRetries s -> (within s f <-> f <= retries s).
Proof.
  unfold boundedRetries, within, retries.
  destruct (retryLimit (maxRetries (definition s))); [reflexivity | intros H; now contradiction H].
Qed.

Lemma justOver_bounded (s : TransactionStep) (f : nat) :
  justOver s f <-> boundedRetries s /\ f = S (retries s).
Proof.
  unfold boundedRetries, justOver, retries.
  destruct (retryLimit (maxRetries (definition s))); split.
  - intros ->. split; [discriminate | reflexivity].
  - now intros [_ ->].
  - contradiction.
  - intros [H _]. now apply H.
Qed.

Lemma retryInv_bounds (s : TransactionStep) :
  retryInv s -> boundedRetries s ->
  failures s <= retries s + 1
  /\ attempts s <= retries s + 1
  /\ (status (getStates s) = PERMANENT_FAILURE <-> retries s < failures s)
  /\ (status (getStates s) = PERMANENT_FAILURE ->
      state (getStates s) = FAILED
      /\ forall fs, canInvoke fs s = false /\ canCompensate fs s = false).
Proof.
  intros [_ Hv] Hb. unfold canInvoke, canCompensate.
  destruct (status (getStates s)) eqn:Es;
    try (destruct Hv as [Hf [Ha Hst]]); try (destruct Hv as [Hf Ha]);
    try (apply (within_bounded s _ Hb) in Hf);
    try (apply justOver_bounded in Hf; destruct Hf as [_ Hf]).
  - repeat split; try lia; try discriminate.
  - repeat split; try lia; try discriminate.
  - repeat split; try lia; try discriminate.
  - repeat split; try lia; try discriminate.
  - split; [lia |]. split; [lia |]. split; [split; [intros _; lia | reflexivity] |].
    intros _. split; [exact Hst |]. intros fs. rewrite Hst. simpl.
    rewrite !Bool.andb_false_r. simpl. split; reflexivity.
Qed.

(** A count is greater than a number that is not negative exactly when it
    is greater than its integer part. *)
Lemma nonneg_floor (q : Q) :
  gtNumber 0 (Finite q) = false -> (0 <= Qfloor q)%Z.
Proof.
  unfold gtNumber. intros H. apply Bool.negb_false_iff, Qle_bool_iff in H.
  apply Qfloor_resp_le in H. now rewrite Qfloor_Z in H.
Qed.

Lemma gtNumber_nonneg (f : nat) (q : Q) :
  gtNumber 0 (Finite q) = false ->
  gtNumber f (Finite q) = (Z.to_nat (Qfloor q) <? f).
Proof.
  destruct f as [| f]; [intros ->; reflexivity | intros _; apply gtNumber_Finite].
Qed.

Lemma gtNumber_plusOne (f : nat) (q : Q) :
  gtNumber 0 (Finite q) = false ->
  f <= S (Z.to_nat (Qfloor q)) ->
  gtNumber f (plusOne (Finite q)) = false.
Proof.
  intros Hq Hf. pose proof (nonneg_floor q Hq) as H0.
  unfold plusOne, gtNumber. apply Bool.negb_false_iff, Qle_bool_iff.
  apply Qle_trans with (inject_Z (Qfloor q + 1)).
  - rewrite <- Zle_Qle. lia.
  - rewrite inject_Z_plus. apply Qplus_le_compat; [apply Qfloor_le | apply Qle_refl].
Qed.

(** What the invariant says of a step whose [maxRetries] is not negative,
    in the comparisons of the code. *)
Lemma retryInv_numbers (s : TransactionStep) :
  retryInv s ->
  gtNumber 0 (retriesOf (maxRetries (definition s))) = false ->
  gtNumber (failures s) (plusOne (retriesOf (maxRetries (definition s)))) = false
  /\ gtNumber (attempts s) (plusOne (retriesOf (maxRetries (definition s)))) = false
  /\ (status (getStates s) = PERMANENT_FAILURE
      <-> gtNumber (failures s) (retriesOf (maxRetries (definition s))) = true)
  /\ (status (getStates s) = PERMANENT_FAILURE ->
      state (getStates s) = FAILED
      /\ forall fs, canInvoke fs s = false /\ canCompensate fs s = false).
Proof.
  intros Hv Hpos.
  assert (Hlast : status (getStates s) = PERMANENT_FAILURE ->
                  state (getStates s) = FAILED
                  /\ forall fs, canInvoke fs s = false /\ canCompensate fs s = false).
  { destruct Hv as [_ Hv]. intros Hp. rewrite Hp in Hv. destruct Hv as [_ [_ Hst]].
    split; [exact Hst |]. intros fs. unfold canInvoke, canCompensate.
    rewrite Hst, Hp. simpl. rewrite !Bool.andb_false_r. simpl. split; reflexivity. }
  assert (Hcase : (exists q, retriesOf (maxRetries (definition s)) = Finite q
                             /\ retryLimit (maxRetries (definition s))
                                = Some (Z.to_nat (Qfloor q)))
                  \/ ((retriesOf (maxRetries (definition s)) = NaN
                       \/ retriesOf (maxRetries (definition s)) = PosInfinity)
                      /\ retryLimit (maxRetries (definition s)) = None)).
  { destruct (maxRetries (definition s)) as [[q | | |] |]; simpl in *;
      try discriminate Hpos.
    - left. now exists q.
    - right. auto.
    - right. auto.
    - left. eexists. split; [reflexivity |].
      unfold DEFAULT_RETRIES. now rewrite Qfloor_Z. }
  destruct Hcase as [[q [Hm Hl]] | [Hm Hl]].
  - rewrite Hm in *.
    assert (Hb : boundedRetries s) by (unfold boundedRetries; rewrite Hl; discriminate).
    assert (Hr : retries s = Z.to_nat (Qfloor q)) by (unfold retries; now rewrite Hl).
    destruct (retryInv_bounds s Hv Hb) as [Hf [Ha [Hp _]]]. rewrite Hr in *.
    split; [apply gtNumber_plusOne; [exact Hpos | lia] |].
    split; [apply gtNumber_plusOne; [exact Hpos | lia] |].
    split; [| exact Hlast].
    rewrite (gtNumber_nonneg _ q Hpos), Hp. symmetry. apply Nat.ltb_lt.
  - assert (Hnp : status (getStates s) <> PERMANENT_FAILURE).
    { intros Hp. destruct Hv as [_ Hv]. rewrite Hp in Hv. destruct Hv as [Hj _].
      unfold justOver in Hj. now rewrite Hl in Hj. }
    destruct Hm as [Hm | Hm]; rewrite Hm; simpl;
      (split; [reflexivity |]; split; [reflexivity |];
       split; [split; [contradiction | discriminate] | exact Hlast]).
Qed.

Lemma failed_facts (s : TransactionStep) :
  failures (failed s) = S (failures s)
  /\ (gtNumber (S (failures s)) (retriesOf (maxRetries (definition s))) = true ->
      status (getStates (failed s)) = PERMANENT_FAILURE
      /\ state (getStates (failed s)) = FAILED)
  /\ (gtNumber (S (failures s)) (retriesOf (maxRetries (definition s))) = false ->
      status (getStates (failed s)) = TEMPORARY_FAILURE
      /\ forall fs, canInvoke fs (failed s) = true).
Proof.
  unfold failed. simpl failures.
  destruct (gtNumber (S (failures s)) (retriesOf (maxRetries (definition s)))).
  - rewrite failures_setStates. split; [reflexivity |]. split; [| discriminate].
    intros _. now rewrite getStates_setStates.
  - rewrite failures_setStates. split; [reflexivity |]. split; [discriminate |].
    intros _. split; [now rewrite getStates_setStates |].
    intros fs. unfold canInvoke. rewrite getStates_setStates. simpl.
    apply Bool.orb_true_r.
Qed.

Lemma allowedRetries_limit (s : TransactionStep) (n : nat) :
  allowedRetries s = numberOf n ->
  retryLimit (maxRetries (definition s)) = Some n.
Proof.
  unfold allowedRetries. destruct (maxRetries (definition s)) as [m |].
  - intros ->. apply retryLimit_numberOf.
  - intros H. unfold numberOf in H. injection H as H.
    assert (Hn : n = 3) by lia. now subst n.
Qed.

(** C2, as stated, fails: in the flow of one step A with [maxRetries: -1],
    whose handler always fails, the first failure of A is permanent, and at
    the end of the run [failures] is 1, which exceeds [maxRetries + 1 = 0];
    the handler has been invoked once for the phase, more than
    [maxRetries + 1] times. *)
Lemma retry_policy_fails_below_zero :
  ~ (forall (handler : Handler) (dateNow : nat -> nat) (fuel : nat) (w : World),
        wellFormed w -> allRetryInv w ->
        forall k s,
          asStep (prop (steps (getFlow (snd (resume handler dateNow fuel w)))) k) = Some s ->
          gtNumber (failures s) (plusOne (allowedRetries s)) = false
          /\ gtNumber (countCalls (actionText s) INVOKE
                                 (calls (snd (resume handler dateNow fuel w))))
                      (plusOne (allowedRetries s)) = false).
Proof.
  intros H.
  pose proof (beginTransaction_inv (newOrchestrator "model" flowA_negative) "tx" None
                (transaction (worldOf "model" flowA_negative "tx")) [] 0
                (or_introl eq_refl) (or_introl eq_refl) eq_refl) as [Hwf Hall].
  assert (Hs : asStep (prop (steps (getFlow
                 (snd (resume alwaysReject (fun n => n) 20
                         (worldOf "model" flowA_negative "tx"))))) "_root.A")
               = Some (stepOf worldA_negative "_root.A"))
    by (vm_compute; reflexivity).
  destruct (H alwaysReject (fun n => n) 20 (worldOf "model" flowA_negative "tx")
              Hwf Hall "_root.A" _ Hs) as [Hf _].
  vm_compute in Hf. discriminate Hf.
Qed.

(** C2, amended: the retry policy of a step whose [maxRetries] is not
    negative. (1) [maxRetries] defaults to [DEFAULT_RETRIES = 3]. (2) Each
    failure of a dispatched step adds one to [failures]; it sets the status
    to PERMANENT_FAILURE and the state to FAILED exactly when
    [failures > maxRetries], and otherwise leaves TEMPORARY_FAILURE, with
    which [canInvoke] answers true, so the step is dispatched again. (3) Each
    dispatch calls the handler once and adds one to [attempts]. (4) Along
    every run of [resume], for every handler and from every transaction that
    satisfies the invariant, every step whose [maxRetries] (3 when unset) is
    not negative has neither [failures > maxRetries + 1] nor
    [attempts > maxRetries + 1], its status is PERMANENT_FAILURE exactly
    when [failures > maxRetries], and then its state is FAILED and it is
    dispatched no more; when [maxRetries] is the natural number [n] these
    read [failures <= n + 1], [attempts <= n + 1] and [n < failures].
    (5) The transactions made by [beginTransaction] satisfy the invariant. *)
Theorem retry_policy (handler : Handler) (dateNow : nat -> nat) :
  (retriesOf None = numberOf DEFAULT_RETRIES /\ DEFAULT_RETRIES = 3)
  /\ (forall (w : World) (k : string) (s : TransactionStep) (e : Value),
         asStep (prop (steps (getFlow w)) k) = Some s ->
         retryInv s ->
         status (getStates s) = WAITING ->
         exists s',
           asStep (prop (steps (getFlow (snd (catchCallback (k, e) w)))) k) = Some s'
           /\ failures s' = S (failures s)
           /\ (gtNumber (failures s') (allowedRetries s) = true ->
               status (getStates s') = PERMANENT_FAILURE /\ state (getStates s') = FAILED)
           /\ (gtNumber (failures s') (allowedRetries s) = false ->
               status (getStates s') = TEMPORARY_FAILURE
               /\ forall fs, canInvoke fs s' = true))
  /\ (forall (w : World) (k : string) (s : TransactionStep) (parent : StepEntry),
         asStep (prop (steps (getFlow w)) k) = Some s ->
         getPreviousStep (getFlow w) (Full s) = Some parent ->
         exists p r w' s',
           dispatch handler dateNow k w = (Returned (p, r), w')
           /\ calls w' = calls w ++ [mkCall (actionText s) (handlerTypeOf s) p]
           /\ asStep (prop (steps (getFlow w')) k) = Some s'
           /\ attempts s' = S (attempts s))
  /\ (forall (fuel : nat) (w : World),
         wellFormed w -> allRetryInv w ->
         forall k s,
           asStep (prop (steps (getFlow (snd (resume handler dateNow fuel w)))) k) = Some s ->
           gtNumber 0 (allowedRetries s) = false ->
           gtNumber (failures s) (plusOne (allowedRetries s)) = false
           /\ gtNumber (attempts s) (plusOne (allowedRetries s)) = false
           /\ (status (getStates s) = PERMANENT_FAILURE
               <-> gtNumber (failures s) (allowedRetries s) = true)
           /\ (status (getStates s) = PERMANENT_FAILURE ->
               state (getStates s) = FAILED
               /\ forall fs, canInvoke fs s = false /\ canCompensate fs s = false)
           /\ (forall n, allowedRetries s = numberOf n ->
                  failures s <= n + 1
                  /\ attempts s <= n + 1
                  /\ (status (getStates s) = PERMANENT_FAILURE <-> n < failures s)))
  /\ (forall (model : string) (d : TransactionStepsDefinition) (txid : string)
             (p : option PayloadData) (tx : DistributedTransaction),
         beginTransaction (newOrchestrator model d) txid p = Returned tx ->
         wellFormed (mkWorld (newOrchestrator model d) tx [] 0)
         /\ allRetryInv (mkWorld (newOrchestrator model d) tx [] 0)).
Proof.
  split; [split; reflexivity |]. split; [| split; [| split]].
  - intros w k s e Hs Hv Hw.
    destruct (pending_phase s Hv Hw) as [Hph _].
    pose proof (setStepFailure_pending k e w s Hs Hw Hph) as [_ [Hk _]].
    assert (Hcb : snd (catchCallback (k, e) w)
                  = snd (setStepFailure k e (maxRetries (definition s)) w)).
    { unfold catchCallback. simpl fst. simpl snd.
      run_with ltac:(apply stepAt_run; exact Hs). reflexivity. }
    exists (failed s). rewrite Hcb. split; [exact Hk |].
    destruct (failed_facts s) as [Hf [Hp Ht]]. rewrite Hf.
    split; [reflexivity | split; assumption].
  - intros w k s parent Hs Hp.
    destruct (dispatch_run handler dateNow k w s parent Hs Hp) as [d [pd Hd]].
    cbv zeta in Hd.
    eexists; eexists; eexists; eexists. split; [exact Hd |].
    split; [reflexivity |]. split; [apply asStep_putStep_same |].
    apply (launched_frame (dateNow (clockReads w)) (flow_state (getFlow w)) s).
  - intros fuel w Hwf Hall k s Hs Hpos.
    destruct (resume_inv handler dateNow fuel w (conj Hwf Hall)) as [_ Hall'].
    pose proof (Hall' k s Hs) as Hv.
    destruct (retryInv_numbers s Hv Hpos) as [H1 [H2 [H3 H4]]].
    split; [exact H1 |]. split; [exact H2 |]. split; [exact H3 |].
    split; [exact H4 |].
    intros n Hn. pose proof (allowedRetries_limit s n Hn) as Hl.
    assert (Hb : boundedRetries s) by (unfold boundedRetries; rewrite Hl; discriminate).
    assert (Hr : retries s = n) by (unfold retries; now rewrite Hl).
    destruct (retryInv_bounds s Hv Hb) as [Hf [Ha [Hp _]]]. rewrite Hr in *.
    split; [exact Hf | split; [exact Ha | exact Hp]].
  - intros model d txid p tx Hb.
    apply (beginTransaction_inv (newOrchestrator model d) txid p tx [] 0);
      [now left | now left | exact Hb].
Qed.

Lemma retry_policy_witness :
  allowedRetries (stepOf worldA_retriedOnce "_root.A") = numberOf 1
  /\ countCalls "A" INVOKE (calls worldA_retriedOnce) = 2
  /\ countCalls "A" COMPENSATE (calls worldA_retriedOnce) = 2
  /\ failures (stepOf worldA_retriedOnce "_root.A") = 2
  /\ failures (stepOf worldA_retriedOnce "_root.A") <= 1 + 1
  /\ attempts (stepOf worldA_retriedOnce "_root.A") <= 1 + 1
  /\ (status (getStates (stepOf worldA_retriedOnce "_root.A")) = PERMANENT_FAILURE
      <-> 1 < failures (stepOf worldA_retriedOnce "_root.A")).
Proof.
  assert (Hs : asStep (prop (steps (getFlow
                 (snd (resume alwaysReject (fun n => n) 20
                         (worldOf "model" flowA_retryOnce "tx"))))) "_root.A")
               = Some (stepOf worldA_retriedOnce "_root.A"))
    by (vm_compute; reflexivity).
  split; [reflexivity |]. split; [reflexivity |]. split; [reflexivity |].
  split; [reflexivity |].
  destruct (retry_policy alwaysReject (fun n => n))
    as [_ [_ [_ [Hrun Hbegin]]]].
  destruct (Hbegin "model" flowA_retryOnce "tx" None
              (transaction (worldOf "model" flowA_retryOnce "tx")) eq_refl) as [Hwf Hall].
  destruct (Hrun 20 (worldOf "model" flowA_retryOnce "tx") Hwf Hall "_root.A"
              (stepOf worldA_retriedOnce "_root.A") Hs eq_refl)
    as [_ [_ [_ [_ Hnat]]]].
  exact (Hnat 1 eq_refl).
Defined.

(** * Keys and paths *)

Lemma split_nonempty (sep : ascii) (s : string) : split sep s <> [].
Proof.
  destruct s as [| c r]; simpl; [discriminate |].
  destruct (Ascii.eqb c sep); [discriminate |].
  destruct (split sep r); discriminate.
Qed.

(** [s.split(sep).join(sep)] is [s]. *)
Lemma join_split (sep : ascii) (s : string) :
  join (String sep EmptyString) (split sep s) = s.
Proof.
  unfold join. induction s as [| c r IH]; simpl; [reflexivity |].
  destruct (Ascii.eqb c sep) eqn:E.
  - apply Ascii.eqb_eq in E. subst c.
    destruct (split sep r) as [| h t] eqn:Er; [now apply split_nonempty in Er |].
    simpl in *. now rewrite IH.
  - destruct (split sep r) as [| h t] eqn:Er; [now apply split_nonempty in Er |].
    destruct t as [| h' t']; simpl in *; now rewrite <- IH.
Qed.

Lemma split_free (sep : ascii) (s : string) :
  freeOf sep s = true -> split sep s = [s].
Proof.
  induction s as [| c r IH]; simpl; [reflexivity |].
  intros H. apply Bool.andb_true_iff in H. destruct H as [Hc Hr].
  apply Bool.negb_true_iff in Hc. rewrite Hc, (IH Hr). reflexivity.
Qed.

Lemma split_app (sep : ascii) (p q : string) :
  split sep (String.append p (String sep q)) = split sep p ++ split sep q.
Proof.
  induction p as [| c r IH]; simpl.
  - now rewrite Ascii.eqb_refl.
  - destruct (Ascii.eqb c sep); rewrite IH; [reflexivity |].
    destruct (split sep r) as [| h t] eqn:Er; [now apply split_nonempty in Er |].
    reflexivity.
Qed.

(** [l.join(sep).split(sep)] is [l] when no element contains [sep]. *)
Lemma split_join (sep : ascii) (l : list string) :
  l <> [] -> Forall (fun x => freeOf sep x = true) l ->
  split sep (join (String sep EmptyString) l) = l.
Proof.
  unfold join. induction l as [| x l IH]; intros Hne Hfree; [contradiction |].
  inversion Hfree as [| x0 l0 Hx Hl]; subst.
  destruct l as [| y l'].
  - simpl. now apply split_free.
  - change (String.concat (String sep EmptyString) (x :: y :: l'))
      with (String.append x (String sep (String.concat (String sep EmptyString) (y :: l')))).
    rewrite split_app, (split_free sep x Hx), IH; [reflexivity | discriminate | exact Hl].
Qed.

Lemma handlerType_str_free (ty : TransactionHandlerType) :
  freeOf ":"%char (handlerType_str ty) = true.
Proof. now destruct ty. Qed.

Lemma handlerType_str_inj (a b : TransactionHandlerType) :
  handlerType_str a = handlerType_str b -> a = b.
Proof. destruct a, b; simpl; intros H; try reflexivity; discriminate H. Qed.

(** The idempotency key of a dispatch splits back into the transaction id,
    the action and the phase it was made of. *)
Lemma getKeyName_split (t a : string) (ty : TransactionHandlerType) :
  freeOf ":"%char t = true -> freeOf ":"%char a = true ->
  split ":"%char (getKeyName [t; a; handlerType_str ty]) = [t; a; handlerType_str ty].
Proof.
  intros Ht Ha. unfold getKeyName, SEPARATOR.
  apply (split_join ":"%char); [discriminate |].
  repeat constructor; auto using handlerType_str_free.
Qed.

(** The idempotency key names one transaction, one action and one phase:
    when transaction ids and action names contain no [":"], two keys made by
    [getKeyName] as [executeNext] makes them are equal only if they are made
    of the same transaction id, the same action and the same phase. *)
Theorem idempotency_key_injective (t1 a1 t2 a2 : string)
        (ty1 ty2 : TransactionHandlerType) :
  freeOf ":"%char t1 = true -> freeOf ":"%char a1 = true ->
  freeOf ":"%char t2 = true -> freeOf ":"%char a2 = true ->
  getKeyName [t1; a1; handlerType_str ty1] = getKeyName [t2; a2; handlerType_str ty2] ->
  t1 = t2 /\ a1 = a2 /\ ty1 = ty2.
Proof.
  intros Ht1 Ha1 Ht2 Ha2 Heq.
  pose proof (getKeyName_split t1 a1 ty1 Ht1 Ha1) as H1.
  rewrite Heq, (getKeyName_split t2 a2 ty2 Ht2 Ha2) in H1.
  injection H1 as -> -> Hty. repeat split. now apply handlerType_str_inj.
Qed.

Lemma idempotency_key_injective_witness :
  "tx" = "tx" /\ "A" = "A" /\ INVOKE = INVOKE.
Proof.
  apply (idempotency_key_injective "tx" "A" "tx" "A" INVOKE INVOKE); reflexivity.
Defined.

(** Without that condition two different dispatches can share a key. *)
Lemma idempotency_key_collision :
  getKeyName ["a:b"; "c"; handlerType_str INVOKE]
  = getKeyName ["a"; "b:c"; handlerType_str INVOKE].
Proof. reflexivity. Qed.

Lemma parentId_child (p a : string) :
  freeOf "."%char a = true ->
  parentId (String.append p (String "."%char a)) = p.
Proof.
  intros Ha. unfold parentId.
  rewrite split_app, (split_free "."%char a Ha), removelast_last.
  apply join_split.
Qed.

Lemma parentId_free (i : string) : freeOf "."%char i = true -> parentId i = "".
Proof. intros H. unfold parentId. now rewrite (split_free "."%char i H). Qed.

(** [getPreviousStep] finds the parent through the id: for a step whose id
    is a path [p], a dot and a name without dot, it is the entry of the flow
    under [p], whatever [p] is; for an entry whose id has no dot, as the
    root's, it is what the flow holds under the empty key. *)
Theorem getPreviousStep_by_path (f : TransactionFlow) (step : StepEntry) :
  (forall p a : string,
      freeOf "."%char a = true ->
      entry_id step = String.append p (String "."%char a) ->
      getPreviousStep f step = prop (steps f) p)
  /\ (freeOf "."%char (entry_id step) = true ->
      getPreviousStep f step = prop (steps f) "").
Proof.
  split.
  - intros p a Ha Hid. unfold getPreviousStep. now rewrite Hid, parentId_child.
  - intros Hfree. unfold getPreviousStep. now rewrite parentId_free.
Qed.

Lemma getPreviousStep_by_path_witness :
  getPreviousStep (getFlow worldAB) (Full (stepOf worldAB "_root.A.B"))
  = prop (steps (getFlow worldAB)) "_root.A"
  /\ getPreviousStep (getFlow worldAB) (Bare "_root" ["_root.A"]) = None.
Proof.
  destruct (getPreviousStep_by_path (getFlow worldAB) (Full (stepOf worldAB "_root.A.B")))
    as [H _].
  split; [apply (H "_root.A" "B"); reflexivity |].
  destruct (getPreviousStep_by_path (getFlow worldAB) (Bare "_root" ["_root.A"]))
    as [_ H'].
  rewrite H'; reflexivity.
Defined.

(** The callbacks given to [registerStepSuccess] and [registerStepFailure]
    are filtered on the second part of the idempotency key, which is the
    action and not the transaction id: for a key made by the engine, the
    events of the transaction reach the subscriber only if the id of the
    transaction is the name of the action. With the [transaction] at hand, as
    in [run] and [cancel], its own events always pass. *)
Theorem event_callbacks_filter (tx : DistributedTransaction) (a : string)
        (ty : TransactionHandlerType) :
  freeOf ":"%char (transactionId tx) = true ->
  freeOf ":"%char a = true ->
  callbackTransactionId None (Some (getKeyName [transactionId tx; a; handlerType_str ty]))
  = Some a
  /\ (callbackAccepts (modelId tx)
        (callbackTransactionId None
           (Some (getKeyName [transactionId tx; a; handlerType_str ty]))) tx = true
      <-> transactionId tx = a)
  /\ callbackAccepts (modelId tx) (callbackTransactionId (Some tx) None) tx = true.
Proof.
  intros Ht Ha.
  assert (Hk : callbackTransactionId None
                 (Some (getKeyName [transactionId tx; a; handlerType_str ty])) = Some a).
  { unfold callbackTransactionId.
    rewrite (getKeyName_split _ _ ty Ht Ha).
    destruct (String.eqb _ "") eqn:E; [| reflexivity].
    apply String.eqb_eq in E.
    pose proof (getKeyName_split _ _ ty Ht Ha) as Hs. rewrite E in Hs. discriminate Hs. }
  split; [exact Hk |]. split.
  - rewrite Hk. unfold callbackAccepts. rewrite String.eqb_refl. simpl.
    rewrite Bool.orb_false_r, Bool.negb_involutive. apply String.eqb_eq.
  - unfold callbackAccepts, callbackTransactionId. now rewrite !String.eqb_refl.
Qed.

Lemma event_callbacks_filter_witness :
  callbackAccepts "model"
    (callbackTransactionId None (Some "tx:A:invoke")) (transaction worldAB) = true
  <-> "tx" = "A".
Proof.
  apply (event_callbacks_filter (transaction worldAB) "A" INVOKE); reflexivity.
Defined.

(** * The steps table made by [buildSteps] *)

(** An invariant of the loop holds when it ends; an error of a turn is the
    error of the loop. *)
Lemma buildLoop_rule (P : BuildState -> list QueueItem -> Prop) (E : Error -> Prop) :
  (forall it rest b, P b (it :: rest) ->
     match visit it b with
     | (Returned pushed, b') => P b' (rest ++ pushed)
     | (Thrown e, _) => E e
     | (OutOfFuel, _) => True
     end) ->
  forall fuel queue b, P b queue ->
    match buildLoop fuel queue b with
    | (Returned _, b') => P b' []
    | (Thrown e, _) => E e
    | (OutOfFuel, _) => True
    end.
Proof.
  intros Hstep. induction fuel as [| fuel IH]; intros queue b HP;
    destruct queue as [| it rest]; simpl; try exact HP; try exact I.
  unfold bind. specialize (Hstep it rest b HP).
  destruct (visit it b) as [[pushed | e |] b']; [| exact Hstep | exact I].
  now apply IH.
Qed.

Lemma visit_array (ds : list TransactionStepsDefinition) (level : list string)
      (b : BuildState) :
  visit (QArr ds, level) b = (Returned (map (fun d => (QDef d, level)) ds), b).
Proof. reflexivity. Qed.

Lemma visit_no_action (d : TransactionStepsDefinition) (level : list string)
      (b : BuildState) :
  action (policy_of d) = None ->
  visit (QDef d, level) b = (Returned (childItems d level), b).
Proof.
  intros Ha. cbn [visit]. unfold visitAction. rewrite Ha.
  unfold bind, ret. now destruct d.
Qed.

Lemma visit_duplicate (d : TransactionStepsDefinition) (level : list string)
      (b : BuildState) (a : string) :
  action (policy_of d) = Some a ->
  existsb (String.eqb a) (actionNames b) = true ->
  visit (QDef d, level) b = (Thrown (DuplicateAction (Some a)), b).
Proof.
  intros Ha Hdup. cbn [visit]. unfold visitAction. rewrite Ha.
  unfold registerAction, bind, get, throw. now rewrite Hdup.
Qed.

(** The turn that registers a new action under a parent that is in the
    table. *)
Lemma visit_register (d : TransactionStepsDefinition) (level : list string)
      (b : BuildState) (a : string) (e : StepEntry) :
  action (policy_of d) = Some a ->
  existsb (String.eqb a) (actionNames b) = false ->
  prop (states b) (join "." level) = Some e ->
  exists (st : TransactionStep) (ex' : Obj TransactionStep),
    visit (QDef d, level) b
    = (Returned (childItems d (level ++ [a])),
       mkBuild (assign (join "." (level ++ [a])) (Full st)
                       (assign (join "." level) (pushEntry e (join "." (level ++ [a])))
                               (states b)))
               (actionNames b ++ [a]) ex')
    /\ (existingSteps b = [] ->
        ex' = [] /\ st = freshStep (join "." (level ++ [a])) (level ++ [a]) (policy_of d)).
Proof.
  intros Ha Hnew He. cbn [visit]. unfold visitAction. rewrite Ha.
  unfold registerAction, bind, get, modify, pushNext, ret. rewrite Hnew. simpl.
  rewrite He. destruct e as [r n | s]; simpl.
  - eexists; eexists. split; [now destruct d |].
    intros Hex. rewrite Hex. simpl. split; reflexivity.
  - destruct (prop (existingSteps b) (join "." level)) as [old |] eqn:Eo.
    + eexists; eexists. split; [now destruct d |].
      intros Hex. rewrite Hex in Eo. discriminate Eo.
    + eexists; eexists. split; [now destruct d |].
      intros Hex. rewrite Hex. simpl. split; reflexivity.
Qed.

Lemma pendingActions_app (q1 q2 : list QueueItem) :
  pendingActions (q1 ++ q2) = pendingActions q1 ++ pendingActions q2.
Proof. unfold pendingActions. apply flat_map_app. Qed.

Lemma pendingActions_array (ds : list TransactionStepsDefinition) (level : list string) :
  pendingActions (map (fun d => (QDef d, level)) ds) = flat_map allActions ds.
Proof.
  unfold pendingActions. induction ds as [| d ds IH]; simpl; [reflexivity |].
  unfold itemActions at 1. simpl. now rewrite IH.
Qed.

Lemma allActions_children (d : TransactionStepsDefinition) (level : list string) :
  allActions d = optAction (policy_of d) ++ pendingActions (childItems d level).
Proof.
  destruct d as [p | p n | p ns]; unfold pendingActions, itemActions; simpl;
    now rewrite ?app_nil_r.
Qed.

Lemma existsb_eqb_In (a : string) (l : list string) :
  existsb (String.eqb a) l = true <-> In a l.
Proof.
  rewrite existsb_exists. split.
  - intros [x [Hx He]]. apply String.eqb_eq in He. now subst.
  - intros H. exists a. split; [exact H | apply String.eqb_refl].
Qed.

Lemma prop_assign_Some {V} (k k' : string) (v : V) (o : Obj V) :
  prop o k' <> None -> prop (assign k v o) k' <> None.
Proof.
  intros H. destruct (String.eqb k k') eqn:E.
  - apply String.eqb_eq in E. subst k'. rewrite prop_assign_same. discriminate.
  - apply String.eqb_neq in E. now rewrite prop_assign_other.
Qed.

Lemma visit_names (total : list string) (it : QueueItem) (rest : list QueueItem)
      (b : BuildState) :
  namesInv total b (it :: rest) ->
  match visit it b with
  | (Returned pushed, b') => namesInv total b' (rest ++ pushed)
  | (Thrown e, _) =>
      exists a, e = DuplicateAction (Some a) /\ In a total /\ ~ NoDup total
  | (OutOfFuel, _) => True
  end.
Proof.
  intros [Hperm [Hnd Hpar]]. destruct it as [[d | ds] level].
  - assert (Hrest : forall obj l, In (obj, l) rest ->
                      prop (states b) (join "." l) <> None).
    { intros obj l Hin. apply (Hpar obj l). now right. }
    assert (Hhead : prop (states b) (join "." level) <> None).
    { apply (Hpar (QDef d) level). now left. }
    unfold pendingActions in Hperm. simpl in Hperm. fold (pendingActions rest) in Hperm.
    unfold itemActions in Hperm. simpl in Hperm.
    destruct (action (policy_of d)) as [a |] eqn:Ea.
    + rewrite (allActions_children d (level ++ [a])) in Hperm.
      unfold optAction in Hperm. rewrite Ea in Hperm. simpl in Hperm.
      destruct (existsb (String.eqb a) (actionNames b)) eqn:Edup.
      * rewrite (visit_duplicate d level b a Ea Edup).
        apply existsb_eqb_In in Edup. exists a. split; [reflexivity |]. split.
        -- apply (Permutation_in _ Hperm). apply in_or_app. now left.
        -- intros Hnd'. apply (Permutation_NoDup (Permutation_sym Hperm)) in Hnd'.
           apply NoDup_remove_2 in Hnd'. apply Hnd'. apply in_or_app. now left.
      * destruct (prop (states b) (join "." level)) as [e |] eqn:Ee; [| contradiction].
        destruct (visit_register d level b a e Ea Edup Ee) as [st [ex' [Hrun _]]].
        rewrite Hrun. unfold namesInv. cbn [actionNames states].
        split; [| split].
        -- rewrite pendingActions_app, <- app_assoc. simpl.
           apply perm_trans with (2 := Hperm). apply Permutation_app_head.
           apply Permutation_cons; [reflexivity |]. apply Permutation_app_comm.
        -- apply NoDup_app_remove_l with (l := []). simpl.
           apply Permutation_NoDup with (l := a :: actionNames b);
             [apply Permutation_cons_append |].
           constructor; [| exact Hnd]. intros Hin.
           apply existsb_eqb_In in Hin. congruence.
        -- intros obj l Hin. apply in_app_or in Hin. destruct Hin as [Hin | Hin].
           ++ apply prop_assign_Some, prop_assign_Some. now apply (Hrest obj l).
           ++ assert (Hl : l = level ++ [a]).
              { destruct d as [p | p n | p ns]; simpl in Hin;
                  [contradiction | |]; destruct Hin as [Hin | []]; congruence. }
              subst l. rewrite prop_assign_same. discriminate.
    + rewrite (visit_no_action d level b Ea). unfold namesInv.
      rewrite (allActions_children d level) in Hperm.
      unfold optAction in Hperm. rewrite Ea in Hperm. simpl in Hperm.
      split; [| split; [exact Hnd |]].
      * rewrite pendingActions_app.
        apply perm_trans with (2 := Hperm). apply Permutation_app_head.
        apply Permutation_app_comm.
      * intros obj l Hin. apply in_app_or in Hin. destruct Hin as [Hin | Hin].
        -- now apply (Hrest obj l).
        -- assert (Hl : l = level).
           { destruct d as [p | p n | p ns]; simpl in Hin;
               [contradiction | |]; destruct Hin as [Hin | []]; congruence. }
           now subst l.
  - rewrite visit_array. unfold namesInv.
    unfold pendingActions in Hperm. simpl in Hperm. fold (pendingActions rest) in Hperm.
    unfold itemActions in Hperm. simpl in Hperm.
    split; [| split; [exact Hnd |]].
    + rewrite pendingActions_app, pendingActions_array.
      apply perm_trans with (2 := Hperm). apply Permutation_app_head.
      apply Permutation_app_comm.
    + intros obj l Hin. apply in_app_or in Hin. destruct Hin as [Hin | Hin].
      * apply (Hpar obj l). now right.
      * apply in_map_iff in Hin. destruct Hin as [d [Hd _]].
        injection Hd as _ <-. apply (Hpar (QArr ds) level). now left.
Qed.

Lemma namesInv_initial (d : TransactionStepsDefinition)
      (existing : option (Obj TransactionStep)) :
  namesInv (allActions d) (initialBuild existing) [(QDef d, [ROOT_STEP])].
Proof.
  unfold namesInv, initialBuild. cbn [actionNames states].
  split; [| split; [constructor |]].
  - unfold pendingActions, itemActions. simpl. now rewrite app_nil_r.
  - intros obj level [Hin | []]. injection Hin as _ <-. discriminate.
Qed.

(** [buildSteps] ends, and it throws exactly when an action name is written
    twice in the definition: with distinct names it returns the table, and
    otherwise it throws the error of a name "already defined", whether it
    builds from scratch or over existing steps; it throws nothing else. *)
Theorem buildSteps_duplicate_actions (d : TransactionStepsDefinition)
        (existing : option (Obj TransactionStep)) :
  (NoDup (allActions d) -> exists st, buildSteps d existing = Returned st)
  /\ (~ NoDup (allActions d) ->
      exists a, buildSteps d existing = Thrown (DuplicateAction (Some a))
                /\ In a (allActions d)).
Proof.
  pose proof (buildSteps_terminates d existing) as Hfuel.
  pose proof (buildLoop_rule (namesInv (allActions d)) _ (visit_names (allActions d))
                (queueWeight [(QDef d, [ROOT_STEP])]) [(QDef d, [ROOT_STEP])]
                (initialBuild existing) (namesInv_initial d existing)) as Hloop.
  unfold buildSteps in *.
  destruct (buildLoop (queueWeight [(QDef d, [ROOT_STEP])]) [(QDef d, [ROOT_STEP])]
                      (initialBuild existing)) as [[[] | e |] b]; [| | contradiction].
  - destruct Hloop as [Hperm [Hnd _]]. split.
    + intros _. now exists (states b).
    + intros Hdup. exfalso. apply Hdup.
      unfold pendingActions in Hperm. simpl in Hperm. rewrite app_nil_r in Hperm.
      apply (Permutation_NoDup Hperm Hnd).
  - destruct Hloop as [a [-> [Hin Hdup]]]. split.
    + intros Hnd. contradiction.
    + intros _. now exists a.
Qed.

Lemma buildSteps_duplicate_actions_witness :
  (exists st, buildSteps flowAB None = Returned st)
  /\ (exists a, buildSteps (Single noPolicy (Single (policy "A") (Last (policy "A")))) None
                = Thrown (DuplicateAction (Some a))
                /\ In a ["A"; "A"]).
Proof.
  split.
  - apply (proj1 (buildSteps_duplicate_actions flowAB None)).
    repeat constructor; simpl; intuition discriminate.
  - apply (proj2 (buildSteps_duplicate_actions
                    (Single noPolicy (Single (policy "A") (Last (policy "A")))) None)).
    intros H. inversion H as [| x l Hnot _]. apply Hnot. now left.
Defined.

Lemma append_neq (x : string) (c : ascii) (r : string) :
  String.append x (String c r) <> x.
Proof.
  induction x as [| c0 x IH]; simpl; [discriminate |].
  intros H. injection H as H. now apply IH.
Qed.

Lemma append_assoc (x y z : string) :
  String.append (String.append x y) z = String.append x (String.append y z).
Proof. induction x as [| c x IH]; simpl; [reflexivity | now rewrite IH]. Qed.

Lemma join_snoc (sep : string) (l : list string) (a : string) :
  l <> [] -> join sep (l ++ [a]) = String.append (join sep l) (String.append sep a).
Proof.
  unfold join. induction l as [| x l IH]; intros Hne; [contradiction |].
  destruct l as [| y l'].
  - reflexivity.
  - change (String.concat sep ((x :: y :: l') ++ [a]))
      with (String.append x (String.append sep (String.concat sep ((y :: l') ++ [a])))).
    rewrite IH by discriminate.
    change (String.concat sep (x :: y :: l'))
      with (String.append x (String.append sep (String.concat sep (y :: l')))).
    now rewrite !append_assoc.
Qed.

(** The id of a new step is neither the key of its parent nor the root. *)
Lemma child_id_fresh (rest : list string) (a : string) :
  join "." ((ROOT_STEP :: rest) ++ [a]) <> join "." (ROOT_STEP :: rest)
  /\ join "." ((ROOT_STEP :: rest) ++ [a]) <> ROOT_STEP.
Proof.
  rewrite join_snoc by discriminate. split; [apply append_neq |].
  destruct rest as [| y l]; [apply (append_neq ROOT_STEP) |].
  change (join "." (ROOT_STEP :: y :: l))
    with (String.append ROOT_STEP (String "."%char (join "." (y :: l)))).
  rewrite append_assoc. apply (append_neq ROOT_STEP).
Qed.

(** The table after the registration of [i] under [parent]. *)
Lemma prop_registered (i parent k : string) (st : TransactionStep) (e : StepEntry)
      (o : Obj StepEntry) :
  i <> parent ->
  prop (assign i (Full st) (assign parent (pushEntry e i) o)) k
  = if String.eqb i k then Some (Full st)
    else if String.eqb parent k then Some (pushEntry e i)
         else prop o k.
Proof.
  intros Hne. destruct (String.eqb i k) eqn:E1.
  - apply String.eqb_eq in E1. subst k. apply prop_assign_same.
  - apply String.eqb_neq in E1. rewrite prop_assign_other by exact E1.
    destruct (String.eqb parent k) eqn:E2.
    + apply String.eqb_eq in E2. subst k. apply prop_assign_same.
    + apply String.eqb_neq in E2. now apply prop_assign_other.
Qed.

Lemma pristine_freshStep (i : string) (level : list string) (p : StepPolicy) :
  pristine (freshStep i level p).
Proof. unfold pristine, freshStep. simpl. repeat split. Qed.

Lemma childItems_level (d : TransactionStepsDefinition) (level l : list string)
      (obj : QueueObj) :
  In (obj, l) (childItems d level) -> l = level.
Proof.
  destruct d as [p | p n | p ns]; simpl; [contradiction | |];
    intros [H | []]; congruence.
Qed.

Lemma visit_table (it : QueueItem) (rest : list QueueItem) (b : BuildState) :
  tableInv b (it :: rest) ->
  match visit it b with
  | (Returned pushed, b') => tableInv b' (rest ++ pushed)
  | _ => True
  end.
Proof.
  intros [Hex [Hroot [Hbare [Hfull [Hres Hq]]]]].
  assert (Hrest : forall obj l, In (obj, l) rest ->
                    (exists r, l = ROOT_STEP :: r)
                    /\ prop (states b) (join "." l) <> None).
  { intros obj l Hin. apply (Hq obj l). now right. }
  destruct it as [[d | ds] level].
  - destruct (Hq (QDef d) level (or_introl eq_refl)) as [[lrest Hlevel] Hparent].
    destruct (action (policy_of d)) as [a |] eqn:Ea.
    + destruct (existsb (String.eqb a) (actionNames b)) eqn:Edup.
      { now rewrite (visit_duplicate d level b a Ea Edup). }
      destruct (prop (states b) (join "." level)) as [e |] eqn:Ee; [| contradiction].
      destruct (visit_register d level b a e Ea Edup Ee) as [st [ex' [Hrun Hfresh]]].
      destruct (Hfresh Hex) as [-> ->]. rewrite Hrun. clear Hrun Hfresh.
      set (i := join "." (level ++ [a])).
      set (parent := join "." level) in *.
      destruct (child_id_fresh lrest a) as [Hip Hir].
      rewrite <- Hlevel in Hip, Hir. fold i in Hip, Hir. fold parent in Hip.
      set (st := freshStep i (level ++ [a]) (policy_of d)).
      assert (Hprop : forall k,
                 prop (assign i (Full st) (assign parent (pushEntry e i) (states b))) k
                 = if String.eqb i k then Some (Full st)
                   else if String.eqb parent k then Some (pushEntry e i)
                        else prop (states b) k).
      { intros k. now apply prop_registered. }
      assert (Hkeep : forall c s, prop (states b) c = Some (Full s) ->
                        exists s', prop (assign i (Full st)
                                                (assign parent (pushEntry e i) (states b))) c
                                   = Some (Full s')).
      { intros c s Hc. rewrite Hprop. destruct (String.eqb i c); [now exists st |].
        destruct (String.eqb parent c) eqn:E2; [| now exists s].
        apply String.eqb_eq in E2. subst c. rewrite Ee in Hc. injection Hc as ->.
        simpl. eexists. reflexivity. }
      unfold tableInv. cbn [existingSteps states actionNames].
      split; [reflexivity |]. split; [| split; [| split; [| split]]].
      * rewrite Hprop. destruct (String.eqb i ROOT_STEP) eqn:E1.
        { apply String.eqb_eq in E1. contradiction. }
        destruct (String.eqb parent ROOT_STEP) eqn:E2; [| exact Hroot].
        apply String.eqb_eq in E2. destruct Hroot as [n Hn].
        rewrite E2 in Ee. rewrite Ee in Hn. injection Hn as ->.
        simpl. eexists. reflexivity.
      * intros k r n Hk. rewrite Hprop in Hk.
        destruct (String.eqb i k); [discriminate |].
        destruct (String.eqb parent k) eqn:E2; [| now apply (Hbare k r n)].
        apply String.eqb_eq in E2. subst k.
        destruct e as [r0 n0 | s0]; [| discriminate]. now apply (Hbare parent r0 n0).
      * intros k s Hk. rewrite Hprop in Hk.
        destruct (String.eqb i k) eqn:E1.
        { apply String.eqb_eq in E1. subst k. injection Hk as <-.
          split; [reflexivity |]. split; [apply pristine_freshStep |].
          exists a. split; [exact Ea | apply in_or_app; right; now left]. }
        destruct (String.eqb parent k) eqn:E2.
        { apply String.eqb_eq in E2. subst k.
          destruct e as [r0 n0 | s0]; [discriminate |]. simpl in Hk. injection Hk as <-.
          destruct (Hfull parent s0 Ee) as [Hid [Hpr [a0 [Ha0 Hin0]]]].
          split; [exact Hid |]. split; [exact Hpr |].
          exists a0. split; [exact Ha0 | apply in_or_app; now left]. }
        destruct (Hfull k s Hk) as [Hid [Hpr [a0 [Ha0 Hin0]]]].
        split; [exact Hid |]. split; [exact Hpr |].
        exists a0. split; [exact Ha0 | apply in_or_app; now left].
      * intros k e' c Hk Hc. rewrite Hprop in Hk.
        destruct (String.eqb i k) eqn:E1.
        { injection Hk as <-. simpl in Hc. contradiction. }
        destruct (String.eqb parent k) eqn:E2.
        { apply String.eqb_eq in E2. subst k. injection Hk as <-.
          assert (Hc' : In c (entry_next e) \/ c = i).
          { destruct e as [r0 n0 | s0]; simpl in Hc; apply in_app_or in Hc;
              destruct Hc as [Hc | [Hc | []]]; auto. }
          destruct Hc' as [Hc' | ->].
          - destruct (Hres parent e c Ee Hc') as [s Hs]. now apply (Hkeep c s).
          - exists st. rewrite Hprop. now rewrite String.eqb_refl. }
        destruct (Hres k e' c Hk Hc) as [s Hs]. now apply (Hkeep c s).
      * intros obj l Hin. apply in_app_or in Hin. destruct Hin as [Hin | Hin].
        -- destruct (Hrest obj l Hin) as [Hl Hp]. split; [exact Hl |].
           now apply prop_assign_Some, prop_assign_Some.
        -- apply childItems_level in Hin. subst l. split.
           ++ exists (lrest ++ [a]). now rewrite Hlevel.
           ++ fold i. rewrite prop_assign_same. discriminate.
    + rewrite (visit_no_action d level b Ea). unfold tableInv.
      split; [exact Hex |]. split; [exact Hroot |]. split; [exact Hbare |].
      split; [exact Hfull |]. split; [exact Hres |].
      intros obj l Hin. apply in_app_or in Hin. destruct Hin as [Hin | Hin].
      * now apply (Hrest obj l).
      * apply childItems_level in Hin. subst l. split; [now exists lrest | exact Hparent].
  - rewrite visit_array. unfold tableInv.
    split; [exact Hex |]. split; [exact Hroot |]. split; [exact Hbare |].
    split; [exact Hfull |]. split; [exact Hres |].
    intros obj l Hin. apply in_app_or in Hin. destruct Hin as [Hin | Hin].
    + now apply (Hrest obj l).
    + apply in_map_iff in Hin. destruct Hin as [d [Hd _]]. injection Hd as _ <-.
      apply (Hq (QArr ds) level). now left.
Qed.

Lemma tableInv_initial (d : TransactionStepsDefinition) :
  tableInv (initialBuild None) [(QDef d, [ROOT_STEP])].
Proof.
  unfold tableInv, initialBuild. cbn [existingSteps states actionNames prop].
  split; [reflexivity |]. split; [now exists [] |].
  split; [| split; [| split]].
  - intros k r n Hk. destruct (String.eqb ROOT_STEP k) eqn:E; [| discriminate].
    now apply String.eqb_eq in E.
  - intros k s Hk. destruct (String.eqb ROOT_STEP k); discriminate.
  - intros k e c Hk Hc. destruct (String.eqb ROOT_STEP k); [| discriminate].
    injection Hk as <-. contradiction.
  - intros obj level [Hin | []]. injection Hin as _ <-.
    split; [now exists [] | discriminate].
Qed.

Lemma freshInv_initial : freshInv (initialBuild None).
Proof.
  unfold freshInv, initialBuild. cbn [states existingSteps keys map fst prop].
  split; [reflexivity |]. split.
  - constructor; [intros [] | constructor].
  - split; [now left |]. intros k s Hk.
    destruct (String.eqb ROOT_STEP k); discriminate Hk.
Qed.

(** The table that [buildSteps] makes from scratch: its keys are distinct;
    the root is a bare entry; every other entry is a step whose id is its
    key, untouched (not started, idle, no attempt, no failure, no response)
    and carrying an action of the definition; and every id listed in a [next]
    is the key of a step of the table. *)
Theorem buildSteps_fresh_table (d : TransactionStepsDefinition) (st : Obj StepEntry) :
  buildSteps d None = Returned st ->
  NoDup (keys st)
  /\ (exists n, prop st ROOT_STEP = Some (Bare ROOT_STEP n))
  /\ (forall k e, prop st k = Some e -> k <> ROOT_STEP ->
        exists s a, e = Full s /\ id s = k /\ pristine s
                    /\ action (definition s) = Some a /\ In a (allActions d))
  /\ (forall k e c, prop st k = Some e -> In c (entry_next e) ->
        exists s, prop st c = Some (Full s)).
Proof.
  intros Hbuild. unfold buildSteps in Hbuild.
  pose proof (buildLoop_rule tableInv (fun _ => True) visit_table
                (queueWeight [(QDef d, [ROOT_STEP])]) [(QDef d, [ROOT_STEP])]
                (initialBuild None) (tableInv_initial d)) as Htable.
  pose proof (buildLoop_rule (namesInv (allActions d)) _ (visit_names (allActions d))
                (queueWeight [(QDef d, [ROOT_STEP])]) [(QDef d, [ROOT_STEP])]
                (initialBuild None) (namesInv_initial d None)) as Hnames.
  pose proof (buildLoop_fresh (queueWeight [(QDef d, [ROOT_STEP])])
                [(QDef d, [ROOT_STEP])] (initialBuild None) freshInv_initial) as Hfresh.
  destruct (buildLoop (queueWeight [(QDef d, [ROOT_STEP])]) [(QDef d, [ROOT_STEP])]
                      (initialBuild None)) as [[[] | e |] b]; try discriminate Hbuild.
  injection Hbuild as <-. simpl snd in Hfresh.
  destruct Htable as [_ [Hroot [Hbare [Hfull [Hres _]]]]].
  destruct Hnames as [Hperm _].
  destruct Hfresh as [_ [Hnd _]].
  split; [exact Hnd |]. split; [exact Hroot |]. split; [| exact Hres].
  intros k e Hk Hne. destruct e as [r n | s].
  - exfalso. apply Hne. now apply (Hbare k r n).
  - destruct (Hfull k s Hk) as [Hid [Hpr [a [Ha Hin]]]].
    exists s, a. repeat split; try assumption; try apply Hpr.
    apply (Permutation_in _ Hperm). apply in_or_app. now left.
Qed.

Lemma buildSteps_fresh_table_witness :
  buildSteps flowAB None = Returned (steps (getFlow worldAB))
  /\ NoDup (keys (steps (getFlow worldAB))).
Proof.
  split; [reflexivity |].
  apply (proj1 (buildSteps_fresh_table flowAB (steps (getFlow worldAB)) eq_refl)).
Defined.

(** Paths made of names without dot are equal when their keys are. *)
Lemma join_dot_inj (l l' : list string) :
  l <> [] -> l' <> [] -> Forall dotFree l -> Forall dotFree l' ->
  join "." l = join "." l' -> l = l'.
Proof.
  intros Hl Hl' Hf Hf' Heq.
  rewrite <- (split_join "."%char l Hl Hf), <- (split_join "."%char l' Hl' Hf').
  now rewrite Heq.
Qed.

Lemma parentId_join (level : list string) (a : string) :
  level <> [] -> dotFree a -> parentId (join "." (level ++ [a])) = join "." level.
Proof.
  intros Hne Ha. rewrite join_snoc by exact Hne. now apply parentId_child.
Qed.

Lemma visit_tree (it : QueueItem) (rest : list QueueItem) (b : BuildState) :
  tableInv b (it :: rest) /\ treeInv b (it :: rest) ->
  match visit it b with
  | (Returned pushed, b') => tableInv b' (rest ++ pushed) /\ treeInv b' (rest ++ pushed)
  | _ => True
  end.
Proof.
  intros [Htab [Hlen [Hpath [Hlev Hpend]]]].
  pose proof (visit_table it rest b Htab) as Htab'.
  pose proof Htab as [Hex [Hroot [Hbare [Hfull [Hres Hq]]]]].
  assert (Hrestlev : forall obj l, In (obj, l) rest -> Forall dotFree l).
  { intros obj l Hin. apply (Hlev obj l). now right. }
  unfold pendingActions in Hpend. simpl in Hpend. fold (pendingActions rest) in Hpend.
  apply Forall_app in Hpend. destruct Hpend as [Hhead Hprest].
  destruct it as [[d | ds] level]; unfold itemActions in Hhead; simpl in Hhead.
  - destruct (Hq (QDef d) level (or_introl eq_refl)) as [[lrest Hlevel] Hparent].
    pose proof (Hlev (QDef d) level (or_introl eq_refl)) as Hlevfree.
    destruct (action (policy_of d)) as [a |] eqn:Ea.
    + rewrite (allActions_children d (level ++ [a])) in Hhead.
      unfold optAction in Hhead. rewrite Ea in Hhead.
      inversion Hhead as [| a0 l0 Hafree Hchildren]; subst a0 l0.
      destruct (existsb (String.eqb a) (actionNames b)) eqn:Edup.
      { now rewrite (visit_duplicate d level b a Ea Edup). }
      destruct (prop (states b) (join "." level)) as [e |] eqn:Ee; [| contradiction].
      destruct (visit_register d level b a e Ea Edup Ee) as [st [ex' [Hrun Hfresh]]].
      destruct (Hfresh Hex) as [-> ->]. rewrite Hrun in *. clear Hrun Hfresh.
      split; [exact Htab' |].
      set (i := join "." (level ++ [a])) in *.
      set (parent := join "." level) in *.
      destruct (child_id_fresh lrest a) as [Hip Hir].
      rewrite <- Hlevel in Hip, Hir. fold i in Hip, Hir. fold parent in Hip.
      set (st := freshStep i (level ++ [a]) (policy_of d)) in *.
      assert (Hlevne : level <> []) by (rewrite Hlevel; discriminate).
      assert (Hpathfree : Forall dotFree (level ++ [a])).
      { apply Forall_app. split; [exact Hlevfree | now constructor]. }
      assert (Hnew : prop (states b) i = None).
      { destruct (prop (states b) i) as [[r n | s0] |] eqn:Ei; [| | reflexivity].
        - exfalso. apply Hir. now apply (Hbare i r n).
        - exfalso. destruct (Hpath i s0 Ei) as [lev0 [a0 [Hk0 [_ [Hfree0 [Hin0 _]]]]]].
          assert (Heq : level ++ [a] = lev0 ++ [a0]).
          { apply join_dot_inj; try assumption.
            - intros H. now apply app_eq_nil in H as [_ H].
            - intros H. now apply app_eq_nil in H as [_ H]. }
          apply app_inj_tail in Heq. destruct Heq as [_ <-].
          apply existsb_eqb_In in Hin0. congruence. }
      assert (Hprop : forall k,
                 prop (assign i (Full st) (assign parent (pushEntry e i) (states b))) k
                 = if String.eqb i k then Some (Full st)
                   else if String.eqb parent k then Some (pushEntry e i)
                        else prop (states b) k).
      { intros k. now apply prop_registered. }
      assert (Hgrow : forall kp e0, prop (states b) kp = Some e0 ->
                        exists e0',
                          prop (assign i (Full st)
                                       (assign parent (pushEntry e i) (states b))) kp
                          = Some e0'
                          /\ forall c, In c (entry_next e0) -> In c (entry_next e0')).
      { intros kp e0 Hkp. rewrite Hprop.
        destruct (String.eqb i kp) eqn:E1.
        { apply String.eqb_eq in E1. subst kp. rewrite Hnew in Hkp. discriminate. }
        destruct (String.eqb parent kp) eqn:E2.
        - apply String.eqb_eq in E2. subst kp. rewrite Ee in Hkp. injection Hkp as <-.
          eexists. split; [reflexivity |].
          intros c Hc. destruct e; simpl in *; apply in_or_app; now left.
        - exists e0. split; [exact Hkp | auto]. }
      unfold treeInv. cbn [states actionNames].
      split; [| split; [| split]].
      * rewrite keys_assign_absent.
        -- rewrite keys_assign_present by (rewrite Ee; discriminate).
           rewrite !length_app. simpl. lia.
        -- rewrite prop_assign_other by congruence. exact Hnew.
      * intros k s Hk. rewrite Hprop in Hk.
        destruct (String.eqb i k) eqn:E1.
        { apply String.eqb_eq in E1. subst k. injection Hk as <-.
          exists level, a. split; [reflexivity |]. split; [exact Hlevne |].
          split; [exact Hpathfree |].
          split; [apply in_or_app; right; now left |].
          split; [unfold st, freshStep; simpl; rewrite length_app; simpl; lia |].
          exists (pushEntry e i). split.
          - fold parent. rewrite Hprop. destruct (String.eqb i parent) eqn:E.
            + apply String.eqb_eq in E. contradiction.
            + now rewrite String.eqb_refl.
          - destruct e; simpl; apply in_or_app; right; now left. }
        assert (Hold : exists s0, prop (states b) k = Some (Full s0)
                                  /\ depth s = depth s0).
        { destruct (String.eqb parent k) eqn:E2; [| now exists s].
          apply String.eqb_eq in E2. subst k.
          destruct e as [r0 n0 | s0]; [discriminate |]. simpl in Hk. injection Hk as <-.
          now exists s0. }
        destruct Hold as [s0 [Hs0 Hd0]].
        destruct (Hpath k s0 Hs0)
          as [lev0 [a0 [Hk0 [Hne0 [Hfree0 [Hin0 [Hdep0 [e0 [He0 Hc0]]]]]]]]].
        exists lev0, a0. split; [exact Hk0 |]. split; [exact Hne0 |].
        split; [exact Hfree0 |].
        split; [apply in_or_app; now left |]. split; [congruence |].
        destruct (Hgrow _ e0 He0) as [e0' [He0' Hsub]].
        exists e0'. split; [exact He0' | now apply Hsub].
      * intros obj l Hin. apply in_app_or in Hin. destruct Hin as [Hin | Hin].
        -- now apply (Hrestlev obj l).
        -- apply childItems_level in Hin. now subst l.
      * rewrite pendingActions_app. apply Forall_app. split; assumption.
    + rewrite (visit_no_action d level b Ea) in *. split; [exact Htab' |].
      rewrite (allActions_children d level) in Hhead.
      unfold optAction in Hhead. rewrite Ea in Hhead. simpl in Hhead.
      unfold treeInv. split; [exact Hlen |]. split; [exact Hpath |]. split.
      * intros obj l Hin. apply in_app_or in Hin. destruct Hin as [Hin | Hin].
        -- now apply (Hrestlev obj l).
        -- apply childItems_level in Hin. now subst l.
      * rewrite pendingActions_app. apply Forall_app. split; assumption.
  - rewrite visit_array in *. split; [exact Htab' |].
    unfold treeInv. split; [exact Hlen |]. split; [exact Hpath |]. split.
    + intros obj l Hin. apply in_app_or in Hin. destruct Hin as [Hin | Hin].
      * now apply (Hrestlev obj l).
      * apply in_map_iff in Hin. destruct Hin as [d [Hd _]]. injection Hd as _ <-.
        apply (Hlev (QArr ds) level). now left.
    + rewrite pendingActions_app, pendingActions_array.
      apply Forall_app. split; assumption.
Qed.

Lemma treeInv_initial (d : TransactionStepsDefinition) :
  Forall dotFree (allActions d) ->
  treeInv (initialBuild None) [(QDef d, [ROOT_STEP])].
Proof.
  intros Hfree. unfold treeInv, initialBuild. cbn [states actionNames keys map fst prop].
  split; [reflexivity |]. split; [| split].
  - intros k s Hk. destruct (String.eqb ROOT_STEP k); discriminate.
  - intros obj level [Hin | []]. injection Hin as _ <-. now repeat constructor.
  - unfold pendingActions, itemActions. simpl. now rewrite app_nil_r.
Qed.

(** The tree that [buildSteps] makes from scratch when no action name has a
    dot: there is one key for the root and one for each action of the
    definition, and for every step [getPreviousStep] finds an entry of the
    table that lists the step in its [next] and whose depth is one less (the
    children of the root have depth 1). *)
Theorem buildSteps_fresh_tree (d : TransactionStepsDefinition) (f : TransactionFlow) :
  Forall dotFree (allActions d) ->
  buildSteps d None = Returned (steps f) ->
  length (keys (steps f)) = S (length (allActions d))
  /\ forall k s, prop (steps f) k = Some (Full s) ->
       exists parent,
         getPreviousStep f (Full s) = Some parent
         /\ In k (entry_next parent)
         /\ depth s = S (match entry_depth parent with Some n => n | None => 0 end).
Proof.
  intros Hfree Hbuild. unfold buildSteps in Hbuild.
  pose proof (buildLoop_rule (fun b q => tableInv b q /\ treeInv b q) (fun _ => True)
                visit_tree
                (queueWeight [(QDef d, [ROOT_STEP])]) [(QDef d, [ROOT_STEP])]
                (initialBuild None) (conj (tableInv_initial d) (treeInv_initial d Hfree)))
    as Htree.
  pose proof (buildLoop_rule (namesInv (allActions d)) _ (visit_names (allActions d))
                (queueWeight [(QDef d, [ROOT_STEP])]) [(QDef d, [ROOT_STEP])]
                (initialBuild None) (namesInv_initial d None)) as Hnames.
  destruct (buildLoop (queueWeight [(QDef d, [ROOT_STEP])]) [(QDef d, [ROOT_STEP])]
                      (initialBuild None)) as [[[] | e |] b]; try discriminate Hbuild.
  injection Hbuild as Hst.
  destruct Htree as [[_ [Hroot [Hbare [Hfull _]]]] [Hlen [Hpath _]]].
  destruct Hnames as [Hperm _].
  unfold pendingActions in Hperm. simpl in Hperm. rewrite app_nil_r in Hperm.
  rewrite <- Hst. split.
  - rewrite Hlen. f_equal. now apply Permutation_length.
  - intros k s Hk.
    destruct (Hfull k s Hk) as [Hid _].
    destruct (Hpath k s Hk) as [level [a [Hkey [Hne [Hpf [_ [Hdep [e [He Hin]]]]]]]]].
    apply Forall_app in Hpf. destruct Hpf as [Hlf Haf].
    inversion Haf as [| a0 l0 Ha _]; subst a0 l0.
    exists e. split; [| split; [exact Hin |]].
    + unfold getPreviousStep. simpl entry_id. rewrite Hid, Hkey, <- Hst.
      now rewrite parentId_join.
    + rewrite Hdep. destruct e as [r n | sp]; simpl.
      * apply (Hbare _ r n) in He.
        assert (Hl : level = [ROOT_STEP]).
        { apply join_dot_inj; try assumption; [discriminate | now repeat constructor]. }
        now rewrite Hl.
      * destruct (Hpath _ sp He) as [levp [ap [Hkp [Hnep [Hpfp [_ [Hdepp _]]]]]]].
        assert (Hl : level = levp ++ [ap]).
        { apply join_dot_inj; try assumption.
          intros H. now apply app_eq_nil in H as [_ H]. }
        rewrite Hl, length_app, Hdepp. simpl. lia.
Qed.

Lemma buildSteps_fresh_tree_witness :
  Forall dotFree (allActions flowAB)
  /\ buildSteps flowAB None = Returned (steps (getFlow worldAB))
  /\ length (keys (steps (getFlow worldAB))) = 3.
Proof.
  assert (Hfree : Forall dotFree (allActions flowAB)) by (repeat constructor).
  split; [exact Hfree |]. split; [reflexivity |].
  apply (proj1 (buildSteps_fresh_tree flowAB (getFlow worldAB) Hfree eq_refl)).
Defined.

(** * The order of compensation *)

Lemma compensationOrder_depth (f : TransactionFlow) (a b : string) :
  compensationOrder f a b = (Z.of_nat (depthOr0 f b) - Z.of_nat (depthOr0 f a))%Z.
Proof.
  unfold compensationOrder, depthOr0.
  destruct (prop (steps f) a) as [[r n | x] |], (prop (steps f) b) as [[r' n' | y] |];
    reflexivity.
Qed.

Lemma insertBy_deeperFirst (f : TransactionFlow) (x : string) (l : list string) :
  StronglySorted (deeperFirst f) l ->
  StronglySorted (deeperFirst f) (insertBy (compensationOrder f) x l).
Proof.
  induction l as [| y l IH]; intros Hs; simpl.
  - repeat constructor.
  - inversion Hs as [| y0 l0 Hl Hy]; subst.
    rewrite compensationOrder_depth.
    destruct (Z.of_nat (depthOr0 f y) - Z.of_nat (depthOr0 f x) <=? 0)%Z eqn:E.
    + apply Z.leb_le in E. constructor; [exact Hs |].
      constructor; [unfold deeperFirst; lia |].
      apply Forall_forall. intros z Hz.
      pose proof (proj1 (Forall_forall _ _) Hy z Hz) as Hyz.
      unfold deeperFirst in *. lia.
    + apply Z.leb_gt in E. constructor; [now apply IH |].
      apply Forall_forall. intros z Hz.
      apply (Permutation_in _ (Permutation_sym (insertBy_perm _ x l))) in Hz.
      destruct Hz as [<- | Hz].
      * unfold deeperFirst. lia.
      * exact (proj1 (Forall_forall _ _) Hy z Hz).
Qed.

Lemma sortBy_deeperFirst (f : TransactionFlow) (l : list string) :
  StronglySorted (deeperFirst f) (sortBy (compensationOrder f) l).
Proof.
  unfold sortBy. induction l as [| x l IH]; simpl; [constructor |].
  now apply insertBy_deeperFirst.
Qed.

(** The first call of [getCompensationSteps] on an orchestrator returns the
    keys of the flow, each once, deeper steps first (a step never comes after
    a step of smaller depth, the root counting for depth 0), and keeps the
    list; from then on the orchestrator answers with that list, whatever flow
    it is asked about. The transaction is not touched. *)
Theorem getCompensationSteps_order (w : World) :
  compensateSteps (orchestrator w) = [] ->
  exists l w',
    getCompensationSteps w = (Returned l, w')
    /\ Permutation (keys (steps (getFlow w))) l
    /\ StronglySorted (deeperFirst (getFlow w)) l
    /\ transaction w' = transaction w
    /\ calls w' = calls w
    /\ (l <> [] ->
        forall tx log clock,
          getCompensationSteps (mkWorld (orchestrator w') tx log clock)
          = (Returned l, mkWorld (orchestrator w') tx log clock)).
Proof.
  intros Hc. unfold getCompensationSteps.
  eexists; eexists. split.
  { run_with ltac:(reflexivity). rewrite Hc.
    run_with ltac:(reflexivity). reflexivity. }
  split; [apply sortBy_perm |]. split; [apply sortBy_deeperFirst |].
  split; [reflexivity |]. split; [reflexivity |].
  intros Hne tx log clock. unfold bind, get. simpl.
  destruct (sortBy (compensationOrder (getFlow w)) (keys (steps (getFlow w))));
    [contradiction | reflexivity].
Qed.

Lemma getCompensationSteps_order_witness :
  exists l w',
    getCompensationSteps worldAB = (Returned l, w')
    /\ Permutation ["_root"; "_root.A"; "_root.A.B"] l
    /\ StronglySorted (deeperFirst (getFlow worldAB)) l.
Proof.
  destruct (getCompensationSteps_order worldAB eq_refl)
    as [l [w' [Hrun [Hperm [Hsorted _]]]]].
  exists l, w'. split; [exact Hrun |]. split; [exact Hperm | exact Hsorted].
Defined.

(** * The attempts a run has left *)





Lemma asStep_In_keys (w : World) (k : string) (s : TransactionStep) :
  asStep (prop (steps (getFlow w)) k) = Some s -> In k (keys (steps (getFlow w))).
Proof.
  intros H. destruct (in_dec string_dec k (keys (steps (getFlow w)))) as [Hin | Hnot];
    [exact Hin |].
  apply prop_None_keys in Hnot. rewrite Hnot in H. discriminate H.
Qed.



Lemma budget_setStates (p : StatePair) (s : TransactionStep) :
  budget (setStates p s) = budget s.
Proof.
  unfold budget, retries, setStates, isCompensating.
  destruct s as [sf i d inv cmp n dp la at_ fl fr rs]. now destruct sf.
Qed.

Lemma budget_succeeded (r : option Value) (s : TransactionStep) :
  budget (succeeded r s) = budget s.
Proof.
  unfold succeeded. rewrite budget_setStates. now destruct (forwardResponse s).
Qed.

Lemma budget_failed (s : TransactionStep) : budget (failed s) = budget s.
Proof.
  unfold failed. destruct (gtNumber _ _); now rewrite budget_setStates.
Qed.

Lemma budget_skipped (s : TransactionStep) : budget (skipped s) = budget s.
Proof. unfold skipped. apply budget_setStates. Qed.

Lemma budget_flag (s : TransactionStep) :
  retryInv s -> budget (snd (changeState NOT_STARTED (beginCompensation s))) <= budget s.
Proof.
  intros Hv.
  assert (Hb : budget (beginCompensation s) <= budget s).
  { unfold beginCompensation, budget, retries, isCompensating in *.
    destruct s as [sf i d inv cmp n dp la at_ fl fr rs]. destruct sf; simpl in *; lia. }
  unfold changeState.
  destruct (state_eqb _ _ || includes _ _); simpl; [now rewrite budget_setStates | exact Hb].
Qed.



(** * What a run leaves as it is *)

Lemma stepFrame_refl (s : TransactionStep) : stepFrame s s.
Proof. unfold stepFrame. do 5 (split; [reflexivity |]). auto. Qed.

Lemma stepFrame_trans (s1 s2 s3 : TransactionStep) :
  stepFrame s1 s2 -> stepFrame s2 s3 -> stepFrame s1 s3.
Proof.
  intros [A1 [A2 [A3 [A4 [A5 [A6 [A7 [A8 A9]]]]]]]]
         [B1 [B2 [B3 [B4 [B5 [B6 [B7 [B8 B9]]]]]]]].
  unfold stepFrame.
  split; [congruence |]. split; [congruence |]. split; [congruence |].
  split; [congruence |]. split; [congruence |]. split; [| split; [| split]].
  - intros H. destruct (A6 H) as [H1 H2]. destruct (B6 H1) as [H3 H4].
    split; congruence.
  - intros H. rewrite <- (A7 H). apply B7. now rewrite A2.
  - intros H. rewrite <- (A8 H). apply B8. now rewrite A5.
  - lia.
Qed.

Lemma entryFrame_refl (e : option StepEntry) : entryFrame e e.
Proof.
  destruct e as [[r n | s] |]; simpl; auto. exists s. split; [reflexivity | apply stepFrame_refl].
Qed.

Lemma entryFrame_trans (e1 e2 e3 : option StepEntry) :
  entryFrame e1 e2 -> entryFrame e2 e3 -> entryFrame e1 e3.
Proof.
  destruct e1 as [[r n | s] |]; simpl.
  - intros ->. simpl. auto.
  - intros [s2 [-> H12]]. simpl. intros [s3 [-> H23]].
    exists s3. split; [reflexivity | now apply (stepFrame_trans s s2 s3)].
  - intros ->. simpl. auto.
Qed.

Lemma worldFrame_refl (w : World) : worldFrame w w.
Proof.
  unfold worldFrame. split; [reflexivity |]. split; [intros k; apply entryFrame_refl |].
  split; [exists []; now rewrite app_nil_r |].
  split; [exists []; now rewrite app_nil_r |].
  repeat split; auto.
Qed.

Lemma worldFrame_trans (w1 w2 w3 : World) :
  worldFrame w1 w2 -> worldFrame w2 w3 -> worldFrame w1 w3.
Proof.
  intros [A1 [A2 [[c1 A3] [[e1 A4] [A5 [A6 [[A7 [A8 [A9 A10]]] [A11 A12]]]]]]]]
         [B1 [B2 [[c2 B3] [[e2 B4] [B5 [B6 [[B7 [B8 [B9 B10]]] [B11 B12]]]]]]]].
  unfold worldFrame. split; [congruence |]. split.
  { intros k. apply (entryFrame_trans _ _ _ (A2 k) (B2 k)). }
  split; [exists (c1 ++ c2); rewrite B3, A3; now rewrite app_assoc |].
  split; [exists (e1 ++ e2); rewrite B4, A4; now rewrite app_assoc |].
  split; [lia |]. split; [congruence |].
  repeat split; congruence.
Qed.

Lemma bind_frame {A B} (m : M World A) (k : A -> M World B) :
  (forall w, worldFrame w (snd (m w))) ->
  (forall a w, worldFrame w (snd (k a w))) ->
  forall w, worldFrame w (snd (bind m k w)).
Proof.
  intros Hm Hk w. unfold bind. specialize (Hm w).
  destruct (m w) as [[a | e |] w1]; simpl in *; auto.
  apply (worldFrame_trans w w1); [exact Hm | apply Hk].
Qed.

Lemma ret_frame {A} (a : A) (w : World) : worldFrame w (snd (ret a w)).
Proof. apply worldFrame_refl. Qed.

Lemma setStates_stepFrame (p : StatePair) (s : TransactionStep) :
  stepFrame s (setStates p s).
Proof.
  pose proof (budget_setStates p s) as Hb.
  unfold stepFrame, setStates, isCompensating in *.
  destruct s as [sf i d inv cmp n dp la at_ fl fr rs]. destruct sf; simpl in *;
    do 5 (split; [reflexivity |]);
    (split; [intros H; try discriminate H; auto |]);
    (split; [auto |]); (split; [auto | lia]).
Qed.

Lemma changeState_stepFrame (t : TransactionState) (s : TransactionStep) :
  stepFrame s (snd (changeState t s)).
Proof.
  unfold changeState.
  destruct (state_eqb (state (getStates s)) t || includes (allowedState (state (getStates s))) t);
    simpl; [apply setStates_stepFrame | apply stepFrame_refl].
Qed.

Lemma changeStatus_stepFrame (t : TransactionStepStatus) (s : TransactionStep) :
  stepFrame s (snd (changeStatus t s)).
Proof.
  unfold changeStatus.
  destruct (status_eqb (status (getStates s)) t || status_eqb t WAITING
            || existsb (status_eqb t) (allowedStatus (status (getStates s))));
    simpl; [apply setStates_stepFrame | apply stepFrame_refl].
Qed.

(** A method of a step that keeps the frame, run on the step under a key. *)
Lemma onStep_frame_at {A} (k : string) (m : M TransactionStep A) (w : World) :
  (forall s, asStep (prop (steps (getFlow w)) k) = Some s -> stepFrame s (snd (m s))) ->
  worldFrame w (snd (onStep k m w)).
Proof.
  intros Hm. unfold onStep.
  destruct (asStep (prop (steps (getFlow w)) k)) as [s |] eqn:Es;
    [| apply worldFrame_refl].
  specialize (Hm s eq_refl). destruct (m s) as [r s']. simpl in *.
  unfold worldFrame. split; [now apply (keys_putStep k s) |]. split.
  { intros k'. destruct (String.eqb k k') eqn:E.
    - apply String.eqb_eq in E. subst k'. apply asStep_Some in Es. rewrite Es. simpl.
      exists s'. split; [| exact Hm].
      unfold putStep, getFlow. simpl. apply prop_assign_same.
    - apply String.eqb_neq in E. rewrite (prop_putStep_other k k' s' w E).
      apply entryFrame_refl. }
  split; [exists []; now rewrite app_nil_r |].
  split; [exists []; now rewrite app_nil_r |].
  repeat split; auto.
Qed.

Lemma onStep_frame {A} (k : string) (m : M TransactionStep A) :
  (forall s, stepFrame s (snd (m s))) ->
  forall w, worldFrame w (snd (onStep k m w)).
Proof. intros Hm w. apply onStep_frame_at. intros s _. apply Hm. Qed.

Lemma forEach_frame {A} (body : A -> M World unit) (l : list A) :
  (forall a w, worldFrame w (snd (body a w))) ->
  forall w, worldFrame w (snd (forEach body l w)).
Proof.
  intros Hb. induction l as [| x l IH]; intros w; simpl; [apply worldFrame_refl |].
  apply bind_frame; [apply Hb | intros _; exact IH].
Qed.

(** A change of the flow that keeps its steps and its identity. *)
Lemma modifyFlow_frame (g : TransactionFlow -> TransactionFlow) :
  (forall f, steps (g f) = steps f
             /\ transactionModelId (g f) = transactionModelId f
             /\ flow_transactionId (g f) = flow_transactionId f) ->
  forall w, worldFrame w (snd (modifyFlow g w)).
Proof.
  intros Hg w. destruct (Hg (getFlow w)) as [H1 [H2 H3]].
  unfold modifyFlow, modify, worldFrame, getFlow in *. simpl.
  split; [now rewrite H1 |]. split; [intros k; rewrite H1; apply entryFrame_refl |].
  split; [exists []; now rewrite app_nil_r |].
  split; [exists []; now rewrite app_nil_r |].
  repeat split; auto.
Qed.

Lemma finalize_same (sc : Scan) (f : TransactionFlow) :
  steps (finalize sc f) = steps f
  /\ transactionModelId (finalize sc f) = transactionModelId f
  /\ flow_transactionId (finalize sc f) = flow_transactionId f.
Proof.
  unfold finalize.
  destruct (hasSkipped sc), (hasIgnoredFailure sc), (hasFailed sc); repeat split.
Qed.

Lemma bind_frame_at {A B} (m : M World A) (k : A -> M World B) (w : World) :
  worldFrame w (snd (m w)) ->
  (forall a w', worldFrame w' (snd (k a w'))) ->
  worldFrame w (snd (bind m k w)).
Proof.
  intros Hm Hk. unfold bind.
  destruct (m w) as [[a | e |] w1]; simpl in *; auto.
  apply (worldFrame_trans w w1); [exact Hm | apply Hk].
Qed.

Lemma stepAt_frame (k : string) (w : World) : worldFrame w (snd (stepAt k w)).
Proof. unfold stepAt. destruct (asStep _); apply worldFrame_refl. Qed.

Lemma setStepSuccess_frame (k : string) (r : option Value) (w : World) :
  worldFrame w (snd (setStepSuccess k r w)).
Proof.
  unfold setStepSuccess.
  destruct (asStep (prop (steps (getFlow w)) k)) as [s |] eqn:Es.
  2:{ unfold bind, stepAt. rewrite Es. apply worldFrame_refl. }
  run_with ltac:(apply stepAt_run; exact Es).
  apply bind_frame_at.
  - destruct (forwardResponse s) eqn:Ef; [| apply worldFrame_refl].
    apply onStep_frame_at. intros s0 Hs0. rewrite Es in Hs0. injection Hs0 as <-.
    unfold stepFrame, saveResponse. simpl.
    do 5 (split; [reflexivity |]). split; [auto |]. split; [auto |].
    split; [intros H; congruence | reflexivity].
  - intros _. apply bind_frame; [apply onStep_frame, changeStatus_stepFrame |].
    intros _. apply bind_frame; [apply stepAt_frame |].
    intros s1 w1. destruct (isCompensating s1); apply onStep_frame, changeState_stepFrame.
Qed.

Lemma addError_frame (a : option string) (h : TransactionHandlerType) (e : Value)
      (w : World) :
  worldFrame w (set_transaction (addError a h e (transaction w)) w).
Proof.
  unfold worldFrame, addError, getFlow. simpl.
  split; [reflexivity |]. split; [intros k; apply entryFrame_refl |].
  split; [exists []; now rewrite app_nil_r |].
  split; [now exists [mkError a h e] |].
  repeat split; auto.
Qed.

Lemma setStepFailure_frame (k : string) (e : Value) (maxRetries : option JsNumber) (w : World) :
  worldFrame w (snd (setStepFailure k e maxRetries w)).
Proof.
  unfold setStepFailure.
  apply bind_frame.
  { apply onStep_frame. intros s. simpl. unfold stepFrame. simpl.
    do 5 (split; [reflexivity |]). split; [auto |]. split; [auto |].
    split; [auto | reflexivity]. }
  intros _. apply bind_frame; [apply onStep_frame, changeStatus_stepFrame |].
  intros _. apply bind_frame; [apply stepAt_frame |].
  intros s w1. destruct (gtNumber (failures s) (retriesOf maxRetries)); [| apply worldFrame_refl].
  apply bind_frame; [apply onStep_frame, changeState_stepFrame |].
  intros _. apply bind_frame; [apply onStep_frame, changeStatus_stepFrame |].
  intros _. apply bind_frame; [apply stepAt_frame |].
  intros s2. apply bind_frame; [intros w2; apply addError_frame |].
  intros _ w3. destruct (negb (isCompensating s2)); [| apply worldFrame_refl].
  destruct (continueOnPermanentFailure (definition s2)).
  - apply forEach_frame. intros c. apply onStep_frame, changeState_stepFrame.
  - apply modifyFlow_frame. intros f. repeat split.
Qed.

Lemma catchCallback_frame (x : string * Value) (w : World) :
  worldFrame w (snd (catchCallback x w)).
Proof.
  unfold catchCallback. apply bind_frame; [apply stepAt_frame |].
  intros s w1. apply setStepFailure_frame.
Qed.

Lemma tick_frame (w : World) : worldFrame w (tick w).
Proof.
  unfold worldFrame, tick, getFlow. simpl.
  split; [reflexivity |]. split; [intros k; apply entryFrame_refl |].
  split; [exists []; now rewrite app_nil_r |].
  split; [exists []; now rewrite app_nil_r |].
  repeat split; auto.
Qed.

Lemma logCall_frame (c : Call) (w : World) : worldFrame w (logCall c w).
Proof.
  unfold worldFrame, logCall, getFlow. simpl.
  split; [reflexivity |]. split; [intros k; apply entryFrame_refl |].
  split; [now exists [c] |].
  split; [exists []; now rewrite app_nil_r |].
  repeat split; auto.
Qed.

Lemma payloadDataFor_frame (parent : StepEntry) (w : World) :
  worldFrame w (snd (payloadDataFor parent w)).
Proof.
  unfold payloadDataFor. run_with ltac:(reflexivity).
  destruct parent as [i n | p]; [apply worldFrame_refl |].
  destruct (forwardResponse p); [| apply worldFrame_refl].
  destruct (payload (transaction w)) as [d |] eqn:Ep; [| apply worldFrame_refl].
  unfold bind, modify, ret. simpl.
  unfold worldFrame, getFlow. simpl.
  split; [reflexivity |]. split; [intros k; apply entryFrame_refl |].
  split; [exists []; now rewrite app_nil_r |].
  split; [exists []; now rewrite app_nil_r |].
  split; [lia |]. split; [now rewrite Ep |].
  repeat split; auto.
Qed.

Lemma dispatch_frame (handler : Handler) (dateNow : nat -> nat) (k : string) (w : World) :
  worldFrame w (snd (dispatch handler dateNow k w)).
Proof.
  unfold dispatch. apply bind_frame; [apply stepAt_frame |].
  intros s0. apply bind_frame.
  { unfold startAttempt. apply bind_frame; [intros w1; apply tick_frame |].
    intros t. apply bind_frame.
    { apply onStep_frame. intros s. simpl. unfold stepFrame. simpl.
      do 5 (split; [reflexivity |]). split; [auto |]. split; [auto |].
      split; [auto |]. unfold budget, retries, isCompensating.
      destruct s as [sf i d inv cmp n dp la at_ fl fr rs]. cbn -[Nat.sub].
      destruct sf; lia. }
    intros _. apply bind_frame; [intros w1; apply worldFrame_refl |].
    intros w1. apply bind_frame; [| intros _; apply onStep_frame, changeStatus_stepFrame].
    intros w2. destruct (state_eqb (state (getStates s0)) NOT_STARTED);
      [| apply worldFrame_refl].
    destruct (isCompensating s0); [apply onStep_frame, changeState_stepFrame |].
    destruct (state_eqb (flow_state (getFlow w1)) INVOKING);
      [apply onStep_frame, changeState_stepFrame | apply worldFrame_refl]. }
  intros _. apply bind_frame; [apply stepAt_frame |].
  intros s. apply bind_frame.
  { unfold makePayload. apply bind_frame; [intros w1; apply worldFrame_refl |].
    intros w1. apply bind_frame.
    { intros w2. destruct (getPreviousStep (getFlow w1) (Full s)); apply worldFrame_refl. }
    intros parent. apply bind_frame; [apply payloadDataFor_frame |].
    intros pd. apply bind_frame; [intros w2; apply tick_frame |].
    intros ts. apply bind_frame; [intros w2; apply worldFrame_refl |].
    intros w2 w3. apply worldFrame_refl. }
  intros p. apply bind_frame; [intros w1; apply logCall_frame |].
  intros r w1. apply worldFrame_refl.
Qed.

Lemma dispatchAll_frame (handler : Handler) (dateNow : nat -> nat) (l : list string) :
  forall w, worldFrame w (snd (dispatchAll handler dateNow l w)).
Proof.
  induction l as [| k l IH]; intros w; simpl; [apply worldFrame_refl |].
  pose proof (dispatch_frame handler dateNow k w) as Hd.
  destruct (dispatch handler dateNow k w) as [[[p r] | e |] w1]; simpl in *; auto.
  specialize (IH w1). destruct (dispatchAll handler dateNow l w1) as [[started err] w2].
  simpl in *. now apply (worldFrame_trans w w1).
Qed.

Lemma settleResolved_frame (l : list (string * HandlerResult)) :
  forall w, worldFrame w (snd (settleResolved l w)).
Proof.
  induction l as [| [k [r | e]] l IH]; intros w; simpl; [apply worldFrame_refl | | apply IH].
  pose proof (setStepSuccess_frame k r w) as Hs. rewrite <- snd_attemptUnit in Hs.
  destruct (attemptUnit (setStepSuccess k r) w) as [[e |] w1]; simpl in *.
  - specialize (IH w1). destruct (settleResolved l w1) as [late w2]. simpl in *.
    now apply (worldFrame_trans w w1).
  - apply (worldFrame_trans w w1); [exact Hs | apply IH].
Qed.

Lemma settleRejected_frame (l : list (string * Value)) :
  forall w, worldFrame w (snd (settleRejected l w)).
Proof.
  induction l as [| x l IH]; intros w; simpl; [apply worldFrame_refl |].
  pose proof (catchCallback_frame x w) as Hc. rewrite <- snd_attemptUnit in Hc.
  destruct (attemptUnit (catchCallback x) w) as [e1 w1]. simpl in *.
  specialize (IH w1). destruct (settleRejected l w1) as [e2 w2]. simpl in *.
  now apply (worldFrame_trans w w1).
Qed.

Lemma settleAll_frame (started : list (string * HandlerResult)) (w : World) :
  worldFrame w (snd (settleAll started w)).
Proof.
  unfold settleAll.
  pose proof (settleResolved_frame started w) as H1.
  destruct (settleResolved started w) as [late w1]. simpl in H1.
  pose proof (settleRejected_frame (rejections started) w1) as H2.
  destruct (settleRejected (rejections started) w1) as [e1 w2]. simpl in H2.
  pose proof (settleRejected_frame late w2) as H3.
  destruct (settleRejected late w2) as [e2 w3]. simpl in *.
  apply (worldFrame_trans w w1); [exact H1 |].
  now apply (worldFrame_trans w1 w2).
Qed.

Lemma flagStep_frame (k : string) (w : World) : worldFrame w (snd (flagStep k w)).
Proof.
  unfold flagStep. destruct (String.eqb k ROOT_STEP); [apply worldFrame_refl |].
  apply onStep_frame. intros s.
  destruct ((state_eqb (state (getStates s)) DONE
             || status_eqb (status (getStates s)) PERMANENT_FAILURE)
            && negb (noCompensation (definition s))) eqn:E;
    [| apply stepFrame_refl].
  apply Bool.andb_true_iff in E. destruct E as [_ Hnc].
  apply Bool.negb_true_iff in Hnc.
  apply (stepFrame_trans s (beginCompensation s)); [| apply changeState_stepFrame].
  unfold beginCompensation, isCompensating. destruct (stepFailed s) eqn:Esf;
    [apply stepFrame_refl |].
  unfold stepFrame. simpl. do 5 (split; [reflexivity |]).
  split; [intros H; congruence |]. split; [intros H; congruence |].
  split; [auto |]. unfold budget, retries, isCompensating.
  destruct s as [sf i d inv cmp n dp la at_ fl fr rs]. cbn -[Nat.sub] in *.
  subst sf. lia.
Qed.

Lemma flagStepsToRevert_frame (w : World) : worldFrame w (snd (flagStepsToRevert w)).
Proof.
  unfold flagStepsToRevert. run_with ltac:(reflexivity).
  apply forEach_frame. intros k w1. apply flagStep_frame.
Qed.

Lemma cache_frame (o : Orchestrator) (w : World) :
  orch_id o = orch_id (orchestrator w) ->
  orch_definition o = orch_definition (orchestrator w) ->
  worldFrame w (set_orchestrator o w).
Proof.
  intros H1 H2. unfold worldFrame, getFlow. simpl.
  split; [reflexivity |]. split; [intros k; apply entryFrame_refl |].
  split; [exists []; now rewrite app_nil_r |].
  split; [exists []; now rewrite app_nil_r |].
  repeat split; auto.
Qed.

Lemma orderings_frame (w0 w : World) :
  worldFrame w (snd ((if state_eqb (flow_state (getFlow w0)) COMPENSATING
                      then getCompensationSteps else getInvokeSteps) w)).
Proof.
  destruct (state_eqb (flow_state (getFlow w0)) COMPENSATING).
  - unfold getCompensationSteps. run_with ltac:(reflexivity).
    destruct (compensateSteps (orchestrator w)); [| apply worldFrame_refl].
    run_with ltac:(reflexivity). simpl. now apply cache_frame.
  - unfold getInvokeSteps. run_with ltac:(reflexivity).
    destruct (invokeSteps (orchestrator w)); [| apply worldFrame_refl].
    run_with ltac:(reflexivity). simpl. now apply cache_frame.
Qed.

Lemma checkAllSteps_frame (fuel : nat) :
  forall w, worldFrame w (snd (checkAllSteps fuel w)).
Proof.
  induction fuel as [| fuel IH]; intros w; [apply worldFrame_refl |].
  simpl checkAllSteps. run_with ltac:(reflexivity).
  apply bind_frame; [apply orderings_frame |].
  intros allSteps. apply bind_frame.
  { intros w1. destruct (scan (getFlow w) allSteps emptyScan); apply worldFrame_refl. }
  intros sc w1. destruct (mustCompensate (getFlow w) sc).
  - apply bind_frame; [apply modifyFlow_frame; intros f; repeat split |].
    intros _. apply bind_frame; [apply flagStepsToRevert_frame |].
    intros _. apply IH.
  - apply bind_frame; [| intros _ w2; apply worldFrame_refl].
    intros w2. destruct (Z.of_nat (completedSteps sc) =? totalSteps allSteps)%Z;
      [| apply worldFrame_refl].
    apply modifyFlow_frame. intros f. apply finalize_same.
Qed.

Lemma executeNext_frame (handler : Handler) (dateNow : nat -> nat) (fuel : nat) :
  forall w, worldFrame w (snd (executeNext handler dateNow fuel w)).
Proof.
  induction fuel as [| fuel IH]; intros w; [apply worldFrame_refl |].
  rewrite executeNext_S.
  destruct (hasFinished (transaction w)); [apply worldFrame_refl |].
  pose proof (checkAllSteps_frame 2 w) as H1.
  destruct (checkAllSteps 2 w) as [[res | e |] w1]; simpl in H1; try exact H1.
  pose proof (dispatchAll_frame handler dateNow (res_next res) w1) as H2.
  destruct (dispatchAll handler dateNow (res_next res) w1) as [[started e1] w2].
  simpl in H2.
  pose proof (settleAll_frame started w2) as H3.
  destruct (settleAll started w2) as [e2 w3]. simpl in H3.
  assert (H : worldFrame w w3).
  { apply (worldFrame_trans w w1); [exact H1 |]. now apply (worldFrame_trans w1 w2). }
  destruct (firstError e1 e2); [exact H |].
  destruct (res_next res); [exact H |].
  apply (worldFrame_trans w w3); [exact H | apply IH].
Qed.

Lemma resume_frame (handler : Handler) (dateNow : nat -> nat) (fuel : nat) (w : World) :
  worldFrame w (snd (resume handler dateNow fuel w)).
Proof.
  unfold resume. run_with ltac:(reflexivity).
  destruct (negb (String.eqb (modelId (transaction w)) (orch_id (orchestrator w))));
    [apply worldFrame_refl |].
  destruct (hasFinished (transaction w)); [apply worldFrame_refl |].
  apply bind_frame; [| intros _; apply executeNext_frame].
  intros w1. destruct (state_eqb (flow_state (getFlow w)) NOT_STARTED);
    [| apply worldFrame_refl].
  apply modifyFlow_frame. intros f. repeat split.
Qed.


(** ** The calls of the handler *)










(** ** The rounds of the driver *)




Lemma forEach_outcome {A} (body : A -> M World unit) (l : list A) :
  (forall a w, fst (body a w) <> OutOfFuel) ->
  forall w, fst (forEach body l w) <> OutOfFuel.
Proof.
  intros Hb. induction l as [| x l IH]; intros w; simpl; [discriminate |].
  unfold bind. specialize (Hb x w).
  destruct (body x w) as [[[] | e |] w1]; simpl in *;
    [apply IH | discriminate | contradiction].
Qed.

Lemma flagStepsToRevert_outcome (w : World) : fst (flagStepsToRevert w) <> OutOfFuel.
Proof.
  unfold flagStepsToRevert. run_with ltac:(reflexivity).
  apply forEach_outcome. intros k w1. unfold flagStep.
  destruct (String.eqb k ROOT_STEP); [discriminate |].
  unfold onStep. destruct (asStep _) as [s |]; [| discriminate].
  destruct ((state_eqb (state (getStates s)) DONE
             || status_eqb (status (getStates s)) PERMANENT_FAILURE)
            && negb (noCompensation (definition s))); [| discriminate].
  unfold changeState.
  destruct (state_eqb _ _ || includes _ _); discriminate.
Qed.

(** A pass on a flow that compensates does not start over. *)
Lemma checkAllSteps_compensating (fuel : nat) (w : World) :
  flow_state (getFlow w) = COMPENSATING ->
  fst (checkAllSteps (S fuel) w) <> OutOfFuel.
Proof.
  intros Hfs. destruct (orderings_run w) as [o Ho].
  simpl checkAllSteps. run_with ltac:(reflexivity). run_with ltac:(exact Ho).
  destruct (scan (getFlow w) (allStepsOf w) emptyScan) as [sc |];
    [| unfold bind; simpl; discriminate].
  simpl orTypeError. run_with ltac:(reflexivity).
  unfold mustCompensate. rewrite Hfs. simpl.
  unfold bind.
  destruct (Z.of_nat (completedSteps sc) =? totalSteps (allStepsOf w))%Z;
    simpl; discriminate.
Qed.

Lemma checkAllSteps_fuel (fuel : nat) (w : World) :
  allRetryInv w -> fst (checkAllSteps (S (S fuel)) w) <> OutOfFuel.
Proof.
  intros Hall. destruct (orderings_run w) as [o Ho].
  remember (S fuel) as fuel1 eqn:Ef.
  simpl checkAllSteps. run_with ltac:(reflexivity). run_with ltac:(exact Ho).
  destruct (scan (getFlow w) (allStepsOf w) emptyScan) as [sc |];
    [| unfold bind; simpl; discriminate].
  simpl orTypeError. run_with ltac:(reflexivity).
  destruct (mustCompensate (getFlow w) sc).
  - run_with ltac:(reflexivity).
    match goal with
    | |- context [bind flagStepsToRevert _ ?W] => set (w1 := W)
    end.
    assert (Hall1 : allRetryInv w1).
    { intros k s Hk. apply (Hall k s). exact Hk. }
    pose proof (flagStepsToRevert_inv w1 Hall1) as [_ [Hfs2 _]].
    pose proof (flagStepsToRevert_outcome w1) as Hout.
    unfold bind.
    destruct (flagStepsToRevert w1) as [[[] | e |] w2]; simpl snd in *; simpl fst in *;
      [| discriminate | contradiction].
    subst fuel1. apply checkAllSteps_compensating. rewrite Hfs2. reflexivity.
  - unfold bind.
    destruct (Z.of_nat (completedSteps sc) =? totalSteps (allStepsOf w))%Z;
      simpl; discriminate.
Qed.




(** Without a limit the run does not end: with [maxRetries: NaN] and a
    handler that always fails, fifty rounds make fifty invocations and call
    for more. *)
Lemma resume_unlimited_runs_on :
  allBoundedb (worldOf "model" flowA_unlimited "tx") = false
  /\ fst (resume alwaysReject (fun n => n) 50 (worldOf "model" flowA_unlimited "tx"))
     = OutOfFuel
  /\ countCalls "A" INVOKE
       (calls (snd (resume alwaysReject (fun n => n) 50
                      (worldOf "model" flowA_unlimited "tx")))) = 50.
Proof. split; [reflexivity |]. split; vm_compute; reflexivity. Qed.

(** ** What [resume] never changes *)

(** [resume] never changes the tree, whatever the handler does and whether
    it returns, throws or is cut short: the flow has the same keys in the
    same order, the root entry is the same, and every step keeps its id, its
    definition, its [next], its depth and its [forwardResponse]. *)
Theorem resume_keeps_topology (handler : Handler) (dateNow : nat -> nat) (fuel : nat)
        (w : World) :
  keys (steps (getFlow (snd (resume handler dateNow fuel w)))) = keys (steps (getFlow w))
  /\ (forall k r n,
        prop (steps (getFlow w)) k = Some (Bare r n) ->
        prop (steps (getFlow (snd (resume handler dateNow fuel w)))) k = Some (Bare r n))
  /\ (forall k s,
        prop (steps (getFlow w)) k = Some (Full s) ->
        exists s',
          prop (steps (getFlow (snd (resume handler dateNow fuel w)))) k = Some (Full s')
          /\ id s' = id s /\ definition s' = definition s /\ next s' = next s
          /\ depth s' = depth s /\ forwardResponse s' = forwardResponse s).
Proof.
  destruct (resume_frame handler dateNow fuel w) as [Hk [He _]].
  split; [exact Hk |]. split.
  - intros k r n Hw. specialize (He k). rewrite Hw in He. exact He.
  - intros k s Hw. specialize (He k). rewrite Hw in He.
    destruct He as [s' [Hs' [H1 [H2 [H3 [H4 [H5 _]]]]]]].
    exists s'. repeat (split; [assumption |]). assumption.
Qed.

(** Compensation goes one way. Across any run of [resume], a step that
    compensates goes on compensating and the record of its invocation (state
    and status) is closed; a step whose definition has [noCompensation] never
    starts compensating; and the response of a step without [forwardResponse]
    is not replaced. *)
Theorem resume_compensation_one_way (handler : Handler) (dateNow : nat -> nat)
        (fuel : nat) (w : World) (k : string) (s s' : TransactionStep) :
  prop (steps (getFlow w)) k = Some (Full s) ->
  prop (steps (getFlow (snd (resume handler dateNow fuel w)))) k = Some (Full s') ->
  (stepFailed s = true -> stepFailed s' = true /\ invoke s' = invoke s)
  /\ (noCompensation (definition s) = true -> stepFailed s' = stepFailed s)
  /\ (forwardResponse s = false -> response s' = response s).
Proof.
  intros Hw Hw'. destruct (resume_frame handler dateNow fuel w) as [_ [He _]].
  specialize (He k). rewrite Hw in He. destruct He as [s0 [Hs0 Hf]].
  rewrite Hw' in Hs0. injection Hs0 as <-.
  destruct Hf as [_ [_ [_ [_ [_ [H6 [H7 [H8 _]]]]]]]]. auto.
Qed.

Lemma resume_compensation_one_way_witness :
  stepFailed (stepOf worldA_compensating "_root.A") = true
  /\ stepFailed (stepOf worldA_exhausted "_root.A") = true
  /\ invoke (stepOf worldA_exhausted "_root.A")
     = invoke (stepOf worldA_compensating "_root.A").
Proof.
  split; [reflexivity |].
  assert (H1 : prop (steps (getFlow worldA_compensating)) "_root.A"
               = Some (Full (stepOf worldA_compensating "_root.A")))
    by (vm_compute; reflexivity).
  assert (H2 : prop (steps (getFlow (snd (resume alwaysReject (fun n => n) 20
                                            worldA_compensating)))) "_root.A"
               = Some (Full (stepOf worldA_exhausted "_root.A")))
    by (vm_compute; reflexivity).
  apply (proj1 (resume_compensation_one_way alwaysReject (fun n => n) 20
                  worldA_compensating "_root.A" _ _ H1 H2)).
  vm_compute. reflexivity.
Defined.

(** [resume] only adds to the record: the calls of the handler and the
    errors of the transaction made before the run are still there, in their
    order, followed by those of the run; the clock is only read; the ids of
    the transaction, of its flow and of the orchestrator and the caller's
    fields of the payload are the same. *)
Theorem resume_only_appends (handler : Handler) (dateNow : nat -> nat) (fuel : nat)
        (w : World) :
  (exists added, calls (snd (resume handler dateNow fuel w)) = calls w ++ added)
  /\ (exists added,
        errors (transaction (snd (resume handler dateNow fuel w)))
        = errors (transaction w) ++ added)
  /\ clockReads w <= clockReads (snd (resume handler dateNow fuel w))
  /\ option_map fields (payload (transaction (snd (resume handler dateNow fuel w))))
     = option_map fields (payload (transaction w))
  /\ transactionId (transaction (snd (resume handler dateNow fuel w)))
     = transactionId (transaction w)
  /\ modelId (transaction (snd (resume handler dateNow fuel w))) = modelId (transaction w)
  /\ orch_id (orchestrator (snd (resume handler dateNow fuel w))) = orch_id (orchestrator w)
  /\ orch_definition (orchestrator (snd (resume handler dateNow fuel w)))
     = orch_definition (orchestrator w).
Proof.
  destruct (resume_frame handler dateNow fuel w)
    as [_ [_ [Hc [He [Hck [Hp [[H1 [H2 _]] [H3 H4]]]]]]]].
  repeat (split; [assumption |]). assumption.
Qed.

(** * Starting the compensation *)

Lemma flag_armed (s : TransactionStep) :
  notCompensated s ->
  exists s', changeState NOT_STARTED (beginCompensation s) = (Returned tt, s') /\ armed s s'.
Proof.
  destruct s as [sf i d inv [cst csa] n dp la at_ fl fr rs].
  unfold notCompensated. simpl. intros [-> ->].
  eexists. split; [reflexivity |]. unfold armed. simpl.
  repeat (split; [reflexivity |]). reflexivity.
Qed.

Lemma flagStep_effect (k : string) (w : World) (s : TransactionStep) :
  k <> ROOT_STEP ->
  asStep (prop (steps (getFlow w)) k) = Some s ->
  notCompensated s ->
  exists s', flagStep k w = (Returned tt, putStep k s' w)
             /\ if toRevert s then armed s s' else s' = s.
Proof.
  intros Hne Hs Hn. unfold flagStep.
  destruct (String.eqb k ROOT_STEP) eqn:E; [apply String.eqb_eq in E; contradiction |].
  rewrite (onStep_run k _ w s Hs). fold (toRevert s).
  destruct (toRevert s).
  - destruct (flag_armed s Hn) as [s' [Hrun Harm]]. exists s'. rewrite Hrun. auto.
  - exists s. auto.
Qed.

Lemma flagLoop_effect (l : list string) :
  forall w : World,
    NoDup l ->
    (forall k, In k l -> k <> ROOT_STEP ->
       exists s, asStep (prop (steps (getFlow w)) k) = Some s /\ notCompensated s) ->
    fst (forEach flagStep l w) = Returned tt
    /\ (forall k, ~ In k l \/ k = ROOT_STEP ->
          prop (steps (getFlow (snd (forEach flagStep l w)))) k
          = prop (steps (getFlow w)) k)
    /\ (forall k s, In k l -> k <> ROOT_STEP ->
          asStep (prop (steps (getFlow w)) k) = Some s ->
          exists s', asStep (prop (steps (getFlow (snd (forEach flagStep l w)))) k) = Some s'
                     /\ if toRevert s then armed s s' else s' = s).
Proof.
  induction l as [| k l IH]; intros w Hnd Hall.
  { simpl. split; [reflexivity |]. split; [reflexivity | intros k s []]. }
  inversion Hnd as [| k0 l0 Hk Hnd']; subst. simpl forEach.
  destruct (string_dec k ROOT_STEP) as [Hr | Hr].
  - assert (Hrun : flagStep k w = (Returned tt, w)).
    { unfold flagStep. rewrite Hr, String.eqb_refl. reflexivity. }
    unfold bind. rewrite Hrun. cbv beta iota zeta.
    destruct (IH w Hnd') as [Hret [Hsame Heff]].
    { intros k' Hin. apply Hall. now right. }
    split; [exact Hret |]. split.
    + intros k' [Hnot | Heq]; apply Hsame; [left | now right].
      intros Hin. apply Hnot. now right.
    + intros k' s [-> | Hin] Hne Hs; [contradiction | now apply Heff].
  - destruct (Hall k (or_introl eq_refl) Hr) as [s [Hs Hn]].
    destruct (flagStep_effect k w s Hr Hs Hn) as [s1 [Hrun H1]].
    unfold bind. rewrite Hrun. cbv beta iota zeta.
    assert (Hother : forall k', k' <> k ->
              prop (steps (getFlow (putStep k s1 w))) k' = prop (steps (getFlow w)) k').
    { intros k' Hne. apply prop_putStep_other. congruence. }
    destruct (IH (putStep k s1 w) Hnd') as [Hret [Hsame Heff]].
    { intros k' Hin Hne. rewrite Hother; [| intros ->; contradiction].
      apply Hall; [now right | exact Hne]. }
    split; [exact Hret |]. split.
    + intros k' Hk'. rewrite Hsame.
      * apply Hother. destruct Hk' as [Hnot | ->]; [| congruence].
        intros ->. apply Hnot. now left.
      * destruct Hk' as [Hnot | Heq]; [left | now right].
        intros Hin. apply Hnot. now right.
    + intros k' s' [<- | Hin] Hne Hs'.
      * rewrite Hs in Hs'. injection Hs' as <-.
        exists s1. split; [| exact H1].
        rewrite (Hsame k (or_introl Hk)). apply asStep_putStep_same.
      * apply Heff; [exact Hin | exact Hne |].
        rewrite Hother; [exact Hs' | intros ->; contradiction].
Qed.

(** When no step has begun its compensation, [flagStepsToRevert] returns and
    makes ready for compensation exactly the steps that are DONE or have
    failed for good and whose definition does not have [noCompensation]: each
    of them compensates from then on, its compensation is NOT_STARTED and its
    counters of attempts and failures are back to 0, its invocation being
    kept as it ended. Every other step, and the root entry, is left as it
    was. *)
Theorem flagStepsToRevert_arms (w : World) :
  NoDup (keys (steps (getFlow w))) ->
  (forall k, In k (keys (steps (getFlow w))) -> k <> ROOT_STEP ->
     exists s, asStep (prop (steps (getFlow w)) k) = Some s /\ notCompensated s) ->
  fst (flagStepsToRevert w) = Returned tt
  /\ prop (steps (getFlow (snd (flagStepsToRevert w)))) ROOT_STEP
     = prop (steps (getFlow w)) ROOT_STEP
  /\ (forall k s,
        k <> ROOT_STEP ->
        asStep (prop (steps (getFlow w)) k) = Some s ->
        exists s',
          asStep (prop (steps (getFlow (snd (flagStepsToRevert w)))) k) = Some s'
          /\ if toRevert s then armed s s' else s' = s).
Proof.
  intros Hnd Hall.
  assert (Hrun : flagStepsToRevert w = forEach flagStep (keys (steps (getFlow w))) w)
    by reflexivity.
  rewrite Hrun.
  destruct (flagLoop_effect (keys (steps (getFlow w))) w Hnd Hall) as [Hret [Hsame Heff]].
  split; [exact Hret |]. split; [apply Hsame; now right |].
  intros k s Hne Hs. apply Heff; [now apply (asStep_In_keys w k s) | exact Hne | exact Hs].
Qed.

Lemma flagStepsToRevert_arms_witness :
  toRevert (stepOf worldA_done "_root.A") = true
  /\ exists s',
       asStep (prop (steps (getFlow (snd (flagStepsToRevert worldA_done)))) "_root.A")
       = Some s'
       /\ armed (stepOf worldA_done "_root.A") s'.
Proof.
  split; [reflexivity |].
  assert (Hnd : NoDup (keys (steps (getFlow worldA_done)))).
  { repeat constructor; simpl; intuition discriminate. }
  assert (Hall : forall k, In k (keys (steps (getFlow worldA_done))) -> k <> ROOT_STEP ->
                   exists s, asStep (prop (steps (getFlow worldA_done)) k) = Some s
                             /\ notCompensated s).
  { intros k [<- | [<- | []]] Hne; [now contradiction Hne |].
    eexists. split; [reflexivity | split; reflexivity]. }
  exact (proj2 (proj2 (flagStepsToRevert_arms worldA_done Hnd Hall))
           "_root.A" (stepOf worldA_done "_root.A") ltac:(discriminate) eq_refl).
Defined.

(** * What a pass hands to the dispatcher *)

(** A pass of [checkAllSteps] on a transaction whose counters are in order
    runs itself again at most once (when it starts the compensation), and the
    steps it returns in [next] are distinct, each of them is a step of the
    flow that can be run in the state the pass leaves the flow in (it has
    failed temporarily, or it is NOT_STARTED and either compensates or the
    flow is INVOKING), and none of them is WAITING. *)
Theorem checkAllSteps_next_ready (fuel : nat) (w : World) :
  wellFormed w -> allRetryInv w ->
  fst (checkAllSteps (S (S fuel)) w) <> OutOfFuel
  /\ forall r,
       fst (checkAllSteps (S (S fuel)) w) = Returned r ->
       NoDup (res_next r)
       /\ forall k, In k (res_next r) -> readyAt (snd (checkAllSteps (S (S fuel)) w)) k.
Proof.
  intros Hwf Hall. split; [now apply checkAllSteps_fuel |].
  exact (proj2 (checkAllSteps_inv (S (S fuel)) w (conj Hwf Hall))).
Qed.

Lemma checkAllSteps_next_ready_witness :
  exists r,
    fst (checkAllSteps 2 worldAB_started) = Returned r
    /\ res_next r = ["_root.A"]
    /\ readyAt (snd (checkAllSteps 2 worldAB_started)) "_root.A".
Proof.
  pose proof (beginTransaction_inv (newOrchestrator "model" flowAB) "tx" None
                (transaction worldAB) [] 0 (or_introl eq_refl) (or_introl eq_refl)
                eq_refl) as [Hwf Hall].
  eexists. split; [reflexivity |]. split; [reflexivity |].
  apply (proj2 (checkAllSteps_next_ready 0 worldAB_started Hwf Hall) _ eq_refl).
  simpl. left. reflexivity.
Defined.

(** * The errors of a transaction *)

Lemma onStep_errors {A} (k : string) (m : M TransactionStep A) (w : World) :
  errors (transaction (snd (onStep k m w))) = errors (transaction w).
Proof.
  unfold onStep. destruct (asStep _) as [s |]; [| reflexivity].
  now destruct (m s).
Qed.

Lemma skip_children_errors (l : list string) :
  forall w : World,
    errors (transaction (snd (forEach (fun c => onStep c (changeState SKIPPED)) l w)))
    = errors (transaction w).
Proof.
  induction l as [| c l IH]; intros w; simpl; [reflexivity |].
  unfold bind. pose proof (onStep_errors c (changeState SKIPPED) w) as H.
  destruct (onStep c (changeState SKIPPED) w) as [[[] | e |] w1]; simpl in *;
    try exact H.
  now rewrite IH.
Qed.

(** The failure of a dispatched step (waiting, in the state of its phase) is
    recorded in [transaction.errors] only when it is the last one allowed:
    while [failures] stays within [maxRetries] the errors and the state of
    the flow are as they were; when it passes [maxRetries], exactly one error
    is added at the end, with the action of the step, its phase and the error
    given, and the flow moves to WAITING_TO_COMPENSATE unless the step
    compensates or continues on permanent failure, in which cases the state
    of the flow is kept. *)
Theorem setStepFailure_records_error (k : string) (e : Value) (mr : option JsNumber)
        (w : World) (s : TransactionStep) :
  asStep (prop (steps (getFlow w)) k) = Some s ->
  status (getStates s) = WAITING ->
  state (getStates s) = phaseState s ->
  (gtNumber (S (failures s)) (retriesOf mr) = false ->
   errors (transaction (snd (setStepFailure k e mr w))) = errors (transaction w)
   /\ flow_state (getFlow (snd (setStepFailure k e mr w))) = flow_state (getFlow w))
  /\ (gtNumber (S (failures s)) (retriesOf mr) = true ->
      errors (transaction (snd (setStepFailure k e mr w)))
      = errors (transaction w) ++ [mkError (action (definition s)) (handlerTypeOf s) e]
      /\ flow_state (getFlow (snd (setStepFailure k e mr w)))
         = if isCompensating s || continueOnPermanentFailure (definition s)
           then flow_state (getFlow w)
           else WAITING_TO_COMPENSATE).
Proof.
  intros Hs Hsta Hst.
  set (s1 := set_failures (S (failures s)) s).
  set (s2 := setStates (mkPair TEMPORARY_FAILURE (state (getStates s1))) s1).
  assert (Hg1 : getStates s1 = getStates s) by reflexivity.
  assert (Hg2 : getStates s2 = mkPair TEMPORARY_FAILURE (phaseState s)).
  { unfold s2. rewrite getStates_setStates, Hg1, Hst. reflexivity. }
  assert (Hf2 : failures s2 = S (failures s)).
  { unfold s2. now rewrite failures_setStates. }
  unfold setStepFailure.
  run_with ltac:(apply (onStep_returned k _ w s s1 tt Hs); reflexivity).
  run_with ltac:(apply (onStep_returned k _ _ s1 s2 tt (asStep_putStep_same _ _ _));
                 apply changeStatus_allowed; rewrite Hg1, Hsta; simpl; auto).
  rewrite putStep_putStep.
  run_with ltac:(apply stepAt_run; apply asStep_putStep_same).
  rewrite Hf2.
  destruct (gtNumber (S (failures s)) (retriesOf mr)) eqn:Eperm.
  - split; [intros Hle; discriminate Hle | intros _].
    set (s3 := setStates (mkPair (status (getStates s2)) FAILED) s2).
    set (s4 := setStates (mkPair PERMANENT_FAILURE (state (getStates s3))) s3).
    assert (Hg3 : getStates s3 = mkPair TEMPORARY_FAILURE FAILED).
    { unfold s3. rewrite getStates_setStates, Hg2. reflexivity. }
    assert (Hc4 : isCompensating s4 = isCompensating s).
    { unfold s4, s3, s2. now rewrite !isCompensating_setStates. }
    assert (Hd4 : definition s4 = definition s).
    { unfold s4, s3, s2.
      rewrite (proj1 (proj2 (proj2 (setStates_frame _ _)))).
      rewrite (proj1 (proj2 (proj2 (setStates_frame _ _)))).
      now rewrite (proj1 (proj2 (proj2 (setStates_frame _ _)))). }
    run_with ltac:(apply (onStep_returned k _ _ s2 s3 tt (asStep_putStep_same _ _ _));
                   apply changeState_allowed; rewrite Hg2; unfold phaseState;
                   destruct (isCompensating s); simpl; auto).
    rewrite putStep_putStep.
    run_with ltac:(apply (onStep_returned k _ _ s3 s4 tt (asStep_putStep_same _ _ _));
                   apply changeStatus_allowed; rewrite Hg3; simpl; auto).
    rewrite putStep_putStep.
    run_with ltac:(apply stepAt_run; apply asStep_putStep_same).
    run_with ltac:(reflexivity).
    unfold handlerTypeOf. rewrite Hc4, Hd4.
    set (w5 := set_transaction _ _).
    assert (He5 : errors (transaction w5)
                  = errors (transaction w)
                    ++ [mkError (action (definition s))
                                (if isCompensating s then COMPENSATE else INVOKE) e])
      by reflexivity.
    assert (Hf5 : flow_state (getFlow w5) = flow_state (getFlow w)) by reflexivity.
    destruct (isCompensating s); cbn [negb orb]; cbv beta iota.
    + simpl. split; [exact He5 | exact Hf5].
    + destruct (continueOnPermanentFailure (definition s)).
      * cbv beta iota. rewrite skip_children_errors.
        destruct (skip_children_effect (next s4) w5) as [_ [Hfs _]].
        cbv zeta in Hfs. rewrite Hfs. split; [exact He5 | exact Hf5].
      * simpl. split; [exact He5 | reflexivity].
  - split; [intros _ | intros Hlt; discriminate Hlt].
    simpl. split; reflexivity.
Qed.

Lemma setStepFailure_records_error_witness :
  errors (transaction (snd (setStepFailure "_root.A" "Error" (Some (numberOf 0))
                              worldABC_dispatched)))
  = errors (transaction worldABC_dispatched) ++ [mkError (Some "A") INVOKE "Error"]
  /\ flow_state (getFlow (snd (setStepFailure "_root.A" "Error" (Some (numberOf 0))
                                  worldABC_dispatched)))
     = INVOKING.
Proof.
  apply (proj2 (setStepFailure_records_error "_root.A" "Error" (Some (numberOf 0))
                  worldABC_dispatched (stepOf worldABC_dispatched "_root.A")
                  eq_refl eq_refl eq_refl)).
  reflexivity.
Defined.

(** * External completion (C7) *)

Lemma settled_not_ready (fs : TransactionState) (s : TransactionStep) :
  settled s -> ~ ready fs s.
Proof.
  unfold settled, ready. intros Hs [H | [H _]]; rewrite Hs in H; simpl in H;
    [discriminate | destruct (isCompensating s); discriminate].
Qed.

Lemma settled_started (s : TransactionStep) :
  settled s -> state (getStates s) <> NOT_STARTED.
Proof.
  unfold settled. intros ->. simpl. destruct (isCompensating s); discriminate.
Qed.

Lemma settled_succeeded (r : option Value) (s : TransactionStep) :
  settled (succeeded r s).
Proof.
  unfold settled, succeeded. rewrite getStates_setStates, isCompensating_setStates.
  now destruct (forwardResponse s).
Qed.

Lemma holds_self (k : string) (s : TransactionStep) (w : World) :
  asStep (prop (steps (getFlow w)) k) = Some s -> holds k s w.
Proof. intros H. exists s. split; [exact H | now left]. Qed.

(** Once the compensation of the step has begun, the frame keeps the
    record of its invocation. *)
Lemma holds_frame (k : string) (s : TransactionStep) (w w' : World) :
  worldFrame w w' ->
  (asStep (prop (steps (getFlow w)) k) = Some s -> holds k s w') ->
  holds k s w -> holds k s w'.
Proof.
  intros [_ [He _]] Hsame [s0 [Hs0 [-> | [Hsf [Hsf0 Hinv]]]]]; [now apply Hsame |].
  specialize (He k). apply asStep_Some in Hs0. rewrite Hs0 in He.
  destruct He as [s1 [Hs1 Hf]].
  destruct Hf as [_ [_ [_ [_ [_ [Hfz _]]]]]]. destruct (Hfz Hsf0) as [Hsf1 Hinv1].
  exists s1. split; [now rewrite Hs1 |]. right.
  split; [exact Hsf |]. split; [exact Hsf1 | congruence].
Qed.

Lemma flagStep_holds (k k' : string) (s : TransactionStep) (w : World) :
  settled s -> holds k s w -> holds k s (snd (flagStep k' w)).
Proof.
  intros Hset. apply holds_frame; [apply flagStep_frame |].
  intros Hs. unfold flagStep.
  destruct (String.eqb k' ROOT_STEP); [now apply holds_self |].
  destruct (String.eqb k' k) eqn:E.
  - apply String.eqb_eq in E. subst k'. rewrite (onStep_run k _ w s Hs).
    simpl snd. unfold settled in Hset.
    destruct (stepFailed s) eqn:Esf.
    + unfold isCompensating in Hset. rewrite Esf in Hset. rewrite Hset. simpl.
      exists s. split; [apply asStep_putStep_same | now left].
    + destruct ((state_eqb (state (getStates s)) DONE
                 || status_eqb (status (getStates s)) PERMANENT_FAILURE)
                && negb (noCompensation (definition s))).
      * eexists. split; [apply asStep_putStep_same |]. right.
        split; [exact Esf |].
        unfold beginCompensation, isCompensating. rewrite Esf.
        unfold changeState, getStates, setStates, isCompensating.
        destruct s as [sf i d inv cmp n dp la at_ fl fr rs]. simpl in *.
        destruct (state_eqb _ _ || includes _ _); simpl; split; reflexivity.
      * exists s. split; [apply asStep_putStep_same | now left].
  - apply String.eqb_neq in E. unfold onStep.
    destruct (asStep (prop (steps (getFlow w)) k')) as [s' |] eqn:Es';
      [| now apply holds_self].
    match goal with |- context [let '(_, _) := ?X in _] => destruct X as [r s1] end.
    simpl snd. exists s. split; [| now left].
    rewrite prop_putStep_other by exact E. exact Hs.
Qed.

Lemma bind_holds {A B} (k : string) (s : TransactionStep) (m : M World A)
      (f : A -> M World B) :
  (forall w, holds k s w -> holds k s (snd (m w))) ->
  (forall a w, holds k s w -> holds k s (snd (f a w))) ->
  forall w, holds k s w -> holds k s (snd (bind m f w)).
Proof.
  intros Hm Hf w Hw. unfold bind. specialize (Hm w Hw).
  destruct (m w) as [[a | e |] w1]; simpl in *; auto.
Qed.

Lemma same_steps_holds (k : string) (s : TransactionStep) (w w' : World) :
  steps (getFlow w') = steps (getFlow w) -> holds k s w -> holds k s w'.
Proof. intros H [s0 Hs0]. exists s0. now rewrite H. Qed.

Lemma forEach_holds {A} (k : string) (s : TransactionStep) (body : A -> M World unit)
      (l : list A) :
  (forall a w, holds k s w -> holds k s (snd (body a w))) ->
  forall w, holds k s w -> holds k s (snd (forEach body l w)).
Proof.
  intros Hb. induction l as [| x l IH]; intros w Hw; simpl; [exact Hw |].
  apply bind_holds; [apply Hb | intros _; exact IH | exact Hw].
Qed.

Lemma orderings_holds (k : string) (s : TransactionStep) (w0 w : World) :
  holds k s w ->
  holds k s (snd ((if state_eqb (flow_state (getFlow w0)) COMPENSATING
                   then getCompensationSteps else getInvokeSteps) w)).
Proof.
  intros Hw. destruct (orderings_run w) as [o Ho].
  destruct (state_eqb (flow_state (getFlow w0)) COMPENSATING).
  - unfold getCompensationSteps. run_with ltac:(reflexivity).
    destruct (compensateSteps (orchestrator w)); [| exact Hw].
    run_with ltac:(reflexivity). simpl. now apply (same_steps_holds k s w).
  - unfold getInvokeSteps. run_with ltac:(reflexivity).
    destruct (invokeSteps (orchestrator w)); [| exact Hw].
    run_with ltac:(reflexivity). simpl. now apply (same_steps_holds k s w).
Qed.

Lemma checkAllSteps_holds (k : string) (s : TransactionStep) (fuel : nat) :
  settled s ->
  forall w, holds k s w -> holds k s (snd (checkAllSteps fuel w)).
Proof.
  intros Hset. induction fuel as [| fuel IH]; intros w Hw; [exact Hw |].
  simpl checkAllSteps. run_with ltac:(reflexivity).
  apply bind_holds; [intros w1; apply orderings_holds | | exact Hw].
  intros allSteps. apply bind_holds.
  { intros w1 Hw1. destruct (scan _ allSteps emptyScan); exact Hw1. }
  intros sc w1 Hw1. destruct (mustCompensate _ sc).
  - apply bind_holds; [| | exact Hw1].
    { intros w2. now apply same_steps_holds. }
    intros _. apply bind_holds; [| intros _; exact IH].
    intros w2 Hw2. unfold flagStepsToRevert. run_with ltac:(reflexivity).
    apply forEach_holds; [| exact Hw2]. intros k' w3. now apply flagStep_holds.
  - apply bind_holds; [| intros _ w2 Hw2; exact Hw2 | exact Hw1].
    intros w2 Hw2. destruct (Z.of_nat (completedSteps sc) =? totalSteps allSteps)%Z;
      [| exact Hw2].
    apply (same_steps_holds k s w2); [| exact Hw2].
    unfold modifyFlow, modify, getFlow. simpl. apply finalize_same.
Qed.
Lemma resolvedKeys_keys (l : list (string * HandlerResult)) (k : string) :
  In k (resolvedKeys l) -> In k (map fst l).
Proof.
  unfold resolvedKeys. induction l as [| [k' r] l IH]; simpl; [auto |].
  intros H. apply in_app_or in H. destruct H as [H | H]; [| right; now apply IH].
  destruct r; simpl in H; [destruct H as [<- | []]; now left | contradiction].
Qed.

Lemma settleAll_others (started : list (string * HandlerResult)) (w : World) :
  NoDup (map fst started) ->
  (forall k, In k (map fst started) -> pendingAt w k) ->
  allRetryInv w ->
  forall k, ~ In k (map fst started) -> sameOrSkipped w (snd (settleAll started w)) k.
Proof.
  intros Hnd Hpend Hall k Hnot. unfold settleAll.
  pose proof (settleResolved_inv started w Hnd Hpend Hall) as Hres. cbv zeta in Hres.
  destruct (settleResolved started w) as [late w1]. simpl fst in Hres. simpl snd in Hres.
  destruct Hres as [Hlate [Hsh1 [Hall1 Hout1]]]. subst late.
  destruct (rejections_keys started Hnd) as [Hndr Hinr].
  assert (Hpend1 : forall k, In k (map fst (rejections started)) -> pendingAt w1 k).
  { intros k' Hin. destruct (Hinr k' Hin) as [Hin' Hnot'].
    destruct (Hpend k' Hin') as [s [Hs Hw]]. exists s. rewrite Hout1; auto. }
  pose proof (settleRejected_effect (rejections started) w1 Hndr Hpend1 Hall1) as Hrej.
  cbv zeta in Hrej.
  destruct (settleRejected (rejections started) w1) as [e1 w2]. simpl snd in Hrej.
  destruct Hrej as [_ [_ Hoth]]. simpl.
  apply (sameOrSkipped_trans w w1 w2).
  - left. apply Hout1. intros Hin. apply Hnot. now apply resolvedKeys_keys.
  - apply Hoth. intros Hin. apply Hnot. now apply (Hinr k Hin).
Qed.

(** A step that has succeeded is not dispatched again: a run leaves it as
    it is, or begins its compensation. *)
Lemma executeNext_holds (handler : Handler) (dateNow : nat -> nat) (k : string)
      (s : TransactionStep) (fuel : nat) :
  settled s ->
  forall w, driverInv w -> holds k s w ->
            holds k s (snd (executeNext handler dateNow fuel w)).
Proof.
  intros Hset. induction fuel as [| fuel IH]; intros w Hinv Hw; [exact Hw |].
  rewrite executeNext_S.
  destruct (hasFinished (transaction w)); [exact Hw |].
  pose proof (checkAllSteps_inv 2 w Hinv) as Hcheck. cbv zeta in Hcheck.
  pose proof (checkAllSteps_holds k s 2 Hset w Hw) as Hw1.
  destruct (checkAllSteps 2 w) as [[res | e |] w1]; simpl fst in Hcheck;
    simpl snd in Hcheck, Hw1; destruct Hcheck as [[Hwf1 Hall1] Hnext];
      try exact Hw1.
  destruct (Hnext res eq_refl) as [Hnd Hready].
  pose proof (dispatchAll_inv handler dateNow (res_next res) w1 Hnd Hready Hall1) as Hd.
  pose proof (dispatchAll_frame handler dateNow (res_next res) w1) as Hf2.
  cbv zeta in Hd.
  destruct (dispatchAll handler dateNow (res_next res) w1) as [[started e1] w2].
  simpl fst in Hd. simpl snd in Hd, Hf2.
  destruct Hd as [Hsh2 [_ [Hall2 [Hnds [Hpend Hout]]]]].
  assert (Hw2 : holds k s w2).
  { apply (holds_frame k s w1 w2 Hf2); [| exact Hw1].
    intros Hs. apply holds_self. rewrite Hout; [exact Hs |].
    intros Hin. destruct (Hready k Hin) as [s' [Hs' [Hr _]]].
    rewrite Hs in Hs'. injection Hs' as <-.
    exact (settled_not_ready _ s Hset Hr). }
  assert (Hpend2 : forall k, In k (map fst started) -> pendingAt w2 k).
  { intros k' Hk. now apply Hpend. }
  pose proof (settleAll_inv started w2 Hnds Hpend2 Hall2) as Hs. cbv zeta in Hs.
  pose proof (settleAll_others started w2 Hnds Hpend2 Hall2 k) as Ho3.
  pose proof (settleAll_frame started w2) as Hf3.
  destruct (settleAll started w2) as [e2 w3]. simpl snd in Hs, Ho3, Hf3.
  destruct Hs as [Hsh3 Hall3].
  assert (Hinv3 : driverInv w3).
  { split; [| exact Hall3].
    apply (wellFormed_sameShape w2 w3 Hsh3).
    now apply (wellFormed_sameShape w1 w2 Hsh2). }
  assert (Hw3 : holds k s w3).
  { apply (holds_frame k s w2 w3 Hf3); [| exact Hw2].
    intros Hs. apply holds_self.
    apply (sameOrSkipped_not_started w2 w3 k s); [| exact Hs | now apply settled_started].
    apply Ho3. intros Hin. destruct (Hpend2 k Hin) as [s' [Hs' Hwait]].
    rewrite Hs in Hs'. injection Hs' as <-.
    unfold settled in Hset. rewrite Hset in Hwait. discriminate Hwait. }
  destruct (firstError e1 e2); [exact Hw3 |].
  destruct (res_next res); [exact Hw3 | now apply IH].
Qed.

(** *** The step of an action *)

Lemma findByAction_In (o : Obj StepEntry) (a k : string) (s : TransactionStep) :
  findByAction o a = Some (k, s) -> In k (keys o).
Proof.
  induction o as [| [k1 e1] o IH]; simpl; [discriminate |].
  destruct e1 as [r n | s1]; [intros H; right; now apply IH |].
  destruct (action (definition s1)) as [a1 |]; [| intros H; right; now apply IH].
  destruct (String.eqb a1 a); [| intros H; right; now apply IH].
  intros H. injection H as <- _. now left.
Qed.

Lemma findByAction_prop (o : Obj StepEntry) (a k : string) (s : TransactionStep) :
  NoDup (keys o) -> findByAction o a = Some (k, s) -> prop o k = Some (Full s).
Proof.
  induction o as [| [k1 e1] o IH]; simpl; [discriminate |].
  intros Hnd H. inversion Hnd as [| k0 l0 Hnot Hnd']; subst.
  assert (Htail : findByAction o a = Some (k, s) -> 
                  (if String.eqb k1 k then Some e1 else prop o k) = Some (Full s)).
  { intros Ht. destruct (String.eqb k1 k) eqn:E.
    - apply String.eqb_eq in E. subst k1. exfalso. apply Hnot.
      now apply (findByAction_In o a k s).
    - now apply IH. }
  destruct e1 as [r n | s1]; [now apply Htail |].
  destruct (action (definition s1)) as [a1 |]; [| now apply Htail].
  destruct (String.eqb a1 a); [| now apply Htail].
  injection H as <- <-. now rewrite String.eqb_refl.
Qed.

(** The step of an action is found under the same key after a run. *)
Lemma findByAction_frame (a : string) (o : Obj StepEntry) :
  forall (o' : Obj StepEntry) (k : string) (s : TransactionStep),
    keys o' = keys o ->
    NoDup (keys o) ->
    (forall k, entryFrame (prop o k) (prop o' k)) ->
    findByAction o a = Some (k, s) ->
    exists s', findByAction o' a = Some (k, s').
Proof.
  induction o as [| [k1 e1] o IH]; intros o' k s Hk Hnd He Hf; [discriminate Hf |].
  destruct o' as [| [k1' e1'] o']; [discriminate Hk |].
  simpl in Hk. injection Hk as -> Hk.
  inversion Hnd as [| k0 l0 Hnot Hnd']; subst.
  assert (Hhead : entryFrame (Some e1) (Some e1')).
  { specialize (He k1). simpl in He. now rewrite String.eqb_refl in He. }
  assert (Htail : forall k, entryFrame (prop o k) (prop o' k)).
  { intros k2. specialize (He k2). simpl in He.
    destruct (String.eqb k1 k2) eqn:E; [| exact He].
    apply String.eqb_eq in E. subst k2.
    rewrite (proj2 (prop_None_keys o k1) Hnot).
    assert (Hnot' : ~ In k1 (keys o')) by (unfold keys in *; now rewrite Hk).
    now rewrite (proj2 (prop_None_keys o' k1) Hnot'). }
  simpl in Hf. simpl.
  destruct e1 as [r n | s1]; simpl in Hhead.
  - injection Hhead as ->. now apply (IH o' k s).
  - destruct Hhead as [s1' [Hs1' Hfr]]. injection Hs1' as ->.
    rewrite (proj1 (proj2 Hfr)).
    destruct (action (definition s1)) as [a1 |]; [| now apply (IH o' k s)].
    destruct (String.eqb a1 a); [| now apply (IH o' k s)].
    injection Hf as <- _. now exists s1'.
Qed.
Lemma settledThen_transitioned (s s' : TransactionStep) :
  settled s -> settledThen s s' ->
  alreadyTransitioned (handlerTypeOf s) s' = true
  /\ status_eqb (status (getStates s')) WAITING
     && handlerType_eqb (handlerTypeOf s') (handlerTypeOf s) = false.
Proof.
  unfold settled, settledThen, alreadyTransitioned, phaseStatus, handlerTypeOf, getStates,
    isCompensating.
  intros Hset [-> | [Hsf [Hsf' Hinv]]].
  - destruct (stepFailed s); rewrite Hset; split; reflexivity.
  - rewrite Hsf in *. rewrite Hsf', Hinv, Hset. simpl. split; [reflexivity |].
    apply Bool.andb_false_r.
Qed.

Lemma handlerType_eqb_eq (a b : TransactionHandlerType) :
  handlerType_eqb a b = true -> a = b.
Proof. destruct a, b; simpl; congruence. Qed.

Lemma transitioned_not_waiting (t : TransactionHandlerType) (s : TransactionStep) :
  alreadyTransitioned t s = true ->
  status_eqb (status (getStates s)) WAITING && handlerType_eqb (handlerTypeOf s) t = false.
Proof.
  unfold alreadyTransitioned, phaseStatus, handlerTypeOf, getStates, isCompensating.
  destruct t, (stepFailed s); simpl; intros H;
    try apply Bool.andb_false_r;
    [destruct (status (invoke s)) | destruct (status (compensate s))];
    try discriminate H; reflexivity.
Qed.

(** C7: a call of [registerStepSuccess] made for a key whose step has
    already left WAITING in the phase of the key is a no-op that returns the
    current transaction; and a call repeated with the same key and response
    after a first call that has returned does nothing more: it returns the
    same transaction and leaves the stored flow as the first call has left
    it, whatever the engine has done of the step in between. The stored
    transaction is one whose steps have distinct keys and counters that
    agree with their statuses. *)
Theorem registerStepSuccess_idempotent (handler : Handler) (dateNow : nat -> nat)
        (fuel : nat) (k txid a ph : string) (r : option Value) (sys : System)
        (tx : DistributedTransaction) :
  split ":"%char k = [txid; a; ph] ->
  prop (storage sys) txid = Some tx ->
  (forall key s t,
      findByAction (steps (flow tx)) a = Some (key, s) ->
      phaseOf ph = Some t ->
      alreadyTransitioned t s = true ->
      registerStepSuccess handler dateNow fuel k r sys = (Returned tx, sys))
  /\ (wellFormed (worldOfSystem sys tx) ->
      allRetryInv (worldOfSystem sys tx) ->
      forall tx1 sys1,
        registerStepSuccess handler dateNow fuel k r sys = (Returned tx1, sys1) ->
        registerStepSuccess handler dateNow fuel k r sys1 = (Returned tx1, sys1)).
Proof.
  intros Hk Htx. split.
  - intros key s t Hf Hph Htr.
    unfold registerStepSuccess, orchestrator_registerStepSuccess.
    rewrite Hk, Htx, Hf, Hph, (transitioned_not_waiting t s Htr), Htr. reflexivity.
  - intros Hwf Hall tx1 sys1 Hfirst.
    pose proof Hfirst as Hrun.
    unfold registerStepSuccess, orchestrator_registerStepSuccess in Hrun.
    rewrite Hk, Htx in Hrun.
    destruct (findByAction (steps (flow tx)) a) as [[k0 s] |] eqn:Hf;
      [| discriminate Hrun].
    destruct (status_eqb (status (getStates s)) WAITING
              && match phaseOf ph with
                 | Some t => handlerType_eqb (handlerTypeOf s) t
                 | None => false
                 end) eqn:Econd.
    + apply Bool.andb_true_iff in Econd. destruct Econd as [Hwait Hphase].
      apply status_eqb_eq in Hwait.
      destruct (phaseOf ph) as [t |] eqn:Hph; [| discriminate Hphase].
      apply handlerType_eqb_eq in Hphase.
      fold (worldOfSystem sys tx) in Hrun.
      set (w := worldOfSystem sys tx) in *.
      assert (Hs : asStep (prop (steps (getFlow w)) k0) = Some s).
      { apply asStep_Some. apply (findByAction_prop _ a); [apply Hwf | exact Hf]. }
      destruct (pending_phase s (Hall k0 s Hs) Hwait) as [Hstate _].
      pose proof (setStepSuccess_pending k0 r w s Hs Hwait Hstate) as Hsucc.
      set (w1 := putStep k0 (succeeded r s) w) in *.
      assert (Hinv1 : driverInv w1).
      { split.
        - apply (wellFormed_sameShape w w1); [apply (sameShape_putStep k0 s _ w Hs) | exact Hwf].
        - apply (allRetryInv_update w w1 k0 (succeeded r s) Hall).
          + apply asStep_putStep_same.
          + apply retryInv_succeeded; [now apply (Hall k0 s) | exact Hwait].
          + intros k' Hne. apply prop_putStep_other. congruence. }
      pose proof (executeNext_holds handler dateNow k0 (succeeded r s) fuel
                    (settled_succeeded r s) w1 Hinv1
                    (holds_self k0 _ w1 (asStep_putStep_same _ _ _))) as Hholds.
      assert (Hframe : worldFrame w (snd (executeNext handler dateNow fuel w1))).
      { apply (worldFrame_trans w w1).
        - pose proof (setStepSuccess_frame k0 r w) as Hfr. now rewrite Hsucc in Hfr.
        - apply executeNext_frame. }
      unfold bind in Hrun. rewrite Hsucc in Hrun.
      destruct (executeNext handler dateNow fuel w1) as [[[] | e |] w'] eqn:Eex;
        try discriminate Hrun.
      simpl snd in *. injection Hrun as <- <-.
      destruct Hframe as [Hkeys [Hent _]].
      destruct (findByAction_frame a (steps (getFlow w)) (steps (getFlow w')) k0 s
                  Hkeys (proj1 Hwf) Hent Hf) as [s' Hf'].
      assert (Hs' : asStep (prop (steps (getFlow w')) k0) = Some s').
      { apply asStep_Some. apply (findByAction_prop _ a); [| exact Hf'].
        rewrite Hkeys. apply Hwf. }
      destruct Hholds as [s0 [Hs0 Hthen]]. rewrite Hs' in Hs0. injection Hs0 as <-.
      destruct (settledThen_transitioned _ s' (settled_succeeded r s) Hthen)
        as [Htr Hnw].
      assert (Hty : handlerTypeOf (succeeded r s) = t).
      { rewrite <- Hphase. unfold handlerTypeOf, succeeded.
        rewrite isCompensating_setStates. now destruct (forwardResponse s). }
      rewrite Hty in Htr, Hnw.
      unfold registerStepSuccess, orchestrator_registerStepSuccess.
      rewrite Hk. cbn [storage]. rewrite prop_assign_same.
      change (flow (transaction w')) with (getFlow w').
      rewrite Hf', Hph, Hnw, Htr. reflexivity.
    + destruct (match phaseOf ph with
                | Some t => alreadyTransitioned t s
                | None => false
                end); [| discriminate Hrun].
      injection Hrun as <- <-. exact Hfirst.
Qed.

Lemma registerStepSuccess_idempotent_witness :
  registerStepSuccess alwaysResolve (fun n => n) 5 "tx:A:invoke" (Some "done")
                      systemA_waiting
  = (Returned (storedTx systemA_completed "tx"), systemA_completed)
  /\ registerStepSuccess alwaysResolve (fun n => n) 5 "tx:A:invoke" (Some "done")
                         systemA_completed
     = (Returned (storedTx systemA_completed "tx"), systemA_completed).
Proof.
  assert (Hfirst : registerStepSuccess alwaysResolve (fun n => n) 5 "tx:A:invoke"
                     (Some "done") systemA_waiting
                   = (Returned (storedTx systemA_completed "tx"), systemA_completed))
    by (vm_compute; reflexivity).
  split; [exact Hfirst |].
  pose proof (beginTransaction_inv (newOrchestrator "model" flowA) "tx" None
                (transaction (worldOf "model" flowA "tx")) [] 0
                (or_introl eq_refl) (or_introl eq_refl) eq_refl) as Hinv0.
  assert (Hinv1 : driverInv (withFlowState INVOKING (worldOf "model" flowA "tx"))).
  { apply (driverInv_flow (worldOf "model" flowA "tx")); [reflexivity | reflexivity |].
    exact Hinv0. }
  pose proof (dispatchAll_inv alwaysResolve (fun n => n) ["_root.A"]
                (withFlowState INVOKING (worldOf "model" flowA "tx"))) as Hd.
  cbv zeta in Hd.
  assert (Hw : snd (dispatchAll alwaysResolve (fun n => n) ["_root.A"]
                      (withFlowState INVOKING (worldOf "model" flowA "tx")))
               = worldOfSystem systemA_waiting (storedTx systemA_waiting "tx"))
    by (vm_compute; reflexivity).
  rewrite Hw in Hd.
  destruct Hd as [Hsh [_ [Hall _]]].
  { repeat constructor; simpl; intuition. }
  { intros k [<- | []]. eexists. split; [reflexivity |]. split; [| discriminate].
    right. split; [reflexivity | now right]. }
  { apply Hinv1. }
  apply (proj2 (registerStepSuccess_idempotent alwaysResolve (fun n => n) 5
                  "tx:A:invoke" "tx" "A" "invoke" (Some "done") systemA_waiting
                  (storedTx systemA_waiting "tx") eq_refl eq_refl)).
  - apply (wellFormed_sameShape _ _ Hsh). apply Hinv1.
  - exact Hall.
  - exact Hfirst.
Defined.
